(** * FoxyApply: the application-wizard automation engine

    A shallow embedding of the Go package [internal/browser] of FoxyApply:
    job-identifier extraction ([ExtractJobID]), the field value resolver
    ([ChooseValue]), the Easy-Apply wizard loop ([FillOutEasyApplyForm]) and
    the campaign loop ([StartApplying]); then of what surrounds them: the
    profile store ([internal/store]), the life cycle of the browser
    ([BrowserManager]), the downloader ([ChromeDownloader]) and the methods
    of the service that drive them ([AppService]).

    Go strings are byte sequences: they are [string] here, one [ascii] per
    byte.  Go's [int] is the 64-bit integer of the supported platforms and is
    carried by [Z]; the only place where its range matters is
    [strconv.Atoi], which rejects what does not fit. *)

From Stdlib Require Import ZArith String Ascii List Bool Lia.
From Stdlib Require Import DecimalString DecimalPos.
Import ListNotations.

Local Open Scope string_scope.
Local Open Scope Z_scope.

(** ** Results of Go code that may panic *)

Inductive outcome (A : Type) : Type :=
| Ret (a : A)   (* the call returned [a] *)
| Panic.        (* the call panicked (run-time error) *)
Arguments Ret {A} a.
Arguments Panic {A}.

(** Go's [error] values carry a message; [None] is [nil]. *)
Definition error := string.

(** ** The functions of Go's [strings] and [strconv] used by the package *)

Module GoStrings.

(** [strings.Trim(s, cutset)] with a one-byte cutset: all leading and trailing
    occurrences of the byte are removed. *)
Fixpoint trimLeftByte (s : string) (c : ascii) : string :=
  match s with
  | EmptyString => EmptyString
  | String a s' => if Ascii.eqb a c then trimLeftByte s' c else s
  end.

Fixpoint trimRightByte (s : string) (c : ascii) : string :=
  match s with
  | EmptyString => EmptyString
  | String a s' =>
      match trimRightByte s' c with
      | EmptyString => if Ascii.eqb a c then EmptyString else String a EmptyString
      | t => String a t
      end
  end.

Definition Trim (s : string) (c : ascii) : string :=
  trimLeftByte (trimRightByte s c) c.

(** [strings.Split(s, sep)] with a one-byte separator: the pieces between the
    occurrences of the byte, empty pieces included; the empty string gives
    one empty piece. *)
Fixpoint Split (s : string) (sep : ascii) : list string :=
  match s with
  | EmptyString => [EmptyString]
  | String a s' =>
      if Ascii.eqb a sep then EmptyString :: Split s' sep
      else match Split s' sep with
           | seg :: rest => String a seg :: rest
           | [] => [String a EmptyString]
           end
  end.

(** [strings.Contains(s, substr)]. *)
Fixpoint Contains (s substr : string) : bool :=
  if String.prefix substr s then true
  else match s with
       | EmptyString => false
       | String _ s' => Contains s' substr
       end.

(** The variadic helper [containsAny(s, kws...)] of the package. *)
Fixpoint containsAny (s : string) (kws : list string) : bool :=
  match kws with
  | [] => false
  | kw :: kws' => if Contains s kw then true else containsAny s kws'
  end.

(** [strings.ReplaceAll(s, old, new)] with a one-byte [old]. *)
Fixpoint ReplaceAll (s : string) (old : ascii) (new : string) : string :=
  match s with
  | EmptyString => EmptyString
  | String a s' =>
      if Ascii.eqb a old then (new ++ ReplaceAll s' old new)%string
      else String a (ReplaceAll s' old new)
  end.

(** [strings.Join(elems, sep)]. *)
Fixpoint Join (elems : list string) (sep : string) : string :=
  match elems with
  | [] => EmptyString
  | [e] => e
  | e :: rest => (e ++ sep ++ Join rest sep)%string
  end.

(** [strconv.Atoi]: an optional sign, then one or more decimal digits, and
    the value has to fit Go's [int]; [None] stands for a non-nil error. *)
Definition maxInt : Z := 2 ^ 63 - 1.
Definition minInt : Z := - 2 ^ 63.

Definition digit_of (c : ascii) : option Z :=
  let n := Z.of_N (N_of_ascii c) in
  if (48 <=? n) && (n <=? 57) then Some (n - 48) else None.

Fixpoint parse_digits (s : string) (acc : Z) : option Z :=
  match s with
  | EmptyString => Some acc
  | String ch s' =>
      match digit_of ch with
      | Some d => parse_digits s' (acc * 10 + d)
      | None => None
      end
  end.

Definition Atoi (s : string) : option Z :=
  match s with
  | EmptyString => None
  | String c rest =>
      let neg := Ascii.eqb c "-" in
      let digits := if Ascii.eqb c "-" || Ascii.eqb c "+" then rest else s in
      match digits with
      | EmptyString => None
      | _ =>
          match parse_digits digits 0 with
          | None => None
          | Some n =>
              let v := if neg then - n else n in
              if (minInt <=? v) && (v <=? maxInt) then Some v else None
          end
      end
  end.

(** [strconv.Itoa]: the decimal representation, with a minus sign for
    negative numbers. *)
Definition Itoa (i : Z) : string := NilZero.string_of_int (Z.to_int i).

(** [strings.TrimSpace], [strings.ToLower] and [strings.Fields] restricted
    to ASCII strings, where Go takes its byte-wise fast path: the white space
    bytes are tab, line feed, vertical tab, form feed, carriage return and
    space, and only [A]..[Z] change case.  The package below is stated over
    arbitrary implementations of these functions; the ones here are used to
    run it on examples. *)
Definition isAsciiSpace (c : ascii) : bool :=
  let n := N_of_ascii c in
  ((9 <=? n) && (n <=? 13))%N || (n =? 32)%N.

Fixpoint trimLeftSpace (s : string) : string :=
  match s with
  | EmptyString => EmptyString
  | String a s' => if isAsciiSpace a then trimLeftSpace s' else s
  end.

Fixpoint trimRightSpace (s : string) : string :=
  match s with
  | EmptyString => EmptyString
  | String a s' =>
      match trimRightSpace s' with
      | EmptyString => if isAsciiSpace a then EmptyString else String a EmptyString
      | t => String a t
      end
  end.

Definition ascii_TrimSpace (s : string) : string :=
  trimLeftSpace (trimRightSpace s).

(** [strings.Fields] on ASCII strings: the maximal runs of bytes that are
    not white space; [word] is the run being read. *)
Fixpoint fields_from (s : string) (word : string) : list string :=
  match s with
  | EmptyString =>
      match word with
      | EmptyString => []
      | _ => [word]
      end
  | String a s' =>
      if isAsciiSpace a then
        match word with
        | EmptyString => fields_from s' EmptyString
        | _ => word :: fields_from s' EmptyString
        end
      else fields_from s' (word ++ String a EmptyString)%string
  end.

Definition ascii_Fields (s : string) : list string := fields_from s EmptyString.

Definition lower_byte (c : ascii) : ascii :=
  let n := N_of_ascii c in
  if ((65 <=? n) && (n <=? 90))%N then ascii_of_N (n + 32) else c.

Fixpoint ascii_ToLower (s : string) : string :=
  match s with
  | EmptyString => EmptyString
  | String a s' => String (lower_byte a) (ascii_ToLower s')
  end.

End GoStrings.

(** ** The package [internal/browser] *)

Module Browser.
Import GoStrings.

(** The fields of [net/url.URL] that a posting link can fill. *)
Record URL : Type := mkURL {
  Scheme : string;
  Host : string;
  Path : string;
  RawQuery : string;
  Fragment : string
}.

(** [store.LinkedInProfile], without its time stamps. *)
Record LinkedInProfile : Type := mkProfile {
  ID : Z;
  Email : string;
  Password : string;
  PhoneNumber : string;
  Positions : list string;
  Locations : list string;
  RemoteOnly : bool;
  ProfileURL : string;
  YearsExperience : Z;
  UserCity : string;
  UserState : string;
  ZipCode : string;
  DesiredSalary : Z
}.

(** The [locator] struct of [FillOutEasyApplyForm]. *)
Record locator : Type := mkLocator {
  kind : string; (* css or xpath *)
  q : string
}.

Definition locator_eqb (a b : locator) : bool :=
  String.eqb (kind a) (kind b) && String.eqb (q a) (q b).

(** What a run does that can be observed from outside, in order.  The first
    four are the steps of the wizard loop; [EvFilled] and [EvFillFailed] are
    the two log lines of [FillInvalids]; [EvSearch] is a navigation to the
    search page built from a position, a location and a result offset, and
    [EvJobPage] a navigation to the page of a posting. *)
Inductive event : Type :=
| EvIter (i : Z)
| EvHandleInlineErrors
| EvIsPresent (loc : locator) (present : bool)
| EvClick (loc : locator) (err : option error)
| EvFilled (labelText value : string)
| EvFillFailed (labelText : string)
| EvSearch (position location : string) (start : Z)
| EvJobPage (jobID : Z).

(** The segment list [ExtractJobID] indexes:
    [strings.Split(strings.Trim(path, "/"), "/")]. *)
Definition path_segments (path : string) : list string :=
  Split (Trim path "/") "/".

(** A double quote, for the selectors that contain one. *)
Definition dquote_byte : ascii := ascii_of_N 34.
Definition dquote : string := String dquote_byte EmptyString.

(** The minimal CSS escaper of the package: a backslash before every double
    quote. *)
Definition cssEscape (s : string) : string :=
  ReplaceAll s dquote_byte (String (ascii_of_N 92) dquote).

(** Library functions that are not modelled byte by byte: [net/url.Parse]
    ([None] is a non-nil error), and [strings.ToLower], [strings.TrimSpace],
    [strings.EqualFold] and [strings.Fields], which follow Unicode tables.
    The package is stated over any implementation of them. *)
Record GoLib : Type := mkGoLib {
  url_Parse : string -> option URL;
  strings_ToLower : string -> string;
  strings_TrimSpace : string -> string;
  strings_EqualFold : string -> string -> bool;
  strings_Fields : string -> list string
}.

Section Package.

(** The browser session and the page it shows are the world [W]; DOM elements
    and frames are handles into it. *)
Variables W Elem Frame : Type.

(** The library functions the package is stated over. *)
Variable lib : GoLib.

(** *** ExtractJobID *)

Definition ExtractJobID (href : string) : outcome (Z * bool) :=
  match url_Parse lib href with
  | None => Ret (0, false)
  | Some parsedURL =>
      let segments := path_segments (Path parsedURL) in
      if Z.of_nat (List.length segments) <? 2 then Ret (0, false)
      else
        match nth_error segments 2 with
        | None => Panic (* index out of range [2] with length 2 *)
        | Some jobIDStr =>
            match Atoi jobIDStr with
            | None => Ret (0, false)
            | Some jobID => Ret (jobID, true)
            end
        end
  end.

(** *** ChooseValue *)

(** The injected fallback is an arbitrary Go function value: it may consult
    and change the world, and returns an answer and an error. *)
Definition fallback : Type := string -> string -> W -> (string * option error) * W.

Definition ChooseValue (labelText inputType : string) (p : LinkedInProfile)
    (llmFallback : option fallback) (w : W) : string * W :=
  let l := strings_ToLower lib (strings_TrimSpace lib labelText) in
  let t := strings_ToLower lib (strings_TrimSpace lib inputType) in
  if containsAny l ["phone"; "mobile"; "telephone"; "contact"] then
    (PhoneNumber p, w)
  else if containsAny l ["city"; "location"; "reside"] then
    (UserCity p ++ ", " ++ UserState p, w)
  else if Contains l "have you ever worked" then
    ("No", w)
  else if Contains l "state" then
    (UserState p, w)
  else if containsAny l ["salary"; "wage"; "income"; "compensation"] then
    (Itoa (DesiredSalary p), w)
  else if Contains l "experience" && Contains l "year" then
    (Itoa (YearsExperience p), w)
  else if containsAny l ["linkedin"; "linked-in"; "linked in"] then
    (ProfileURL p, w)
  else if String.eqb t "number" then
    (Itoa (YearsExperience p), w)
  else
    match llmFallback with
    | Some f =>
        let '(ans, err, w') := f labelText inputType w in
        match err with
        | None =>
            if negb (String.eqb (strings_TrimSpace lib ans) EmptyString) then
              (strings_TrimSpace lib ans, w')
            else (Itoa (YearsExperience p), w')
        | Some _ => (Itoa (YearsExperience p), w')
        end
    | None => (Itoa (YearsExperience p), w)
    end.

(** *** The browser capability

    The primitives of the browser-control library (go-rod) that the package
    calls, as transitions of the world.  A query that can fail returns
    [None] for a non-nil error; the [Must] variants are taken on a live
    session, where they return, but for [MustShadowRoot], whose error is
    the answer for an element without shadow root: its [None] is a panic of
    the caller.  Timeouts are in milliseconds, 0 standing for a query
    without one.  A query without a timeout ([frame_Element] is always one)
    keeps looking while its element is absent, so its [None] stands for the
    errors it can still return, those of a session that fails; a call that
    would wait for ever is not a run of the model, and what is stated about
    a computation returning assumes that such a query finds its element. *)
Record Env : Type := mkEnv {
  page_WaitLoad : W -> W;
  page_Navigate : string -> W -> W;
  page_Element : Z -> string -> W -> option Elem * W;
  page_ElementX : Z -> string -> W -> option Elem * W;
  page_Elements : string -> W -> list Elem * W;
  page_ElementsX : string -> W -> list Elem * W;
  page_HTML : W -> option string * W;
  mouse_Scroll : Z -> Z -> Z -> W -> option error * W;
  iframe_Frame : Elem -> W -> Frame * W;
  frame_Has : Frame -> string -> W -> option Elem * W;
  frame_HasX : Frame -> string -> W -> option Elem * W;
  frame_Element : Frame -> string -> W -> option Elem * W;
  frame_PressEnter : Frame -> W -> option error * W;
  el_ScrollIntoView : Elem -> W -> W;
  el_Focus : Elem -> W -> W;
  el_Hover : Elem -> W -> option error * W;
  el_Click : Elem -> W -> W;
  el_ShadowRoot : Elem -> W -> option Elem * W;
  el_Element : Elem -> Z -> string -> W -> option Elem * W;
  el_ElementsX : Elem -> string -> W -> list Elem * W;
  el_Attribute : Elem -> string -> W -> option string * W;
  el_Text : Elem -> W -> string * W;
  el_SelectAllText : Elem -> W -> option error * W;
  el_Input : Elem -> string -> W -> option error * W;
  (* Eval of the script of clearAndType, which empties the value *)
  el_EvalClear : Elem -> W -> W;
  (* Eval of the script of getBestLabelText, which walks up at most four
     ancestors and gives the first line of the text of the nearest fieldset
     or div; None when the evaluation fails *)
  el_EvalGroupText : Elem -> W -> option string * W;
  (* goquery.NewDocumentFromReader: does the markup parse *)
  goquery_parse : string -> bool;
  (* time.Sleep and sleepRand: time passes, the page may change *)
  time_Sleep : W -> W;
  (* the raw source behind rand.Intn *)
  rand_Int : W -> Z * W;
  (* SetApplying: the flag kept on the manager's context *)
  set_applying : bool -> W -> W
}.

Variable env : Env.

(** *** Computations

    A computation starts in a world and ends in one, returns or panics, and
    leaves the events it produced, oldest first. *)
Record res (A : Type) : Type := mkRes {
  out : outcome A;
  world : W;
  events : list event
}.
Arguments mkRes {A} out world events.
Arguments out {A} r.
Arguments world {A} r.
Arguments events {A} r.

Definition M (A : Type) : Type := W -> res A.

Definition ret {A : Type} (a : A) : M A :=
  fun w => mkRes (Ret a) w [].

Definition bind {A B : Type} (m : M A) (f : A -> M B) : M B :=
  fun w =>
    let r := m w in
    match out r with
    | Ret a =>
        let r' := f a (world r) in
        mkRes (out r') (world r') (events r ++ events r')
    | Panic => mkRes Panic (world r) (events r)
    end.

Definition panic {A : Type} : M A :=
  fun w => mkRes Panic w [].

Definition liftW {A : Type} (f : W -> A * W) : M A :=
  fun w => let (a, w') := f w in mkRes (Ret a) w' [].

Definition modW (f : W -> W) : M unit :=
  fun w => mkRes (Ret tt) (f w) [].

Definition emit (e : event) : M unit :=
  fun w => mkRes (Ret tt) w [e].

Notation "x <- m ;; k" := (bind m (fun x => k))
  (at level 61, m at next level, right associativity).
Notation "m ;;; k" := (bind m (fun _ => k))
  (at level 61, right associativity).

(** *** FillInvalids and its helpers *)

Definition attr (el : Elem) (name : string) : M string :=
  v <- liftW (el_Attribute env el name) ;;
  match v with
  | None => ret EmptyString
  | Some s => ret (strings_TrimSpace lib s)
  end.

Definition isEmpty (el : Elem) : M bool :=
  v <- attr el "value" ;;
  ret (String.eqb (strings_TrimSpace lib v) EmptyString).

Definition isRequired (el : Elem) : M bool :=
  a <- attr el "aria-required" ;;
  if strings_EqualFold lib a "true" then ret true
  else
    v <- liftW (el_Attribute env el "required") ;;
    match v with
    | Some _ => ret true
    | None =>
        c <- attr el "class" ;;
        if Contains (strings_ToLower lib c) "required" then ret true
        else ret false
    end.

Definition clearAndType (el : Elem) (text : string) : M (option error) :=
  modW (el_ScrollIntoView env el) ;;;
  err <- liftW (el_SelectAllText env el) ;;
  match err with
  | Some _ => modW (el_EvalClear env el)
  | None => ret tt
  end ;;;
  liftW (el_Input env el text).

(** The loop of [getBestLabelText] over the ids of aria-labelledby. *)
Fixpoint labelledby_parts (page : Elem) (ids : list string) (parts : list string)
    : M (list string) :=
  match ids with
  | [] => ret parts
  | one :: rest =>
      node <- liftW (el_Element env page 300 ("#" ++ cssEscape one)) ;;
      match node with
      | Some n =>
          t <- liftW (el_Text env n) ;;
          if negb (String.eqb (strings_TrimSpace lib t) EmptyString)
          then labelledby_parts page rest (parts ++ [strings_TrimSpace lib t])
          else labelledby_parts page rest parts
      | None => labelledby_parts page rest parts
      end
  end.

Definition getBestLabelText (page el : Elem) : M string :=
  (* 1) label[for=id] *)
  id <- attr el "id" ;;
  byFor <- (if negb (String.eqb id EmptyString) then
              lab <- liftW (el_Element env page 300
                       ("label[for=" ++ dquote ++ cssEscape id ++ dquote ++ "]")) ;;
              match lab with
              | Some l =>
                  t <- liftW (el_Text env l) ;;
                  if negb (String.eqb (strings_TrimSpace lib t) EmptyString)
                  then ret (Some (strings_TrimSpace lib t))
                  else ret None
              | None => ret None
              end
            else ret None) ;;
  match byFor with
  | Some t => ret t
  | None =>
      (* 2) aria-label *)
      v <- attr el "aria-label" ;;
      if negb (String.eqb v EmptyString) then ret v
      else
        (* 3) placeholder *)
        v <- attr el "placeholder" ;;
        if negb (String.eqb v EmptyString) then ret v
        else
          (* 4) aria-labelledby (one or more ids) *)
          ids <- attr el "aria-labelledby" ;;
          parts <- (if negb (String.eqb ids EmptyString)
                    then labelledby_parts page (strings_Fields lib ids) []
                    else ret []) ;;
          match parts with
          | _ :: _ => ret (Join parts " ")
          | [] =>
              (* 5) nearest fieldset/div text *)
              j <- liftW (el_EvalGroupText env el) ;;
              match j with
              | Some s =>
                  if negb (String.eqb s EmptyString)
                  then ret (strings_TrimSpace lib s)
                  else ret EmptyString
              | None => ret EmptyString
              end
          end
  end.

Definition textInputXPath : string :=
  "//*[starts-with(@id, 'single-line-text-form-component-formElement-urn-li-jobs-applyformcommon-easyApplyFormElement-')]".

Fixpoint FillInvalids_inputs (page : Elem) (profile : LinkedInProfile)
    (llmFallback : option fallback) (inputs : list Elem) : M unit :=
  match inputs with
  | [] => ret tt
  | inputEl :: rest =>
      e <- isEmpty inputEl ;;
      r <- (if e then isRequired inputEl else ret false) ;;
      (if r then
         labelText <- getBestLabelText page inputEl ;;
         inputType <- attr inputEl "type" ;;
         value <- liftW (ChooseValue labelText inputType profile llmFallback) ;;
         err <- clearAndType inputEl value ;;
         match err with
         | Some _ => emit (EvFillFailed labelText)
         | None => emit (EvFilled labelText value)
         end
       else ret tt) ;;;
      FillInvalids_inputs page profile llmFallback rest
  end.

Definition FillInvalids (page : Elem) (profile : LinkedInProfile)
    (llmFallback : option fallback) : M (option error) :=
  integerInputs <- liftW (el_ElementsX env page textInputXPath) ;;
  FillInvalids_inputs page profile llmFallback integerInputs ;;;
  ret None.

(** *** FillOutEasyApplyForm *)

Definition nextSel : string := "button[aria-label='Continue to next step']".
Definition reviewSel : string := "button[aria-label='Review your application']".
Definition submitSel : string := "button[aria-label='Submit application']".
Definition errorMessageSel : string := ".artdeco-inline-feedback__icon".
Definition followLabelSel : string := "label[for='follow-company-checkbox']".

Definition nextLoc : locator := mkLocator "css" nextSel.
Definition reviewLoc : locator := mkLocator "css" reviewSel.
Definition followLoc : locator := mkLocator "css" followLabelSel.
Definition submitLoc : locator := mkLocator "css" submitSel.
Definition errorLoc : locator := mkLocator "css" errorMessageSel.

Definition buttons : list locator :=
  [ nextLoc;     (* i == 0 *)
    reviewLoc;
    followLoc;   (* i == 2 special case *)
    submitLoc ]. (* i == 3 => submitted *)

(** The loop of [isPresent] over the iframes of the page. *)
Fixpoint isPresent_iframes (loc : locator) (iframes : list Elem) : M bool :=
  match iframes with
  | [] => ret false
  | iframe :: rest =>
      frame <- liftW (iframe_Frame env iframe) ;;
      has <- (if String.eqb (kind loc) "css"
              then liftW (frame_Has env frame (q loc))
              else liftW (frame_HasX env frame (q loc))) ;;
      match has with
      | Some _ => ret true
      | None => isPresent_iframes loc rest
      end
  end.

(** [isPresent]; its answer is recorded as it returns. *)
Definition isPresent (loc : locator) : M bool :=
  modW (page_WaitLoad env) ;;;
  found <- liftW (page_Element env 4000 (q loc)) ;;
  b <- match found with
       | None =>
           iframes <- liftW (page_Elements env "iframe") ;;
           isPresent_iframes loc iframes
       | Some _ => ret true
       end ;;
  emit (EvIsPresent loc b) ;;;
  ret b.

Definition hasErrors : M bool := isPresent errorLoc.

(** The loop of [handleInlineErrors] over the iframes of the page.  The
    host of the modal is looked for without a timeout, and an error of that
    call goes on to the next iframe.  [host.MustShadowRoot()] panics on a
    host without shadow root, so the test of its result against nil that
    follows never fails: what it returns is not nil. *)
Fixpoint handleInlineErrors_iframes (profile : LinkedInProfile)
    (iframes : list Elem) : M unit :=
  match iframes with
  | [] => ret tt
  | iframe :: rest =>
      frame <- liftW (iframe_Frame env iframe) ;;
      has <- liftW (frame_Has env frame errorMessageSel) ;;
      match has with
      | Some _ =>
          host <- liftW (frame_Element env frame ".jobs-easy-apply-modal") ;;
          match host with
          | None => handleInlineErrors_iframes profile rest (* continue *)
          | Some h =>
              shadowRoot <- liftW (el_ShadowRoot env h) ;;
              match shadowRoot with
              | Some root =>
                  FillInvalids root profile None ;;;
                  handleInlineErrors_iframes profile rest
              | None => panic (* MustShadowRoot *)
              end
          end
      | None => handleInlineErrors_iframes profile rest
      end
  end.

(** [handleInlineErrors]; its entry is recorded. *)
Definition handleInlineErrors (profile : LinkedInProfile) : M unit :=
  emit EvHandleInlineErrors ;;;
  present <- isPresent errorLoc ;;
  if negb present then ret tt
  else
    iframes <- liftW (page_Elements env "iframe") ;;
    handleInlineErrors_iframes profile iframes.

(** The loop of [clickWhenClickable] over the iframes; [None] when no frame
    has the element, otherwise the error of the key press. *)
Fixpoint clickWhenClickable_iframes (loc : locator) (iframes : list Elem)
    : M (option (option error)) :=
  match iframes with
  | [] => ret None
  | iframe :: rest =>
      frame <- liftW (iframe_Frame env iframe) ;;
      has <- liftW (frame_Has env frame (q loc)) ;;
      match has with
      | Some button =>
          modW (el_ScrollIntoView env button) ;;;
          modW (el_Focus env button) ;;;
          err <- liftW (frame_PressEnter env frame) ;;
          ret (Some err)
      | None => clickWhenClickable_iframes loc rest
      end
  end.

(** [clickWhenClickable]; the error it returns is recorded. *)
Definition clickWhenClickable (loc : locator) : M (option error) :=
  found <- (if String.eqb (kind loc) "xpath"
            then liftW (page_ElementX env 2000 (q loc))
            else liftW (page_Element env 2000 (q loc))) ;;
  err <- match found with
         | Some _ => ret None
         | None =>
             iframes <- liftW (page_Elements env "iframe") ;;
             pressed <- clickWhenClickable_iframes loc iframes ;;
             match pressed with
             | Some e => ret e
             | None => ret (Some "element not found")
             end
         end ;;
  emit (EvClick loc err) ;;;
  ret err.

(** The loop over [buttons], from index [j] on; the result is [submitted]
    when the loop is left. *)
Fixpoint inner_loop (profile : LinkedInProfile) (j : Z) (bs : list locator)
    (submitted : bool) : M bool :=
  match bs with
  | [] => ret submitted
  | loc :: rest =>
      present <- isPresent loc ;;
      go <- (if present then e <- hasErrors ;; ret (negb e) else ret false) ;;
      if go then
        err <- clickWhenClickable loc ;;
        match err with
        | None =>
            if j =? 3 then ret true (* submitted = true; break *)
            else if j =? 0 then ret submitted (* break *)
            else
              handleInlineErrors profile ;;;
              inner_loop profile (j + 1) rest submitted
        | Some _ =>
            handleInlineErrors profile ;;;
            inner_loop profile (j + 1) rest submitted
        end
      else
        handleInlineErrors profile ;;;
        inner_loop profile (j + 1) rest submitted
  end.

(** The outer loop [for i := 0; i < 15 && !submitted; i++], by the number of
    iterations left before [i] reaches 15. *)
Fixpoint outer_loop (profile : LinkedInProfile) (left : nat) (submitted : bool)
    : M bool :=
  match left with
  | O => ret submitted
  | S left' =>
      if submitted then ret submitted
      else
        emit (EvIter (15 - Z.of_nat left)) ;;;
        handleInlineErrors profile ;;;
        submitted' <- inner_loop profile 0 buttons submitted ;;
        outer_loop profile left' submitted'
  end.

Definition FillOutEasyApplyForm (profile : LinkedInProfile)
    : M (bool * option error) :=
  modW (time_Sleep env) ;;;
  submitted <- outer_loop profile 15 false ;;
  modW (time_Sleep env) ;;; (* the deferred sleepRand *)
  ret (submitted, None).

(** *** LoadPage and GetEasyApplyButton *)

Fixpoint LoadPage_scroll (n : nat) : M (option error) :=
  match n with
  | O => ret None
  | S n' =>
      err <- liftW (mouse_Scroll env 0 200 1) ;;
      match err with
      | Some e => ret (Some e)
      | None => modW (time_Sleep env) ;;; LoadPage_scroll n'
      end
  end.

(** [LoadPage], by the error it returns ([None] is [nil]: the document was
    built). *)
Definition LoadPage : M (option error) :=
  jobList <- liftW (page_Element env 0 ".scaffold-layout__list") ;;
  match jobList with
  | None => ret (Some "job list container not found")
  | Some l =>
      err <- liftW (el_Hover env l) ;;
      match err with
      | Some e => ret (Some e)
      | None =>
          err <- LoadPage_scroll 14 ;;
          match err with
          | Some e => ret (Some e)
          | None =>
              html <- liftW (page_HTML env) ;;
              match html with
              | None => ret (Some "no markup")
              | Some h =>
                  if goquery_parse env h then ret None
                  else ret (Some "markup does not parse")
              end
          end
      end
  end.

Definition easyApplyXPath : string :=
  "//*[contains(@aria-label, " ++ dquote ++ "Easy Apply to" ++ dquote ++ ")]".

Definition GetEasyApplyButton : M (bool * option error) :=
  modW (page_WaitLoad env) ;;;
  found <- liftW (page_ElementsX env easyApplyXPath) ;;
  match found with
  | b :: _ => modW (el_Click env b) ;;; ret (true, None)
  | [] => ret (false, Some "Easy Apply button not found")
  end.

(** *** StartApplying *)

(** The search URL of [StartApplying], by [fmt.Sprintf]. *)
Definition jobsPageUrl (position location : string) (start : Z) : string :=
  "https://www.linkedin.com/jobs/search/?f_LF=f_AL&keywords=" ++ position
  ++ "&location=" ++ location ++ "&sortBy=DD&start=" ++ Itoa start.

Definition jobViewUrl (jobID : Z) : string :=
  "https://www.linkedin.com/jobs/view/" ++ Itoa jobID.

(** [xs[rand.Intn(len(xs))]]: [rand.Intn] panics on an empty list and
    otherwise answers below the length. *)
Definition pick (xs : list string) : M string :=
  let n := Z.of_nat (List.length xs) in
  if n <=? 0 then panic
  else
    r <- liftW (rand_Int env) ;;
    match nth_error xs (Z.to_nat (r mod n)) with
    | Some x => ret x
    | None => panic
    end.

(** The loop over the links of one result card.  [MustAttribute] gives a nil
    pointer for a link without href, and dereferencing it panics; so does a
    panic of [ExtractJobID]. *)
Fixpoint collect_children (children : list Elem) (IDs : list Z) : M (list Z) :=
  match children with
  | [] => ret IDs
  | child :: rest =>
      jobLink <- liftW (el_Attribute env child "href") ;;
      match jobLink with
      | None => panic
      | Some href =>
          match ExtractJobID href with
          | Panic => panic
          | Ret (jobID, ok) =>
              if negb ok then collect_children rest IDs (* continue *)
              else collect_children rest (IDs ++ [jobID])
          end
      end
  end.

Fixpoint collect_links (links : list Elem) (IDs : list Z) : M (list Z) :=
  match links with
  | [] => ret IDs
  | element :: rest =>
      children <- liftW (el_ElementsX env element
                    ".//a[contains(@class, 'job-card-container__link')]") ;;
      IDs' <- collect_children children IDs ;;
      collect_links rest IDs'
  end.

Fixpoint apply_to_jobs (profile : LinkedInProfile) (IDs : list Z) : M unit :=
  match IDs with
  | [] => ret tt
  | jobID :: rest =>
      emit (EvJobPage jobID) ;;;
      modW (page_Navigate env (jobViewUrl jobID)) ;;;
      modW (time_Sleep env) ;;;
      found <- GetEasyApplyButton ;;
      match snd found with
      | Some _ => apply_to_jobs profile rest (* continue *)
      | None =>
          FillOutEasyApplyForm profile ;;;
          apply_to_jobs profile rest
      end
  end.

(** One pass of the body of the endless loop of [StartApplying]: [inl err]
    when the function returns [err], [inr IDs] when the loop goes on with the
    identifiers accumulated so far. *)
Definition campaign_pass (profile : LinkedInProfile)
    (position location : string) (jobsPerPage : Z) (IDs : list Z)
    : M (error + list Z) :=
  emit (EvSearch position location jobsPerPage) ;;;
  modW (page_Navigate env (jobsPageUrl position location jobsPerPage)) ;;;
  modW (time_Sleep env) ;;;
  err <- LoadPage ;;
  match err with
  | Some e => ret (inl ("failed to load page: " ++ e))
  | None =>
      links <- liftW (page_ElementsX env "//div[@data-job-id]") ;;
      match links with
      | [] => ret (inl "No job links found, stopping application process.")
      | _ =>
          IDs' <- collect_links links IDs ;;
          apply_to_jobs profile IDs' ;;;
          ret (inr IDs')
      end
  end.

(** The loop [for { ... }], cut after [passes] passes: [Some err] when the
    function has returned [err], [None] when the loop is still running. *)
Fixpoint campaign_loop (passes : nat) (profile : LinkedInProfile)
    (position location : string) (jobsPerPage : Z) (IDs : list Z)
    : M (option error) :=
  match passes with
  | O => ret None
  | S passes' =>
      r <- campaign_pass profile position location jobsPerPage IDs ;;
      match r with
      | inl err => ret (Some err)
      | inr IDs' =>
          campaign_loop passes' profile position location jobsPerPage IDs'
      end
  end.

Definition StartApplying (passes : nat) (profile : LinkedInProfile)
    : M (option error) :=
  modW (set_applying env true) ;;;
  position <- pick (Positions profile) ;;
  location <- pick (Locations profile) ;;
  let jobsPerPage := 0 in
  let IDs := [] in
  campaign_loop passes profile position location jobsPerPage IDs.

End Package.

Arguments page_WaitLoad {W Elem Frame} e.
Arguments page_Navigate {W Elem Frame} e.
Arguments page_Element {W Elem Frame} e.
Arguments page_ElementX {W Elem Frame} e.
Arguments page_Elements {W Elem Frame} e.
Arguments page_ElementsX {W Elem Frame} e.
Arguments page_HTML {W Elem Frame} e.
Arguments mouse_Scroll {W Elem Frame} e.
Arguments iframe_Frame {W Elem Frame} e.
Arguments frame_Has {W Elem Frame} e.
Arguments frame_HasX {W Elem Frame} e.
Arguments frame_Element {W Elem Frame} e.
Arguments frame_PressEnter {W Elem Frame} e.
Arguments el_ScrollIntoView {W Elem Frame} e.
Arguments el_Focus {W Elem Frame} e.
Arguments el_Hover {W Elem Frame} e.
Arguments el_Click {W Elem Frame} e.
Arguments el_ShadowRoot {W Elem Frame} e.
Arguments el_ElementsX {W Elem Frame} e.
Arguments el_Attribute {W Elem Frame} e.
Arguments el_Element {W Elem Frame} e.
Arguments el_Text {W Elem Frame} e.
Arguments el_SelectAllText {W Elem Frame} e.
Arguments el_Input {W Elem Frame} e.
Arguments el_EvalClear {W Elem Frame} e.
Arguments el_EvalGroupText {W Elem Frame} e.
Arguments goquery_parse {W Elem Frame} e.
Arguments time_Sleep {W Elem Frame} e.
Arguments rand_Int {W Elem Frame} e.
Arguments set_applying {W Elem Frame} e.
Arguments ChooseValue {W} lib labelText inputType p llmFallback w.
Arguments out {W A} r.
Arguments world {W A} r.
Arguments events {W A} r.
Arguments mkRes {W A} out world events.
Arguments ret {W A} a _.
Arguments bind {W A B} m f _.
Arguments panic {W A} _.
Arguments liftW {W A} f _.
Arguments modW {W} f _.
Arguments emit {W} e _.
Arguments attr {W Elem Frame} lib env el name _.
Arguments isEmpty {W Elem Frame} lib env el _.
Arguments isRequired {W Elem Frame} lib env el _.
Arguments clearAndType {W Elem Frame} env el text _.
Arguments labelledby_parts {W Elem Frame} lib env page ids parts _.
Arguments getBestLabelText {W Elem Frame} lib env page el _.
Arguments FillInvalids_inputs {W Elem Frame} lib env page profile llmFallback inputs _.
Arguments FillInvalids {W Elem Frame} lib env page profile llmFallback _.
Arguments isPresent_iframes {W Elem Frame} env loc iframes _.
Arguments isPresent {W Elem Frame} env loc _.
Arguments hasErrors {W Elem Frame} env _.
Arguments handleInlineErrors_iframes {W Elem Frame} lib env profile iframes _.
Arguments handleInlineErrors {W Elem Frame} lib env profile _.
Arguments clickWhenClickable_iframes {W Elem Frame} env loc iframes _.
Arguments clickWhenClickable {W Elem Frame} env loc _.
Arguments inner_loop {W Elem Frame} lib env profile j bs submitted _.
Arguments outer_loop {W Elem Frame} lib env profile left submitted _.
Arguments FillOutEasyApplyForm {W Elem Frame} lib env profile _.
Arguments LoadPage_scroll {W Elem Frame} env n _.
Arguments LoadPage {W Elem Frame} env _.
Arguments GetEasyApplyButton {W Elem Frame} env _.
Arguments pick {W Elem Frame} env xs _.
Arguments collect_children {W Elem Frame} lib env children IDs _.
Arguments collect_links {W Elem Frame} lib env links IDs _.
Arguments apply_to_jobs {W Elem Frame} lib env profile IDs _.
Arguments campaign_pass {W Elem Frame} lib env profile position location jobsPerPage IDs _.
Arguments campaign_loop {W Elem Frame} lib env passes profile position location jobsPerPage IDs _.
Arguments StartApplying {W Elem Frame} lib env passes profile _.

End Browser.

(** ** Library and browser instances to run the package on *)

Module Sample.
Import GoStrings Browser.

(** *** A parser for posting links

    [parse_href] follows [net/url.Parse] on references of the shape
    scheme://host:port/path?query#fragment, each part optional: the fragment
    is cut at the first hash sign, control bytes are refused, the scheme is
    scanned as [getScheme] does, the query is cut at the first question mark,
    the authority is what follows a leading double slash up to the next
    slash, and the path and fragment are percent-decoded.  Authorities with
    user information, brackets or escapes, which the library validates by
    further rules, are declined here. *)

Fixpoint Cut (s : string) (sep : ascii) : string * string * bool :=
  match s with
  | EmptyString => (EmptyString, EmptyString, false)
  | String a s' =>
      if Ascii.eqb a sep then (EmptyString, s', true)
      else let '(before, after, found) := Cut s' sep in
           (String a before, after, found)
  end.

Fixpoint all_bytes (f : ascii -> bool) (s : string) : bool :=
  match s with
  | EmptyString => true
  | String a s' => f a && all_bytes f s'
  end.

Definition byte_in (lo hi : N) (c : ascii) : bool :=
  ((lo <=? N_of_ascii c) && (N_of_ascii c <=? hi))%N.

Definition is_ctl (c : ascii) : bool :=
  (N_of_ascii c <? 32)%N || (N_of_ascii c =? 127)%N.

Definition is_alpha (c : ascii) : bool := byte_in 97 122 c || byte_in 65 90 c.
Definition is_digit (c : ascii) : bool := byte_in 48 57 c.

Inductive scheme_scan : Type :=
| NoScheme
| Found (scheme rest : string)
| MissingScheme.

Fixpoint getScheme (rawURL : string) (first : bool) : scheme_scan :=
  match rawURL with
  | EmptyString => NoScheme
  | String c s' =>
      let continue :=
        match getScheme s' false with
        | Found scheme rest => Found (String c scheme) rest
        | other => other
        end in
      if is_alpha c then continue
      else if is_digit c || Ascii.eqb c "+" || Ascii.eqb c "-" || Ascii.eqb c "."
      then (if first then NoScheme else continue)
      else if Ascii.eqb c ":"
      then (if first then MissingScheme else Found EmptyString s')
      else NoScheme
  end.

Definition unhex (c : ascii) : option N :=
  let n := N_of_ascii c in
  if byte_in 48 57 c then Some (n - 48)%N
  else if byte_in 97 102 c then Some (n - 87)%N
  else if byte_in 65 70 c then Some (n - 55)%N
  else None.

Fixpoint unescape (s : string) : option string :=
  match s with
  | EmptyString => Some EmptyString
  | String c rest =>
      if Ascii.eqb c "%" then
        match rest with
        | String a (String b rest') =>
            match unhex a, unhex b, unescape rest' with
            | Some x, Some y, Some t => Some (String (ascii_of_N (16 * x + y)) t)
            | _, _, _ => None
            end
        | _ => None
        end
      else
        match unescape rest with
        | Some t => Some (String c t)
        | None => None
        end
  end.

Definition host_byte (c : ascii) : bool :=
  is_alpha c || is_digit c || Ascii.eqb c "." || Ascii.eqb c "-"
  || Ascii.eqb c "_" || Ascii.eqb c "~".

Definition parse_authority (authority : string) : option string :=
  let '(name, port, _) := Cut authority ":" in
  if all_bytes host_byte name && all_bytes is_digit port then Some authority
  else None.

Definition parse_reference (u : string) : option URL :=
  if negb (all_bytes (fun c => negb (is_ctl c)) u) then None
  else if String.eqb u "*"
  then Some (mkURL EmptyString EmptyString "*" EmptyString EmptyString)
  else
    match getScheme u true with
    | MissingScheme => None
    | scan =>
        let '(scheme, rest0) :=
          match scan with
          | Found scheme rest => (ascii_ToLower scheme, rest)
          | _ => (EmptyString, u)
          end in
        let '(rest, query, _) := Cut rest0 "?" in
        if negb (String.prefix "/" rest) && negb (String.eqb scheme EmptyString) then
          Some (mkURL scheme EmptyString EmptyString query EmptyString) (* opaque *)
        else if negb (String.prefix "/" rest)
                && Contains (fst (fst (Cut rest "/"))) ":" then None
        else
          let with_authority :=
            (negb (String.eqb scheme EmptyString) || negb (String.prefix "///" rest))
            && String.prefix "//" rest in
          let '(authority, path) :=
            if with_authority then
              let after := String.substring 2 (String.length rest - 2) rest in
              let '(a, p, found) := Cut after "/" in
              (a, if found then String "/" p else EmptyString)
            else (EmptyString, rest) in
          match parse_authority authority, unescape path with
          | Some host, Some p => Some (mkURL scheme host p query EmptyString)
          | _, _ => None
          end
    end.

Definition parse_href (rawURL : string) : option URL :=
  let '(u, frag, _) := Cut rawURL "#" in
  match parse_reference u, unescape frag with
  | Some url, Some f =>
      Some (mkURL (Scheme url) (Host url) (Path url) (RawQuery url) f)
  | _, _ => None
  end.

Definition ascii_EqualFold (s t : string) : bool :=
  String.eqb (ascii_ToLower s) (ascii_ToLower t).

(** What the links of the examples parse to. *)
Definition search_page : URL :=
  mkURL "https" "www.linkedin.com" "/jobs/search/" EmptyString EmptyString.

Definition collections_page : URL :=
  mkURL EmptyString EmptyString "/jobs/collections" "discover=true" EmptyString.

Definition posting_absolute : URL :=
  mkURL "https" "www.linkedin.com" "/jobs/view/3847562910/" "refId=abc" "top".

Definition posting_relative : URL :=
  mkURL EmptyString EmptyString "/jobs/view/3847562910/" EmptyString EmptyString.

(** The library on ASCII strings. *)
Definition ascii_lib : GoLib :=
  mkGoLib parse_href ascii_ToLower ascii_TrimSpace ascii_EqualFold ascii_Fields.

(** *** A scripted page

    The wizard lives in one iframe and moves through stages; [shows n] lists
    the selectors the iframe has at stage [n].  A confirm key on a focused
    advance, review or submit button moves to the next stage, and so does
    typing into a required field, which is labelled by its aria-label.  The result feed has one card per entry of
    [hrefs], each with one posting link; [easy] tells whether a posting page
    has the entry button of the wizard. *)

Inductive node : Type :=
| Iframe
| Button (sel : string)
| Modal
| Root
| Input (label : string)
| JobList
| Card (href : string)
| Link (href : string)
| EasyApply.

Record page_state : Type := mkPage {
  stage : nat;
  focus : option string;
  typed : list (string * string);
  ticks : nat
}.

Definition start_page : page_state := mkPage 0 None [] 0.

Definition shown (sels : list string) (sel : string) : bool :=
  existsb (String.eqb sel) sels.

Definition is_step_button (sel : string) : bool :=
  String.eqb sel nextSel || String.eqb sel reviewSel || String.eqb sel submitSel.

Definition scripted_env (shows : nat -> list string) (inputs : nat -> list string)
    (hrefs : list string) (easy : bool) : Env page_state node unit :=
  {| page_WaitLoad := fun w => w;
     page_Navigate := fun _ w => mkPage 0 None (typed w) (ticks w);
     page_Element := fun _ sel w =>
       if String.eqb sel ".scaffold-layout__list" then (Some JobList, w)
       else (None, w);
     page_ElementX := fun _ _ w => (None, w);
     page_Elements := fun sel w =>
       if String.eqb sel "iframe" then ([Iframe], w) else ([], w);
     page_ElementsX := fun sel w =>
       if String.eqb sel "//div[@data-job-id]" then (map Card hrefs, w)
       else if String.eqb sel easyApplyXPath && easy then ([EasyApply], w)
       else ([], w);
     page_HTML := fun w => (Some "<html></html>", w);
     mouse_Scroll := fun _ _ _ w => (None, w);
     iframe_Frame := fun _ w => (tt, w);
     frame_Has := fun _ sel w =>
       if shown (shows (stage w)) sel then (Some (Button sel), w) else (None, w);
     frame_HasX := fun _ _ w => (None, w);
     frame_Element := fun _ sel w =>
       if String.eqb sel ".jobs-easy-apply-modal" then (Some Modal, w)
       else (None, w);
     frame_PressEnter := fun _ w =>
       match focus w with
       | Some sel =>
           if shown (shows (stage w)) sel && is_step_button sel
           then (None, mkPage (S (stage w)) None (typed w) (ticks w))
           else (None, w)
       | None => (None, w)
       end;
     el_ScrollIntoView := fun _ w => w;
     el_Focus := fun el w =>
       match el with
       | Button sel => mkPage (stage w) (Some sel) (typed w) (ticks w)
       | _ => w
       end;
     el_Hover := fun _ w => (None, w);
     el_Click := fun _ w => w;
     el_ShadowRoot := fun el w =>
       match el with
       | Modal => (Some Root, w)
       | _ => (None, w)
       end;
     el_ElementsX := fun el sel w =>
       match el with
       | Root =>
           if String.eqb sel textInputXPath
           then (map Input (inputs (stage w)), w) else ([], w)
       | Card href => ([Link href], w)
       | _ => ([], w)
       end;
     el_Element := fun _ _ _ w => (None, w);
     el_Text := fun _ w => (EmptyString, w);
     el_SelectAllText := fun _ w => (None, w);
     el_EvalClear := fun _ w => w;
     el_EvalGroupText := fun _ w => (None, w);
     el_Attribute := fun el name w =>
       match el with
       | Input label =>
           if String.eqb name "aria-required" then (Some "true", w)
           else if String.eqb name "type" then (Some "text", w)
           else if String.eqb name "aria-label" then (Some label, w)
           else (None, w)
       | Link href =>
           if String.eqb name "href" then (Some href, w) else (None, w)
       | _ => (None, w)
       end;
     el_Input := fun el value w =>
       match el with
       | Input label =>
           (None, mkPage (S (stage w)) (focus w)
                    (typed w ++ [(label, value)]) (ticks w))
       | _ => (Some "not an input", w)
       end;
     goquery_parse := fun _ => true;
     time_Sleep := fun w => mkPage (stage w) (focus w) (typed w) (S (ticks w));
     rand_Int := fun w => (Z.of_nat (ticks w), w);
     set_applying := fun _ w => w |}.

(** The three-step wizard: advance, then review, then submit. *)
Definition three_steps (n : nat) : list string :=
  match n with
  | O => [nextSel]
  | S O => [reviewSel]
  | S (S O) => [submitSel; followLabelSel]
  | _ => []
  end.

(** A wizard whose every step only offers to advance. *)
Definition endless_steps (n : nat) : list string := [nextSel].

(** A wizard whose first step shows an inline error on a required field and
    then continues as the three-step wizard. *)
Definition steps_after_error (n : nat) : list string :=
  match n with
  | O => [errorMessageSel; nextSel]
  | S n' => three_steps n'
  end.

(** A wizard whose every step shows an inline error and offers to
    advance. *)
Definition error_steps (n : nat) : list string := [errorMessageSel; nextSel].

(** The scripted page with a modal that is not a shadow host: no element has
    a shadow root. *)
Definition rootless_env (shows : nat -> list string) : Env page_state node unit :=
  let base := scripted_env shows (fun _ => []) [] false in
  {| page_WaitLoad := page_WaitLoad base;
     page_Navigate := page_Navigate base;
     page_Element := page_Element base;
     page_ElementX := page_ElementX base;
     page_Elements := page_Elements base;
     page_ElementsX := page_ElementsX base;
     page_HTML := page_HTML base;
     mouse_Scroll := mouse_Scroll base;
     iframe_Frame := iframe_Frame base;
     frame_Has := frame_Has base;
     frame_HasX := frame_HasX base;
     frame_Element := frame_Element base;
     frame_PressEnter := frame_PressEnter base;
     el_ScrollIntoView := el_ScrollIntoView base;
     el_Focus := el_Focus base;
     el_Hover := el_Hover base;
     el_Click := el_Click base;
     el_ShadowRoot := fun _ w => (None, w);
     el_Element := el_Element base;
     el_ElementsX := el_ElementsX base;
     el_Attribute := el_Attribute base;
     el_Text := el_Text base;
     el_SelectAllText := el_SelectAllText base;
     el_Input := el_Input base;
     el_EvalClear := el_EvalClear base;
     el_EvalGroupText := el_EvalGroupText base;
     goquery_parse := goquery_parse base;
     time_Sleep := time_Sleep base;
     rand_Int := rand_Int base;
     set_applying := set_applying base |}.

Definition no_inputs (n : nat) : list string := [].

Definition one_input (n : nat) : list string :=
  match n with
  | O => ["Years of relevant experience"]
  | _ => []
  end.

Definition sample_profile : LinkedInProfile :=
  mkProfile 1 "ada@example.org" "secret" "555-0100" ["engineer"] ["Austin"]
    false "https://www.linkedin.com/in/ada" 4 "Austin" "TX" "78701" 90000.

(** A fresh profile, as [CreateLinkedInProfile] leaves it: only the
    credentials are set. *)
Definition blank_profile : LinkedInProfile :=
  mkProfile 2 "bob@example.org" "secret" EmptyString [] [] false EmptyString 0
    EmptyString EmptyString EmptyString 0.

(** A fallback that answers with surrounding blanks, and one that answers
    Blue. *)
Definition padded_yes : fallback unit :=
  fun _ _ w => ((" yes ", None), w).

Definition answers_blue : fallback unit :=
  fun _ _ w => (("Blue", None), w).

End Sample.

(** ** What the properties are stated with *)

Module Spec.
Import GoStrings Browser.
Local Open Scope list_scope.

(** *** Reading a run *)

Definition is_iter (e : event) : bool :=
  match e with EvIter _ => true | _ => false end.

Definition is_click (e : event) : bool :=
  match e with EvClick _ _ => true | _ => false end.

Definition is_search (e : event) : bool :=
  match e with EvSearch _ _ _ => true | _ => false end.

(** The events that only observe the page or log a field. *)
Definition passive (e : event) : bool :=
  match e with
  | EvIsPresent _ _ | EvFilled _ _ | EvFillFailed _ => true
  | _ => false
  end.

(** The events of the wizard, as opposed to those of the campaign. *)
Definition wizard_event (e : event) : bool :=
  match e with
  | EvSearch _ _ _ | EvJobPage _ => false
  | _ => true
  end.

(** The number of outer iterations a run of the wizard loop began. *)
Definition iterations (tr : list event) : nat :=
  List.length (filter is_iter tr).

(** The buttons whose action a run confirmed (the action returned nil), in
    order. *)
Definition confirmed (tr : list event) : list locator :=
  flat_map (fun e => match e with EvClick loc None => [loc] | _ => [] end) tr.

(** A stretch of a run within one iteration that confirms the buttons of
    [tail], then at most the follow toggle, then the submit button, on
    which it ends. *)
Definition submitted_run (tail : list locator) (e : list event) : Prop :=
  iterations e = 0%nat
  /\ (confirmed e = tail ++ [submitLoc]
      \/ confirmed e = tail ++ [followLoc; submitLoc])
  /\ exists pre, e = pre ++ [EvClick submitLoc None].

(** The last event of a run. *)
Fixpoint last_event (tr : list event) : option event :=
  match tr with
  | [] => None
  | e :: tr' =>
      match last_event tr' with
      | Some e' => Some e'
      | None => Some e
      end
  end.

(** The result offsets of the discovery calls of a run, in order. *)
Definition search_offsets (tr : list event) : list Z :=
  flat_map (fun e => match e with EvSearch _ _ start => [start] | _ => [] end) tr.

(** An event that is not a discovery call at an offset other than 0. *)
Definition at_offset_0 (e : event) : Prop :=
  match e with
  | EvSearch _ _ start => start = 0
  | _ => True
  end.

Fixpoint strictly_increasing (l : list Z) : Prop :=
  match l with
  | a :: ((b :: _) as tl) => a < b /\ strictly_increasing tl
  | _ => True
  end.

(** Every outer iteration opens with the error-handling pass. *)
Definition handled_first (tr : list event) : Prop :=
  forall l1 i l2, tr = l1 ++ EvIter i :: l2 ->
    exists l2', l2 = EvHandleInlineErrors :: l2'.

(** Every action attempt comes, within its own outer iteration, after a run
    of the error-handling pass. *)
Definition handled_before_click (tr : list event) : Prop :=
  forall l1 loc err l2, tr = l1 ++ EvClick loc err :: l2 ->
    exists a i b,
      l1 = a ++ EvIter i :: EvHandleInlineErrors :: b
      /\ Forall (fun e => is_iter e = false) b.

(** Every action attempt comes right after a check that found no inline
    error marker. *)
Definition clicks_guarded (tr : list event) : Prop :=
  forall l1 loc err l2, tr = l1 ++ EvClick loc err :: l2 ->
    exists l1', l1 = l1' ++ [EvIsPresent errorLoc false].

(** The same as a scan of the run: [armed] tells whether the last event was
    such a check. *)
Fixpoint guarded (armed : bool) (tr : list event) : bool :=
  match tr with
  | [] => true
  | EvClick _ _ :: tr' => armed && guarded false tr'
  | EvIsPresent loc false :: tr' => guarded (locator_eqb loc errorLoc) tr'
  | _ :: tr' => guarded false tr'
  end.

(** The runs of an outer loop: blocks that open with an iteration mark and
    the error-handling pass and hold no other iteration mark. *)
Inductive iter_blocks : list event -> Prop :=
| blocks_nil : iter_blocks []
| blocks_cons (i : Z) (body rest : list event) :
    Forall (fun e => is_iter e = false) body ->
    iter_blocks rest ->
    iter_blocks (EvIter i :: EvHandleInlineErrors :: body ++ rest).

(** What a run of the inner loop looks like, and a run of at most [n]
    outer iterations. *)
Definition inner_trace (tr : list event) : Prop :=
  guarded false tr = true
  /\ Forall (fun e => is_iter e = false) tr
  /\ Forall (fun e => wizard_event e = true) tr.

Definition outer_trace (n : nat) (tr : list event) : Prop :=
  iter_blocks tr
  /\ guarded false tr = true
  /\ Forall (fun e => wizard_event e = true) tr
  /\ (iterations tr <= n)%nat.

Section Computations.
Variable W : Type.

(** [post m w Q]: started in [w], the computation [m] returns, and its
    result, final world and events satisfy [Q]. *)
Definition post {A : Type} (m : M W A) (w : W)
    (Q : A -> W -> list event -> Prop) : Prop :=
  match out (m w) with
  | Ret a => Q a (world (m w)) (events (m w))
  | Panic => False
  end.

(** [emits P m]: whether it returns or panics, [m] only produces events that
    satisfy [P]. *)
Definition emits {A : Type} (P : event -> Prop) (m : M W A) : Prop :=
  forall w, Forall P (events (m w)).

(** [may m w Q]: started in [w], the computation [m] panics, or returns with
    a result, final world and events that satisfy [Q]. *)
Definition may {A : Type} (m : M W A) (w : W)
    (Q : A -> W -> list event -> Prop) : Prop :=
  match out (m w) with
  | Ret a => Q a (world (m w)) (events (m w))
  | Panic => True
  end.

(** [ends m w R]: started in [w], the computation [m] ends with an outcome,
    in a world and with events that satisfy [R]. *)
Definition ends {A : Type} (m : M W A) (w : W)
    (R : outcome A -> W -> list event -> Prop) : Prop :=
  R (out (m w)) (world (m w)) (events (m w)).

(** A fallback that is a pure function of the label and the input type. *)
Definition pure_fallback (fb : option (fallback W)) : Prop :=
  match fb with
  | None => True
  | Some g =>
      exists f : string -> string -> string * option error,
        forall labelText inputType w,
          g labelText inputType w = (f labelText inputType, w)
  end.

End Computations.
Arguments post {W A} m w Q.
Arguments emits {W A} P m.
Arguments may {W A} m w Q.
Arguments ends {W A} m w R.

(** The host of the modal, found in some frame, has no shadow root when it
    is asked for it right after. *)
Definition lacks_shadow_root {W Elem Frame : Type} (env : Env W Elem Frame)
    : Prop :=
  exists (f : Frame) (w : W) (h : Elem),
    fst (frame_Element env f ".jobs-easy-apply-modal" w) = Some h
    /\ fst (el_ShadowRoot env h
              (snd (frame_Element env f ".jobs-easy-apply-modal" w))) = None.
Arguments pure_fallback {W} fb.

(** *** The resolver as the specification words it

    Rules 1 to 7 are cues on the label, matched without regard to case: the
    keywords are lower case and are looked for in the label as the resolver
    normalises it. *)
Inductive cue : Type :=
| AnyOf (kws : list string)   (* contains any of the keywords *)
| AllOf (kws : list string).  (* contains every keyword *)

Definition cue_matches (l : string) (c : cue) : bool :=
  match c with
  | AnyOf kws => existsb (Contains l) kws
  | AllOf kws => forallb (Contains l) kws
  end.

Definition label_rules : list (cue * (LinkedInProfile -> string)) :=
  [ (AnyOf ["phone"; "mobile"; "telephone"; "contact"], PhoneNumber);
    (AnyOf ["city"; "location"; "reside"],
       fun p => (UserCity p ++ ", " ++ UserState p)%string);
    (AnyOf ["have you ever worked"], fun _ => "No");
    (AnyOf ["state"], UserState);
    (AnyOf ["salary"; "wage"; "income"; "compensation"],
       fun p => Itoa (DesiredSalary p));
    (AllOf ["experience"; "year"], fun p => Itoa (YearsExperience p));
    (AnyOf ["linkedin"; "linked-in"; "linked in"], ProfileURL) ].

Definition normalised (lib : GoLib) (s : string) : string :=
  strings_ToLower lib (strings_TrimSpace lib s).

(** The number, from [n] on, of the first rule whose cue the label meets. *)
Fixpoint first_matching (l : string)
    (rules : list (cue * (LinkedInProfile -> string))) (n : nat) : option nat :=
  match rules with
  | [] => None
  | r :: rules' =>
      if cue_matches l (fst r) then Some n else first_matching l rules' (S n)
  end.

(** The rule among 1 to 7 that answers for a label, if any. *)
Definition rule_number (lib : GoLib) (labelText : string) : option nat :=
  first_matching (normalised lib labelText) label_rules 1.

(** First match wins. *)
Definition first_rule (lib : GoLib) (labelText : string)
    : option (cue * (LinkedInProfile -> string)) :=
  find (fun r => cue_matches (normalised lib labelText) (fst r)) label_rules.

(** Rules 8 to 10 to the letter: the input type is compared with the word
    number as it is given, and a fallback answer is used as it is returned
    when it comes without error and is not the empty string. *)
Definition resolve_spec {W : Type} (lib : GoLib) (labelText inputType : string)
    (p : LinkedInProfile) (fb : option (fallback W)) (w : W) : string * W :=
  match first_rule lib labelText with
  | Some r => (snd r p, w)
  | None =>
      if String.eqb inputType "number" then (Itoa (YearsExperience p), w)
      else
        match fb with
        | None => (Itoa (YearsExperience p), w)
        | Some f =>
            match f labelText inputType w with
            | (ans, None, w') =>
                if String.eqb ans EmptyString then (Itoa (YearsExperience p), w')
                else (ans, w')
            | (_, Some _, w') => (Itoa (YearsExperience p), w')
            end
        end
  end.

(** Rules 8 to 10 as amended: the input type is compared after trimming and
    lower-casing, and a fallback answer is trimmed, and used when it comes
    without error and is not empty once trimmed. *)
Definition resolve_amended {W : Type} (lib : GoLib) (labelText inputType : string)
    (p : LinkedInProfile) (fb : option (fallback W)) (w : W) : string * W :=
  match first_rule lib labelText with
  | Some r => (snd r p, w)
  | None =>
      if String.eqb (normalised lib inputType) "number"
      then (Itoa (YearsExperience p), w)
      else
        match fb with
        | None => (Itoa (YearsExperience p), w)
        | Some f =>
            match f labelText inputType w with
            | (ans, None, w') =>
                if String.eqb (strings_TrimSpace lib ans) EmptyString
                then (Itoa (YearsExperience p), w')
                else (strings_TrimSpace lib ans, w')
            | (_, Some _, w') => (Itoa (YearsExperience p), w')
            end
        end
  end.

End Spec.

(** ** More ways to read a run *)

Module Traces.
Import GoStrings Browser Spec.
Local Open Scope list_scope.

(** The number of action attempts of a run. *)
Definition clicks (tr : list event) : nat :=
  List.length (filter is_click tr).

(** The postings a run opened, in order. *)
Definition job_pages (tr : list event) : list Z :=
  flat_map (fun e => match e with EvJobPage jobID => [jobID] | _ => [] end) tr.

(** A confirmed advance: the action on the advance button returned nil. *)
Definition is_advance (e : event) : bool :=
  match e with
  | EvClick loc None => locator_eqb loc nextLoc
  | _ => false
  end.

(** No stretch of a run between two iteration marks holds more than [k]
    action attempts, as a scan: [c] counts the attempts since the last
    mark. *)
Fixpoint budget_scan (k c : nat) (tr : list event) : bool :=
  match tr with
  | [] => (c <=? k)%nat
  | e :: tr' =>
      if is_iter e then (c <=? k)%nat && budget_scan k 0 tr'
      else budget_scan k (if is_click e then S c else c) tr'
  end.

(** After a confirmed advance nothing happens before the next outer
    iteration, as a scan: [pending] tells whether the last event was a
    confirmed advance. *)
Fixpoint advance_scan (pending : bool) (tr : list event) : bool :=
  match tr with
  | [] => true
  | e :: tr' =>
      (if pending then is_iter e else true) && advance_scan (is_advance e) tr'
  end.

(** The values a run typed: a field was filled with what [ChooseValue] gives,
    without fallback, for its label and some input type. *)
Definition typed_as_resolved {W : Type} (lib : GoLib) (profile : LinkedInProfile)
    (e : event) : Prop :=
  match e with
  | EvFilled labelText value =>
      exists inputType : string, forall w : W,
        value = fst (ChooseValue lib labelText inputType profile None w)
  | _ => True
  end.

(** The strings [ChooseValue] can answer with when it has no fallback. *)
Definition profile_answers (p : LinkedInProfile) : list string :=
  [ PhoneNumber p;
    (UserCity p ++ ", " ++ UserState p)%string;
    "No"%string;
    UserState p;
    Itoa (DesiredSalary p);
    Itoa (YearsExperience p);
    ProfileURL p ].

(** A logged fill whose value is one of them. *)
Definition typed_from_profile (p : LinkedInProfile) (e : event) : Prop :=
  match e with
  | EvFilled _ value => In value (profile_answers p)
  | _ => True
  end.

(** Whether the last event of [tr] is a confirmed advance, [p] for a run
    without events. *)
Definition pending (p : bool) (tr : list event) : bool :=
  match last_event tr with
  | Some e => is_advance e
  | None => p
  end.

(** Does the run end with a confirmed action on the submit button. *)
Definition ends_with_submit (tr : list event) : bool :=
  match last_event tr with
  | Some (EvClick loc None) => locator_eqb loc submitLoc
  | _ => false
  end.

(** The decoder of [cssEscape]: a backslash before a double quote is
    dropped. *)
Fixpoint cssUnescape (s : string) : string :=
  match s with
  | EmptyString => EmptyString
  | String a s' =>
      match s' with
      | String b s'' =>
          if Ascii.eqb a (ascii_of_N 92) && Ascii.eqb b dquote_byte
          then String b (cssUnescape s'')
          else String a (cssUnescape s')
      | EmptyString => String a EmptyString
      end
  end.

(** Every double quote of [s] comes right after a backslash; [escaped] tells
    whether the byte before [s] was one. *)
Fixpoint quotes_escaped (escaped : bool) (s : string) : bool :=
  match s with
  | EmptyString => true
  | String a s' =>
      (if Ascii.eqb a dquote_byte then escaped else true)
      && quotes_escaped (Ascii.eqb a (ascii_of_N 92)) s'
  end.

(** *** The runs of the wizard loop

    What [FillOutEasyApplyForm] can leave as events, read off its loops.  An
    error-handling pass is its entry followed by looks at the page and log
    lines of fields filled with resolved values, whether it returns or
    panics.  A pass over the buttons from index [j] on, entered with [s],
    returns [s'] or panics: it treats each button in turn, which is absent,
    or an inline error shows, or the action fails, or the action succeeds,
    which leaves the pass at index 3 with submitted set, leaves it at index
    0, and goes on elsewhere.  The error-handling pass that follows a button
    may panic: the pass over the buttons is then cut, with nothing after
    that error-handling pass. *)
Section Wizard_runs.
Variable W : Type.
Variable lib : GoLib.
Variable profile : LinkedInProfile.

Definition fill_ok (e : event) : Prop :=
  passive e = true /\ typed_as_resolved (W:=W) lib profile e.

Inductive handle_trace : list event -> Prop :=
| handle_intro (h : list event) :
    Forall fill_ok h -> handle_trace (EvHandleInlineErrors :: h).

Inductive pass_trace
    : Z -> list locator -> bool -> outcome bool -> list event -> Prop :=
| pass_done (j : Z) (s : bool) : pass_trace j [] s (Ret s) []
| pass_cut (j : Z) (bs : list locator) (s : bool) : pass_trace j bs s Panic []
| pass_absent (j : Z) (loc : locator) (rest : list locator) (s : bool)
    (o : outcome bool) (h tl : list event) :
    handle_trace h -> pass_trace (j + 1) rest s o tl ->
    pass_trace j (loc :: rest) s o (EvIsPresent loc false :: h ++ tl)
| pass_blocked (j : Z) (loc : locator) (rest : list locator) (s : bool)
    (o : outcome bool) (h tl : list event) :
    handle_trace h -> pass_trace (j + 1) rest s o tl ->
    pass_trace j (loc :: rest) s o
      (EvIsPresent loc true :: EvIsPresent errorLoc true :: h ++ tl)
| pass_failed (j : Z) (loc : locator) (rest : list locator) (s : bool)
    (o : outcome bool) (msg : error) (h tl : list event) :
    handle_trace h -> pass_trace (j + 1) rest s o tl ->
    pass_trace j (loc :: rest) s o
      (EvIsPresent loc true :: EvIsPresent errorLoc false
         :: EvClick loc (Some msg) :: h ++ tl)
| pass_submit (loc : locator) (rest : list locator) (s : bool) :
    pass_trace 3 (loc :: rest) s (Ret true)
      [EvIsPresent loc true; EvIsPresent errorLoc false; EvClick loc None]
| pass_advance (loc : locator) (rest : list locator) (s : bool) :
    pass_trace 0 (loc :: rest) s (Ret s)
      [EvIsPresent loc true; EvIsPresent errorLoc false; EvClick loc None]
| pass_other (j : Z) (loc : locator) (rest : list locator) (s : bool)
    (o : outcome bool) (h tl : list event) :
    j <> 3 -> j <> 0 ->
    handle_trace h -> pass_trace (j + 1) rest s o tl ->
    pass_trace j (loc :: rest) s o
      (EvIsPresent loc true :: EvIsPresent errorLoc false
         :: EvClick loc None :: h ++ tl).

(** The pass is at index [j] of [buttons] with [bs] still to treat. *)
Definition at_index (j : Z) (bs : list locator) : Prop :=
  0 <= j /\ bs = skipn (Z.to_nat j) buttons.

(** A run of the outer loop with [left] iterations to go; an iteration whose
    error-handling pass or pass over the buttons panics is the last. *)
Inductive run_trace : nat -> bool -> outcome bool -> list event -> Prop :=
| run_out (s : bool) : run_trace 0 s (Ret s) []
| run_submitted (left : nat) : run_trace (S left) true (Ret true) []
| run_iter (left : nat) (s' : bool) (o : outcome bool) (h body tl : list event) :
    handle_trace h ->
    pass_trace 0 buttons false (Ret s') body ->
    run_trace left s' o tl ->
    run_trace (S left) false o
      (EvIter (15 - Z.of_nat (S left)) :: h ++ body ++ tl)
| run_cut (left : nat) (h body : list event) :
    handle_trace h ->
    pass_trace 0 buttons false Panic body ->
    run_trace (S left) false Panic
      (EvIter (15 - Z.of_nat (S left)) :: h ++ body).

End Wizard_runs.

End Traces.


(** ** A page that keeps its buttons in the main document *)
Module MainDocument.
Import GoStrings Browser Sample.
Local Open Scope list_scope.

(** The scripted page without its iframe: the selectors of [present] are
    found in the main document, wherever the wizard stands. *)
Definition main_document_env (present : list string)
    : Env page_state node unit :=
  let base := scripted_env endless_steps no_inputs [] false in
  {| page_WaitLoad := page_WaitLoad base;
     page_Navigate := page_Navigate base;
     page_Element := fun _ sel w =>
       if shown present sel then (Some (Button sel), w) else (None, w);
     page_ElementX := page_ElementX base;
     page_Elements := fun _ w => ([], w);
     page_ElementsX := page_ElementsX base;
     page_HTML := page_HTML base;
     mouse_Scroll := mouse_Scroll base;
     iframe_Frame := iframe_Frame base;
     frame_Has := frame_Has base;
     frame_HasX := frame_HasX base;
     frame_Element := frame_Element base;
     frame_PressEnter := frame_PressEnter base;
     el_ScrollIntoView := el_ScrollIntoView base;
     el_Focus := el_Focus base;
     el_Hover := el_Hover base;
     el_Click := el_Click base;
     el_ShadowRoot := el_ShadowRoot base;
     el_Element := el_Element base;
     el_ElementsX := el_ElementsX base;
     el_Attribute := el_Attribute base;
     el_Text := el_Text base;
     el_SelectAllText := el_SelectAllText base;
     el_Input := el_Input base;
     el_EvalClear := el_EvalClear base;
     el_EvalGroupText := el_EvalGroupText base;
     goquery_parse := goquery_parse base;
     time_Sleep := time_Sleep base;
     rand_Int := rand_Int base;
     set_applying := set_applying base |}.

(** Nothing was focused, typed or confirmed on the page. *)
Definition untouched (w : page_state) : Prop :=
  stage w = 0%nat /\ focus w = None /\ typed w = [].

End MainDocument.

(** ** The profile store

    The package [store] keeps the profiles in one SQLite table and reaches it
    through four statements.  The table is modelled as the list of its rows
    in rowid order together with the sequence of AUTOINCREMENT, and each
    statement by what it does to that list; the database is taken to be
    healthy, so that a statement fails only where SQL says so (a query
    without a row).  [encoding/json] is a library the package is stated
    over.  [CURRENT_TIMESTAMP] is given by the caller as [now]. *)
Module Store.
Import GoStrings Browser.
Local Open Scope list_scope.

Record JSONLib : Type := mkJSONLib {
  json_Marshal : list string -> string;
  json_Unmarshal : string -> option (list string)
}.

(** A row of [linkedin_profiles], by the columns of the migrations. *)
Record row : Type := mkRow {
  rowid : Z;               (* id INTEGER PRIMARY KEY AUTOINCREMENT *)
  email : string;
  password : string;
  created_at : Z;
  updated_at : Z;
  phone_number : string;   (* DEFAULT '' *)
  positions : string;      (* DEFAULT '[]' *)
  locations : string;      (* DEFAULT '[]' *)
  remote_only : Z;         (* DEFAULT 0 *)
  profile_url : string;    (* DEFAULT '' *)
  years_experience : Z;    (* DEFAULT 0 *)
  user_city : string;      (* DEFAULT '' *)
  user_state : string      (* DEFAULT '' *)
}.

Record Store : Type := mkStore {
  linkedin_profiles : list row;
  sqlite_sequence : Z      (* the largest rowid AUTOINCREMENT has given *)
}.

(** The table after the migrations on a new database. *)
Definition migrated : Store := mkStore [] 0.

(** [store.LinkedInProfile] with its two time stamps. *)
Record Stored : Type := mkStored {
  profile : LinkedInProfile;
  CreatedAt : Z;
  UpdatedAt : Z
}.

Module LinkedInProfileUpdate.
Record t : Type := mk {
  Email : string;
  Password : string;
  PhoneNumber : string;
  Positions : list string;
  Locations : list string;
  RemoteOnly : bool;
  ProfileURL : string;
  YearsExperience : Z;
  UserCity : string;
  UserState : string
}.
End LinkedInProfileUpdate.

Section Statements.
Variable json : JSONLib.

(** The [Scan] of a row and the parsing that follows it in
    [GetLinkedInProfile]: the thirteen selected columns fill their fields,
    the two fields without a column keep the zero value. *)
Definition scan (r : row) : Stored :=
  mkStored
    (mkProfile (rowid r) (email r) (password r) (phone_number r)
       (match json_Unmarshal json (positions r) with
        | Some l => l
        | None => []
        end)
       (match json_Unmarshal json (locations r) with
        | Some l => l
        | None => []
        end)
       (remote_only r =? 1)
       (profile_url r) (years_experience r) (user_city r) (user_state r)
       EmptyString 0)
    (created_at r) (updated_at r).

Definition GetLinkedInProfile (s : Store) (id : Z) : Stored + error :=
  match find (fun r => rowid r =? id) (linkedin_profiles s) with
  | Some r => inl (scan r)
  | None => inr "failed to get LinkedIn profile: sql: no rows in result set"%string
  end.

(** The rowid AUTOINCREMENT gives next: one more than the largest that has
    ever been in the table. *)
Definition max_rowid (rows : list row) : Z :=
  fold_right (fun r m => Z.max (rowid r) m) 0 rows.

Definition next_rowid (s : Store) : Z :=
  Z.max (sqlite_sequence s) (max_rowid (linkedin_profiles s)) + 1.

Definition CreateLinkedInProfile (s : Store) (email password : string) (now : Z)
    : (Stored + error) * Store :=
  let id := next_rowid s in
  let r := mkRow id email password now now EmptyString "[]" "[]" 0
             EmptyString 0 EmptyString EmptyString in
  let s' := mkStore (linkedin_profiles s ++ [r]) id in
  (GetLinkedInProfile s' id, s').

Definition update_row (update : LinkedInProfileUpdate.t) (now : Z) (r : row)
    : row :=
  mkRow (rowid r)
    (LinkedInProfileUpdate.Email update)
    (LinkedInProfileUpdate.Password update)
    (created_at r) now
    (LinkedInProfileUpdate.PhoneNumber update)
    (json_Marshal json (LinkedInProfileUpdate.Positions update))
    (json_Marshal json (LinkedInProfileUpdate.Locations update))
    (if LinkedInProfileUpdate.RemoteOnly update then 1 else 0)
    (LinkedInProfileUpdate.ProfileURL update)
    (LinkedInProfileUpdate.YearsExperience update)
    (LinkedInProfileUpdate.UserCity update)
    (LinkedInProfileUpdate.UserState update).

Definition UpdateLinkedInProfile (s : Store) (id : Z)
    (update : LinkedInProfileUpdate.t) (now : Z) : (Stored + error) * Store :=
  let s' := mkStore
              (map (fun r => if rowid r =? id then update_row update now r else r)
                 (linkedin_profiles s))
              (sqlite_sequence s) in
  (GetLinkedInProfile s' id, s').

Definition DeleteLinkedInProfile (s : Store) (id : Z) : option error * Store :=
  let affected :=
    List.length (filter (fun r => rowid r =? id) (linkedin_profiles s)) in
  let s' := mkStore (filter (fun r => negb (rowid r =? id)) (linkedin_profiles s))
              (sqlite_sequence s) in
  if Nat.eqb affected 0
  then (Some ("LinkedIn profile not found: " ++ Itoa id)%string, s')
  else (None, s').

End Statements.

(** The primary key: no two rows share a rowid. *)
Definition keyed (s : Store) : Prop :=
  NoDup (map rowid (linkedin_profiles s)).

End Store.

(** ** The life cycle of the browser

    [BrowserManager] and the methods that start, stop and log in.  The
    manager is a record; a method runs in the world made of the manager and
    of the machine and browser session [P], as a computation of the package.
    What the methods ask of the operating system, of the launcher and of the
    browser-control library is the capability [Machine].  The mutex is not
    modelled: the methods are called one after the other. *)
Module Lifecycle.
Import GoStrings Browser.
Local Open Scope string_scope.
Local Open Scope list_scope.

Record Config : Type := mkConfig {
  Headless : bool;
  Config_IsApplying : bool; (* the field IsApplying *)
  BrowserBin : string;
  UserData : string
}.

Record BrowserManager : Type := mkBrowserManager {
  cfg : Config;
  browser : option string;           (* [*rod.Browser], by its control URL *)
  launcher : option (option string); (* [*launcher.Launcher], by its binary *)
  controlURL : string;
  ctx : list (string * bool);        (* the values of the context, newest first *)
  cancelled : bool                   (* [cancel] was called *)
}.

Definition NewBrowserManager (c : option Config) : BrowserManager :=
  mkBrowserManager
    (match c with
     | Some c' => c'
     | None => mkConfig false false EmptyString EmptyString
     end)
    None None EmptyString [] false.

Definition set_browser (b : option string) (bm : BrowserManager)
    : BrowserManager :=
  mkBrowserManager (cfg bm) b (launcher bm) (controlURL bm) (ctx bm)
    (cancelled bm).

Definition set_launcher (url : string) (l : option string) (bm : BrowserManager)
    : BrowserManager :=
  mkBrowserManager (cfg bm) (browser bm) (Some l) url (ctx bm) (cancelled bm).

Definition cancel (bm : BrowserManager) : BrowserManager :=
  mkBrowserManager (cfg bm) (browser bm) (launcher bm) (controlURL bm) (ctx bm)
    true.

(** [ctx.Value(key)]: the newest value stored under the key. *)
Fixpoint ctx_Value (values : list (string * bool)) (key : string) : option bool :=
  match values with
  | [] => None
  | (k, v) :: rest => if String.eqb k key then Some v else ctx_Value rest key
  end.

Definition IsRunning (bm : BrowserManager) : bool :=
  match browser bm with
  | Some _ => true
  | None => false
  end.

Definition IsApplying (bm : BrowserManager) : bool :=
  match ctx_Value (ctx bm) "IsApplying" with
  | Some v => v
  | None => false
  end.

Definition SetApplying (value : bool) (bm : BrowserManager) : BrowserManager :=
  mkBrowserManager (cfg bm) (browser bm) (launcher bm) (controlURL bm)
    (("IsApplying", value) :: ctx bm) (cancelled bm).

Definition GetBrowser (bm : BrowserManager) : option string := browser bm.

(** What the methods ask of their surroundings.  [os_Stat] tells whether the
    call returns without error; [launcher_Launch] gives the control URL or an
    error for a launcher with the flags of [Launch] and the given binary;
    the calls on a browser name it by its control URL.  [browser_Close] is
    [Browser.Close] of the library, which does not always return: a browser
    that [Launch] has assigned and [Connect] has not connected has no client
    to send the command with, and closing it panics. *)
Record Machine (P Elem : Type) : Type := mkMachine {
  runtime_GOOS : string;
  runtime_GOARCH : string;
  os_Executable : P -> option string;
  os_UserHomeDir : P -> option string;
  os_Stat : string -> P -> bool;
  filepath_Dir : string -> string;
  filepath_Join : list string -> string;
  launcher_Launch : option string -> P -> (string + error) * P;
  browser_Connect : string -> P -> option error * P;
  browser_MustIgnoreCertErrors : string -> P -> P;
  browser_Close : string -> P -> outcome (option error) * P;
  browser_MustPage : string -> P -> P;
  stealth_MustPage : string -> P -> P;
  page_Navigate_err : string -> P -> option error * P; (* page.Navigate *)
  el_MustWaitInteractable : Elem -> P -> P;
  keyboard_Press : string -> P -> P;
  page_MustWaitRequestIdle : P -> P;
  app_Event_Emit : string -> P -> P
}.
Arguments runtime_GOOS {P Elem} m.
Arguments runtime_GOARCH {P Elem} m.
Arguments os_Executable {P Elem} m.
Arguments os_UserHomeDir {P Elem} m.
Arguments os_Stat {P Elem} m.
Arguments filepath_Dir {P Elem} m.
Arguments filepath_Join {P Elem} m.
Arguments launcher_Launch {P Elem} m.
Arguments browser_Connect {P Elem} m.
Arguments browser_MustIgnoreCertErrors {P Elem} m.
Arguments browser_Close {P Elem} m.
Arguments browser_MustPage {P Elem} m.
Arguments stealth_MustPage {P Elem} m.
Arguments page_Navigate_err {P Elem} m.
Arguments el_MustWaitInteractable {P Elem} m.
Arguments keyboard_Press {P Elem} m.
Arguments page_MustWaitRequestIdle {P Elem} m.
Arguments app_Event_Emit {P Elem} m.

Section Methods.
Variables P Elem Frame : Type.
Variable machine : Machine P Elem.
Variable env : Env P Elem Frame.

(** The world of a method: its receiver and the surroundings. *)
Definition World : Type := (BrowserManager * P)%type.

Local Notation "x <- m ;; k" := (bind m (fun x => k))
  (at level 61, m at next level, right associativity).
Local Notation "m ;;; k" := (bind m (fun _ => k))
  (at level 61, right associativity).

Definition this : M World BrowserManager :=
  liftW (fun w => (fst w, w)).

Definition assign (f : BrowserManager -> BrowserManager) : M World unit :=
  modW (fun w => (f (fst w), snd w)).

(** A call that may change the surroundings, one that changes them without
    a result, and one that only reads them. *)
Definition call {A : Type} (f : P -> A * P) : M World A :=
  liftW (fun w => (fst (f (snd w)), (fst w, snd (f (snd w))))).

Definition call_ (f : P -> P) : M World unit :=
  modW (fun w => (fst w, f (snd w))).

Definition read {A : Type} (f : P -> A) : M World A :=
  liftW (fun w => (f (snd w), w)).

(** A call that may panic: the panic is that of the method that makes the
    call. *)
Definition must {A : Type} (f : P -> outcome A * P) : M World A :=
  o <- call f ;;
  match o with
  | Ret a => ret a
  | Panic => panic
  end.

(** *** findBundledBrowser and findSystemBrowser *)

Definition bundled_path (exeDir : string) : string :=
  let goos := runtime_GOOS machine in
  if String.eqb goos "darwin" then
    filepath_Join machine
      [exeDir; "resources"; "chrome"; "Chromium.app"; "Contents"; "MacOS";
       "Chromium"]
  else if String.eqb goos "windows" then
    filepath_Join machine [exeDir; "resources"; "chrome"; "chrome.exe"]
  else if String.eqb goos "linux" then
    filepath_Join machine [exeDir; "resources"; "chrome"; "chrome"]
  else EmptyString.

Definition findBundledBrowser : M World string :=
  exe <- read (os_Executable machine) ;;
  match exe with
  | None => ret EmptyString
  | Some exe' =>
      let browserPath := bundled_path (filepath_Dir machine exe') in
      ok <- read (os_Stat machine browserPath) ;;
      if ok then ret browserPath else ret EmptyString
  end.

Definition system_paths : list string :=
  let goos := runtime_GOOS machine in
  if String.eqb goos "darwin" then
    [ "/Applications/Google Chrome.app/Contents/MacOS/Google Chrome";
      "/Applications/Chromium.app/Contents/MacOS/Chromium";
      "/Applications/Microsoft Edge.app/Contents/MacOS/Microsoft Edge" ]
  else if String.eqb goos "windows" then
    [ "C:\Program Files\Google\Chrome\Application\chrome.exe";
      "C:\Program Files (x86)\Google\Chrome\Application\chrome.exe";
      "C:\Program Files\Microsoft\Edge\Application\msedge.exe" ]
  else if String.eqb goos "linux" then
    [ "/usr/bin/google-chrome";
      "/usr/bin/google-chrome-stable";
      "/usr/bin/chromium";
      "/usr/bin/chromium-browser" ]
  else [].

Fixpoint first_existing (paths : list string) : M World string :=
  match paths with
  | [] => ret EmptyString
  | p :: rest =>
      ok <- read (os_Stat machine p) ;;
      if ok then ret p else first_existing rest
  end.

Definition findSystemBrowser : M World string := first_existing system_paths.

(** *** Launch, Close, Restart *)

Definition Launch : M World (option error) :=
  bm <- this ;;
  match browser bm with
  | Some _ => ret (Some "browser already running")
  | None =>
      bundledPath <- findBundledBrowser ;;
      bin <- (if negb (String.eqb bundledPath EmptyString)
              then ret (Some bundledPath)
              else
                systemPath <- findSystemBrowser ;;
                if negb (String.eqb systemPath EmptyString)
                then ret (Some systemPath)
                else ret None) ;;
      r <- call (launcher_Launch machine bin) ;;
      match r with
      | inr err => ret (Some ("failed to launch browser: " ++ err)%string)
      | inl url =>
          assign (set_launcher url bin) ;;;
          assign (set_browser (Some url)) ;;;
          err <- call (browser_Connect machine url) ;;
          match err with
          | Some e => ret (Some ("failed to connect to browser: " ++ e)%string)
          | None =>
              call_ (browser_MustIgnoreCertErrors machine url) ;;;
              ret None
          end
      end
  end.

(** [Close]: a panic of [bm.browser.Close()] comes before the browser is
    dropped, and leaves the manager as it was. *)
Definition Close : M World (option error) :=
  bm <- this ;;
  match browser bm with
  | None => ret None
  | Some b =>
      err <- must (browser_Close machine b) ;;
      assign (set_browser None) ;;;
      assign (SetApplying false) ;;;
      assign cancel ;;;
      ret err
  end.

Definition Restart : M World (option error) :=
  err <- Close ;;
  match err with
  | Some e => ret (Some e)
  | None =>
      err' <- Launch ;;
      match err' with
      | Some e => ret (Some e)
      | None => ret None
      end
  end.

(** *** NewPage and Navigate; the page they return is the one the world
    shows. *)

Definition NewPage : M World (option error) :=
  bm <- this ;;
  match browser bm with
  | None => ret (Some "browser not running")
  | Some b => call_ (browser_MustPage machine b) ;;; ret None
  end.

Definition Navigate (url : string) : M World (option error) :=
  err <- NewPage ;;
  match err with
  | Some e => ret (Some e)
  | None =>
      err' <- call (page_Navigate_err machine url) ;;
      match err' with
      | Some e => ret (Some ("failed to navigate: " ++ e)%string)
      | None => ret None
      end
  end.

(** *** Login

    A [Must] call panics when the call it wraps returns an error:
    [MustElement] on a query that fails, [MustInput] on an input that is
    refused.  [stealth.MustPage] on a nil browser panics. *)

Definition MustElement (selector : string) : M World Elem :=
  found <- call (page_Element env 0 selector) ;;
  match found with
  | Some el => ret el
  | None => panic
  end.

Definition MustInput (el : Elem) (text : string) : M World unit :=
  err <- call (el_Input env el text) ;;
  match err with
  | None => ret tt
  | Some _ => panic
  end.

(** The result is [(successfulLogin, err)]; the page is the one the world
    shows. *)
Definition Login (email password : string) : M World (bool * option error) :=
  bm <- this ;;
  match browser bm with
  | None => panic
  | Some b =>
      call_ (stealth_MustPage machine b) ;;;
      call_ (page_Navigate env "https://linkedin.com") ;;;
      call_ (time_Sleep env) ;;;
      call_ (page_Navigate env
               "https://www.linkedin.com/login?trk=guest_homepage-basic_nav-header-signin") ;;;
      userField <- MustElement "#username" ;;
      MustInput userField email ;;;
      call_ (el_MustWaitInteractable machine userField) ;;;
      call_ (keyboard_Press machine "Tab") ;;;
      call_ (page_MustWaitRequestIdle machine) ;;;
      call_ (time_Sleep env) ;;;
      pwField <- MustElement "#password" ;;
      MustInput pwField password ;;;
      call_ (page_MustWaitRequestIdle machine) ;;;
      call_ (time_Sleep env) ;;;
      loginButton <- MustElement ".btn__primary--large" ;;
      call_ (el_Click env loginButton) ;;;
      call_ (page_MustWaitRequestIdle machine) ;;;
      call_ (time_Sleep env) ;;;
      loggedInElement <- call (page_Element env 15000 "#caret-small") ;;
      match loggedInElement with
      | None =>
          must (browser_Close machine b) ;;;
          assign (set_browser None) ;;;
          assign cancel ;;;
          ret (false, None)
      | Some _ => ret (true, None)
      end
  end.

(** *** The page capability of a manager

    The capability the campaign runs with: the calls on the page act on the
    surroundings, and [SetApplying] on the manager. *)
Definition on_page {A : Type} (f : P -> A * P) (w : World) : A * World :=
  (fst (f (snd w)), (fst w, snd (f (snd w)))).

Definition on_page_ (f : P -> P) (w : World) : World :=
  (fst w, f (snd w)).

Definition manager_env : Env World Elem Frame :=
  {| page_WaitLoad := on_page_ (page_WaitLoad env);
     page_Navigate := fun url => on_page_ (page_Navigate env url);
     page_Element := fun t sel => on_page (page_Element env t sel);
     page_ElementX := fun t sel => on_page (page_ElementX env t sel);
     page_Elements := fun sel => on_page (page_Elements env sel);
     page_ElementsX := fun sel => on_page (page_ElementsX env sel);
     page_HTML := on_page (page_HTML env);
     mouse_Scroll := fun x y n => on_page (mouse_Scroll env x y n);
     iframe_Frame := fun el => on_page (iframe_Frame env el);
     frame_Has := fun f sel => on_page (frame_Has env f sel);
     frame_HasX := fun f sel => on_page (frame_HasX env f sel);
     frame_Element := fun f sel => on_page (frame_Element env f sel);
     frame_PressEnter := fun f => on_page (frame_PressEnter env f);
     el_ScrollIntoView := fun el => on_page_ (el_ScrollIntoView env el);
     el_Focus := fun el => on_page_ (el_Focus env el);
     el_Hover := fun el => on_page (el_Hover env el);
     el_Click := fun el => on_page_ (el_Click env el);
     el_ShadowRoot := fun el => on_page (el_ShadowRoot env el);
     el_Element := fun el t sel => on_page (el_Element env el t sel);
     el_ElementsX := fun el sel => on_page (el_ElementsX env el sel);
     el_Attribute := fun el name => on_page (el_Attribute env el name);
     el_Text := fun el => on_page (el_Text env el);
     el_SelectAllText := fun el => on_page (el_SelectAllText env el);
     el_Input := fun el text => on_page (el_Input env el text);
     el_EvalClear := fun el => on_page_ (el_EvalClear env el);
     el_EvalGroupText := fun el => on_page (el_EvalGroupText env el);
     goquery_parse := goquery_parse env;
     time_Sleep := on_page_ (time_Sleep env);
     rand_Int := on_page (rand_Int env);
     set_applying := fun value w => (SetApplying value (fst w), snd w) |}.

End Methods.

Arguments this {P}.
Arguments assign {P} f.
Arguments call {P A} f.
Arguments call_ {P} f.
Arguments read {P A} f.
Arguments must {P A} f.
Arguments bundled_path {P Elem} machine exeDir.
Arguments findBundledBrowser {P Elem} machine.
Arguments system_paths {P Elem} machine.
Arguments first_existing {P Elem} machine paths.
Arguments findSystemBrowser {P Elem} machine.
Arguments Launch {P Elem} machine.
Arguments Close {P Elem} machine.
Arguments Restart {P Elem} machine.
Arguments NewPage {P Elem} machine.
Arguments Navigate {P Elem} machine url.
Arguments MustElement {P Elem Frame} env selector.
Arguments MustInput {P Elem Frame} env el text.
Arguments Login {P Elem Frame} machine env email password.
Arguments on_page {P A} f w.
Arguments on_page_ {P} f w.
Arguments manager_env {P Elem Frame} env.

End Lifecycle.

(** ** The downloader

    [ChromeDownloader] of [download.go]: where the browser is fetched from
    and where it is looked for, and the extraction of the archive. *)
Module Download.
Import GoStrings Browser Lifecycle.
Local Open Scope string_scope.
Local Open Scope list_scope.

Record ChromeDownloader : Type := mkChromeDownloader {
  Version : string;
  DownloadDir : string
}.

(** [strings.HasPrefix] and [strings.HasSuffix]. *)
Definition HasPrefix (s prefix : string) : bool := String.prefix prefix s.

Definition HasSuffix (s suffix : string) : bool :=
  let n := String.length s in
  let m := String.length suffix in
  if (m <=? n)%nat then String.eqb (substring (n - m) m s) suffix else false.

(** [fmt.Sprintf] for a format whose only verb is one [%s]. *)
Fixpoint Sprintf_s (format arg : string) : string :=
  match format with
  | EmptyString => EmptyString
  | String c rest =>
      match rest with
      | String d rest' =>
          if Ascii.eqb c (ascii_of_N 37) && Ascii.eqb d (ascii_of_N 115)
          then (arg ++ rest')%string
          else String c (Sprintf_s rest arg)
      | EmptyString => String c EmptyString
      end
  end.

(** The map from platform keys to URL formats, as the list of its entries. *)
Definition ChromeForTestingURLs : list (string * string) :=
  [ ("darwin-arm64",
     "https://storage.googleapis.com/chrome-for-testing-public/%s/mac-arm64/chrome-mac-arm64.zip");
    ("darwin-amd64",
     "https://storage.googleapis.com/chrome-for-testing-public/%s/mac-x64/chrome-mac-x64.zip");
    ("linux-amd64",
     "https://storage.googleapis.com/chrome-for-testing-public/%s/linux64/chrome-linux64.zip");
    ("windows-amd64",
     "https://storage.googleapis.com/chrome-for-testing-public/%s/win64/chrome-win64.zip") ].

Fixpoint map_lookup (m : list (string * string)) (key : string) : option string :=
  match m with
  | [] => None
  | (k, v) :: rest => if String.eqb k key then Some v else map_lookup rest key
  end.

Definition LatestStableVersion : string := "131.0.6778.85".

Section Downloader.
Variables P Elem : Type.
Variable machine : Machine P Elem.

Definition NewChromeDownloader (p : P) : ChromeDownloader :=
  let homeDir := match os_UserHomeDir machine p with
                 | Some h => h
                 | None => EmptyString
                 end in
  mkChromeDownloader LatestStableVersion
    (filepath_Join machine [homeDir; ".applyfox"; "chrome"]).

Definition GetPlatformKey : string :=
  (runtime_GOOS machine ++ "-" ++ runtime_GOARCH machine)%string.

Definition GetDownloadURL (cd : ChromeDownloader) : string + error :=
  let platform := GetPlatformKey in
  match map_lookup ChromeForTestingURLs platform with
  | None => inr ("unsupported platform: " ++ platform)%string
  | Some urlTemplate => inl (Sprintf_s urlTemplate (Version cd))
  end.

Definition GetBrowserPath (cd : ChromeDownloader) : string :=
  let platform := GetPlatformKey in
  let versionDir := filepath_Join machine [DownloadDir cd; Version cd] in
  if HasPrefix platform "darwin" then
    let arch := if HasSuffix platform "amd64" then "x64" else "arm64" in
    filepath_Join machine
      [versionDir; ("chrome-mac-" ++ arch)%string;
       "Google Chrome for Testing.app"; "Contents"; "MacOS";
       "Google Chrome for Testing"]
  else if HasPrefix platform "linux" then
    filepath_Join machine [versionDir; "chrome-linux64"; "chrome"]
  else if HasPrefix platform "windows" then
    filepath_Join machine [versionDir; "chrome-win64"; "chrome.exe"]
  else EmptyString.

Definition IsDownloaded (cd : ChromeDownloader) (p : P) : bool :=
  let path := GetBrowserPath cd in
  if String.eqb path EmptyString then false else os_Stat machine path p.

(** *** extractZip

    An entry of the archive, and what the extraction asks of the file
    system and of the archive; a call gives its error, [None] for nil. *)
Record entry : Type := mkEntry {
  Name : string;
  IsDir : bool
}.

Record Files : Type := mkFiles {
  filepath_Clean : string -> string;
  os_PathSeparator : string;
  zip_OpenReader : string -> P -> (list entry + error) * P;
  os_MkdirAll : string -> P -> option error * P;
  os_OpenFile : string -> P -> option error * P;
  zip_Open : entry -> P -> option error * P;
  io_Copy : string -> entry -> P -> option error * P
}.

Variable files : Files.

Local Notation "x <- m ;; k" := (bind m (fun x => k))
  (at level 61, m at next level, right associativity).
Local Notation "m ;;; k" := (bind m (fun _ => k))
  (at level 61, right associativity).

(** The check against entries that would leave the destination. *)
Definition inside (dest fpath : string) : bool :=
  HasPrefix fpath (filepath_Clean files dest ++ os_PathSeparator files)%string.

Fixpoint extract_entries (dest : string) (entries : list entry)
    : M P (option error) :=
  match entries with
  | [] => ret None
  | f :: rest =>
      let fpath := filepath_Join machine [dest; Name f] in
      if negb (inside dest fpath)
      then ret (Some ("invalid file path: " ++ fpath)%string)
      else if IsDir f then
        liftW (os_MkdirAll files fpath) ;;;
        extract_entries dest rest (* continue *)
      else
        err <- liftW (os_MkdirAll files (filepath_Dir machine fpath)) ;;
        match err with
        | Some e => ret (Some e)
        | None =>
            err <- liftW (os_OpenFile files fpath) ;;
            match err with
            | Some e => ret (Some e)
            | None =>
                err <- liftW (zip_Open files f) ;;
                match err with
                | Some e => ret (Some e)
                | None =>
                    err <- liftW (io_Copy files fpath f) ;;
                    match err with
                    | Some e => ret (Some e)
                    | None => extract_entries dest rest
                    end
                end
            end
        end
  end.

Definition extractZip (src dest : string) : M P (option error) :=
  r <- liftW (zip_OpenReader files src) ;;
  match r with
  | inr e => ret (Some e)
  | inl entries => extract_entries dest entries
  end.

End Downloader.

Arguments NewChromeDownloader {P Elem} machine p.
Arguments GetPlatformKey {P Elem} machine.
Arguments GetDownloadURL {P Elem} machine cd.
Arguments GetBrowserPath {P Elem} machine cd.
Arguments IsDownloaded {P Elem} machine cd p.
Arguments filepath_Clean {P} f.
Arguments os_PathSeparator {P} f.
Arguments zip_OpenReader {P} f.
Arguments os_MkdirAll {P} f.
Arguments os_OpenFile {P} f.
Arguments zip_Open {P} f.
Arguments io_Copy {P} f.
Arguments inside {P} files dest fpath.
Arguments extract_entries {P Elem} machine files dest entries.
Arguments extractZip {P Elem} machine files src dest.

End Download.

(** ** The service

    The methods of [AppService] that drive the browser.  The service holds
    the manager, which is the receiver in the world, and the store, which is
    nil when it could not be opened at startup and which these methods only
    read. *)
Module App.
Import GoStrings Browser Store Lifecycle.
Local Open Scope string_scope.
Local Open Scope list_scope.

Record BrowserStatus : Type := mkBrowserStatus {
  Running : bool;
  Applying : bool;
  Status_Headless : bool; (* the field Headless *)
  Downloaded : bool;
  Status_Version : string (* the field Version *)
}.

Section Service.
Variables P Elem Frame : Type.
Variable lib : GoLib.
Variable json : JSONLib.
Variable machine : Machine P Elem.
Variable env : Env P Elem Frame.

Local Notation "x <- m ;; k" := (bind m (fun x => k))
  (at level 61, m at next level, right associativity).
Local Notation "m ;;; k" := (bind m (fun _ => k))
  (at level 61, right associativity).

(** [GetBrowserStatus], for the manager and the surroundings of a world;
    the field Headless is not set. *)
Definition GetBrowserStatus (downloader : Download.ChromeDownloader)
    (w : World P) : BrowserStatus :=
  mkBrowserStatus (IsRunning (fst w)) (IsApplying (fst w)) false
    (Download.IsDownloaded machine downloader (snd w))
    (Download.Version downloader).

Definition StartBrowser (email password : string)
    : M (World P) (bool * option error) :=
  err <- Launch machine ;;
  match err with
  | Some e => ret (false, Some e)
  | None =>
      r <- Login machine env email password ;;
      Close machine ;;;
      call_ (app_Event_Emit machine "browser:started") ;;;
      ret (fst r, None)
  end.

(** [StartApplying]; the campaign is cut after [passes] passes, and the
    result is [None] when it is still running then. *)
Definition StartApplying (passes : nat) (store : option Store) (profileId : Z)
    : M (World P) (option (option error)) :=
  match store with
  | None => panic (* a nil [*Store] is dereferenced *)
  | Some s =>
      match GetLinkedInProfile json s profileId with
      | inr err =>
          ret (Some (Some ("failed to get LinkedIn profile: " ++ err)%string))
      | inl st =>
          err <- Launch machine ;;
          match err with
          | Some e => ret (Some (Some e))
          | None =>
              r <- Login machine env (Email (profile st))
                     (Password (profile st)) ;;
              match snd r with
              | Some e => ret (Some (Some e))
              | None =>
                  if negb (fst r)
                  then ret (Some (Some "failed to log in to LinkedIn"))
                  else
                    r' <- Browser.StartApplying lib (manager_env env) passes
                            (profile st) ;;
                    match r' with
                    | None => ret None
                    | Some _ => ret (Some None) (* the error is dropped *)
                    end
              end
          end
      end
  end.

Definition StopBrowser : M (World P) (option error) :=
  err <- Close machine ;;
  match err with
  | Some e => ret (Some e)
  | None =>
      assign (SetApplying false) ;;;
      call_ (app_Event_Emit machine "browser:stopped") ;;;
      ret None
  end.

(** The store methods of the service: a guard on the nil store before the
    method of the store. *)
Definition CreateLinkedInProfile (store : option Store) (email password : string)
    (now : Z) : (Stored + error) * option Store :=
  match store with
  | None => (inr "store not initialized", None)
  | Some s =>
      (fst (Store.CreateLinkedInProfile json s email password now),
       Some (snd (Store.CreateLinkedInProfile json s email password now)))
  end.

Definition GetLinkedInProfile (store : option Store) (id : Z) : Stored + error :=
  match store with
  | None => inr "store not initialized"
  | Some s => Store.GetLinkedInProfile json s id
  end.

Definition UpdateLinkedInProfile (store : option Store) (id : Z)
    (update : LinkedInProfileUpdate.t) (now : Z)
    : (Stored + error) * option Store :=
  match store with
  | None => (inr "store not initialized", None)
  | Some s =>
      (fst (Store.UpdateLinkedInProfile json s id update now),
       Some (snd (Store.UpdateLinkedInProfile json s id update now)))
  end.

Definition DeleteLinkedInProfile (store : option Store) (id : Z)
    : option error * option Store :=
  match store with
  | None => (Some "store not initialized", None)
  | Some s =>
      (fst (Store.DeleteLinkedInProfile s id),
       Some (snd (Store.DeleteLinkedInProfile s id)))
  end.

End Service.

Arguments GetBrowserStatus {P Elem} machine downloader w.
Arguments StartBrowser {P Elem Frame} machine env email password.
Arguments StartApplying {P Elem Frame} lib json machine env passes store profileId.
Arguments StopBrowser {P Elem} machine.

End App.

(** ** What a computation leaves alone *)
Module Frames.
Import Browser.

(** [m] keeps [Inv]: from a world where it holds, [m] ends in one, whether it
    returns or panics. *)
Definition keeps {W A : Type} (Inv : W -> Prop) (m : M W A) : Prop :=
  forall w, Inv w -> Inv (world (m w)).

(** [runs m w o w' e]: started in [w], the computation [m] ends with the
    outcome [o], in the world [w'], having left the events [e]. *)
Definition runs {W A : Type} (m : M W A) (w : W) (o : outcome A) (w' : W)
    (e : list event) : Prop :=
  out (m w) = o /\ world (m w) = w' /\ events (m w) = e.

(** Every call of the capability but [set_applying] keeps [Inv]. *)
Record page_only {W Elem Frame : Type} (env : Env W Elem Frame)
    (Inv : W -> Prop) : Prop := mkPageOnly {
  po_WaitLoad : forall w, Inv w -> Inv (page_WaitLoad env w);
  po_Navigate : forall u w, Inv w -> Inv (page_Navigate env u w);
  po_Element : forall t s w, Inv w -> Inv (snd (page_Element env t s w));
  po_ElementX : forall t s w, Inv w -> Inv (snd (page_ElementX env t s w));
  po_Elements : forall s w, Inv w -> Inv (snd (page_Elements env s w));
  po_ElementsX : forall s w, Inv w -> Inv (snd (page_ElementsX env s w));
  po_HTML : forall w, Inv w -> Inv (snd (page_HTML env w));
  po_Scroll : forall x y n w, Inv w -> Inv (snd (mouse_Scroll env x y n w));
  po_Frame : forall el w, Inv w -> Inv (snd (iframe_Frame env el w));
  po_Has : forall f s w, Inv w -> Inv (snd (frame_Has env f s w));
  po_HasX : forall f s w, Inv w -> Inv (snd (frame_HasX env f s w));
  po_FrameElement : forall f s w, Inv w -> Inv (snd (frame_Element env f s w));
  po_PressEnter : forall f w, Inv w -> Inv (snd (frame_PressEnter env f w));
  po_ScrollIntoView : forall el w, Inv w -> Inv (el_ScrollIntoView env el w);
  po_Focus : forall el w, Inv w -> Inv (el_Focus env el w);
  po_Hover : forall el w, Inv w -> Inv (snd (el_Hover env el w));
  po_Click : forall el w, Inv w -> Inv (el_Click env el w);
  po_ShadowRoot : forall el w, Inv w -> Inv (snd (el_ShadowRoot env el w));
  po_ElElement : forall el t s w, Inv w -> Inv (snd (el_Element env el t s w));
  po_ElElementsX : forall el s w, Inv w -> Inv (snd (el_ElementsX env el s w));
  po_Attribute : forall el n w, Inv w -> Inv (snd (el_Attribute env el n w));
  po_Text : forall el w, Inv w -> Inv (snd (el_Text env el w));
  po_SelectAllText : forall el w, Inv w -> Inv (snd (el_SelectAllText env el w));
  po_Input : forall el t w, Inv w -> Inv (snd (el_Input env el t w));
  po_EvalClear : forall el w, Inv w -> Inv (el_EvalClear env el w);
  po_EvalGroupText : forall el w, Inv w -> Inv (snd (el_EvalGroupText env el w));
  po_Sleep : forall w, Inv w -> Inv (time_Sleep env w);
  po_Int : forall w, Inv w -> Inv (snd (rand_Int env w))
}.

End Frames.

(** ** Samples for the store and the life cycle *)
Module Sample2.
Import GoStrings Browser Store Lifecycle Sample.
Local Open Scope string_scope.
Local Open Scope list_scope.

(** *** JSON arrays of plain strings

    An encoder and a decoder for arrays of strings that hold no double quote
    and no backslash. *)
Fixpoint join_quoted (l : list string) : string :=
  match l with
  | [] => EmptyString
  | [x] => dquote ++ x ++ dquote
  | x :: rest => dquote ++ x ++ dquote ++ "," ++ join_quoted rest
  end.

Definition plain_Marshal (l : list string) : string :=
  "[" ++ join_quoted l ++ "]".

(** The string up to the closing quote, and what follows it. *)
Fixpoint read_string (s : string) : option (string * string) :=
  match s with
  | EmptyString => None
  | String c s' =>
      if Ascii.eqb c dquote_byte then Some (EmptyString, s')
      else if Ascii.eqb c (ascii_of_N 92) then None
      else
        match read_string s' with
        | Some (x, rest) => Some (String c x, rest)
        | None => None
        end
  end.

Fixpoint read_elements (fuel : nat) (s : string) (acc : list string)
    : option (list string) :=
  match fuel with
  | O => None
  | S fuel' =>
      match s with
      | String c s' =>
          if Ascii.eqb c dquote_byte then
            match read_string s' with
            | Some (x, String d rest) =>
                if Ascii.eqb d (ascii_of_N 44)
                then read_elements fuel' rest (acc ++ [x])
                else if Ascii.eqb d (ascii_of_N 93) && String.eqb rest EmptyString
                then Some (acc ++ [x])
                else None
            | _ => None
            end
          else None
      | EmptyString => None
      end
  end.

Definition plain_Unmarshal (s : string) : option (list string) :=
  if String.eqb s "null" then Some []
  else if String.eqb s "[]" then Some []
  else
    match s with
    | String c rest =>
        if Ascii.eqb c (ascii_of_N 91)
        then read_elements (String.length s) rest []
        else None
    | EmptyString => None
    end.

Definition plain_json : JSONLib := mkJSONLib plain_Marshal plain_Unmarshal.

(** A store with one profile, made at time 100 and filled in at time 200. *)
Definition ada_update : LinkedInProfileUpdate.t :=
  LinkedInProfileUpdate.mk "ada@example.org" "secret" "555-0100"
    ["engineer"] ["Austin"; "Remote"] true "https://www.linkedin.com/in/ada"
    4 "Austin" "TX".

Definition store_1 : Store :=
  snd (Store.CreateLinkedInProfile plain_json migrated "ada@example.org"
         "secret" 100).

Definition store_2 : Store :=
  snd (Store.UpdateLinkedInProfile plain_json store_1 1 ada_update 200).

(** *** A machine

    A Linux machine with Chromium installed, the browser of the downloader
    in place and no bundled browser.  The launcher starts; [connects] tells whether
    the connection to the browser succeeds. *)
Definition slash : ascii := ascii_of_N 47.

(** [filepath.Clean], [filepath.Join] and [filepath.Dir] on absolute paths
    with slashes: empty and dot components are dropped, a double dot takes
    back the component before it. *)
Fixpoint resolve (parts : list string) (stack : list string) : list string :=
  match parts with
  | [] => rev stack
  | p :: rest =>
      if String.eqb p EmptyString || String.eqb p "." then resolve rest stack
      else if String.eqb p ".." then resolve rest (tl stack)
      else resolve rest (p :: stack)
  end.

Definition posix_Clean (path : string) : string :=
  "/" ++ Join (resolve (Split path slash) []) "/".

Definition posix_Join (parts : list string) : string :=
  posix_Clean (Join parts "/").

Definition posix_Dir (path : string) : string :=
  "/" ++ Join (removelast (resolve (Split path slash) [])) "/".

(** A Linux machine on which the files of [existing] exist.  Its launcher
    always starts; its browser connects or not, and a browser that did not
    connect cannot be closed: closing it panics. *)
Definition machine_with (existing : list string) (connects : bool)
    : Machine page_state node :=
  {| runtime_GOOS := "linux";
     runtime_GOARCH := "amd64";
     os_Executable := fun _ => Some "/opt/foxyapply/foxyapply";
     os_UserHomeDir := fun _ => Some "/home/ada";
     os_Stat := fun p _ => existsb (String.eqb p) existing;
     filepath_Dir := posix_Dir;
     filepath_Join := posix_Join;
     launcher_Launch := fun _ w => (inl "ws://127.0.0.1:9222/devtools", w);
     browser_Connect := fun _ w =>
       if connects then (None, w) else (Some "connection refused", w);
     browser_MustIgnoreCertErrors := fun _ w => w;
     browser_Close := fun _ w => (if connects then Ret None else Panic, w);
     browser_MustPage := fun _ w => w;
     stealth_MustPage := fun _ w => w;
     page_Navigate_err := fun _ w => (None, w);
     el_MustWaitInteractable := fun _ w => w;
     keyboard_Press := fun _ w => w;
     page_MustWaitRequestIdle := fun w => w;
     app_Event_Emit := fun _ w => w |}.

Definition sample_machine (connects : bool) : Machine page_state node :=
  machine_with
    [ "/usr/bin/chromium";
      "/home/ada/.applyfox/chrome/131.0.6778.85/chrome-linux64/chrome" ]
    connects.

(** The same machine with the bundled browser in place as well. *)
Definition bundled_machine : Machine page_state node :=
  machine_with
    [ "/usr/bin/chromium"; "/opt/foxyapply/resources/chrome/chrome" ] true.

(** The scripted page behind a login form that lets everyone in: the fields
    and the button of the form and the mark of a session are found, and the
    fields take what is typed. *)
Definition login_selectors : list string :=
  [ "#username"; "#password"; ".btn__primary--large"; "#caret-small" ].

Definition login_env (hrefs : list string) (easy : bool)
    : Env page_state node unit :=
  let base := scripted_env three_steps no_inputs hrefs easy in
  {| page_WaitLoad := page_WaitLoad base;
     page_Navigate := page_Navigate base;
     page_Element := fun t sel w =>
       if shown login_selectors sel then (Some (Button sel), w)
       else page_Element base t sel w;
     page_ElementX := page_ElementX base;
     page_Elements := page_Elements base;
     page_ElementsX := page_ElementsX base;
     page_HTML := page_HTML base;
     mouse_Scroll := mouse_Scroll base;
     iframe_Frame := iframe_Frame base;
     frame_Has := frame_Has base;
     frame_HasX := frame_HasX base;
     frame_Element := frame_Element base;
     frame_PressEnter := frame_PressEnter base;
     el_ScrollIntoView := el_ScrollIntoView base;
     el_Focus := el_Focus base;
     el_Hover := el_Hover base;
     el_Click := el_Click base;
     el_ShadowRoot := el_ShadowRoot base;
     el_Element := el_Element base;
     el_ElementsX := el_ElementsX base;
     el_Attribute := el_Attribute base;
     el_Text := el_Text base;
     el_SelectAllText := el_SelectAllText base;
     el_Input := fun el value w =>
       match el with
       | Button _ => (None, w)
       | _ => el_Input base el value w
       end;
     el_EvalClear := el_EvalClear base;
     el_EvalGroupText := el_EvalGroupText base;
     goquery_parse := goquery_parse base;
     time_Sleep := time_Sleep base;
     rand_Int := rand_Int base;
     set_applying := set_applying base |}.

Definition new_manager : BrowserManager := NewBrowserManager None.

(** *** A file system that records the files written

    The world is the list of the paths opened for writing or copied to,
    newest first; the archive is given with the file system. *)
Definition recording_files (archive : list Download.entry)
    : Download.Files (list string) :=
  {| Download.filepath_Clean := posix_Clean;
     Download.os_PathSeparator := "/";
     Download.zip_OpenReader := fun _ w => (inl archive, w);
     Download.os_MkdirAll := fun _ w => (None, w);
     Download.os_OpenFile := fun path w => (None, path :: w);
     Download.zip_Open := fun _ w => (None, w);
     Download.io_Copy := fun path _ w => (None, path :: w) |}.

(** Two entries under the destination and one that climbs out of it. *)
Definition slipping_archive : list Download.entry :=
  [ Download.mkEntry "chrome-linux64/" true;
    Download.mkEntry "chrome-linux64/chrome" false;
    Download.mkEntry "../../.bashrc" false ].

(** A machine for the extraction: only its path functions matter. *)
Definition path_machine : Machine (list string) unit :=
  {| runtime_GOOS := "linux";
     runtime_GOARCH := "amd64";
     os_Executable := fun _ => None;
     os_UserHomeDir := fun _ => None;
     os_Stat := fun _ _ => false;
     filepath_Dir := posix_Dir;
     filepath_Join := posix_Join;
     launcher_Launch := fun _ w => (inr "no launcher", w);
     browser_Connect := fun _ w => (None, w);
     browser_MustIgnoreCertErrors := fun _ w => w;
     browser_Close := fun _ w => (Ret None, w);
     browser_MustPage := fun _ w => w;
     stealth_MustPage := fun _ w => w;
     page_Navigate_err := fun _ w => (None, w);
     el_MustWaitInteractable := fun _ w => w;
     keyboard_Press := fun _ w => w;
     page_MustWaitRequestIdle := fun w => w;
     app_Event_Emit := fun _ w => w |}.

End Sample2.
(** * Properties *)

Import GoStrings Browser Sample Spec Traces.


(** ** Decimal strings *)

Section Decimal_facts.

Lemma parse_digits_acc (d : Decimal.uint) (acc : positive) :
  parse_digits (NilEmpty.string_of_uint d) (Z.pos acc)
  = Some (Z.pos (Pos.of_uint_acc d acc)).
Proof.
  revert acc. induction d as [|d IH|d IH|d IH|d IH|d IH|d IH|d IH|d IH|d IH|d IH];
    intros acc; cbn [NilEmpty.string_of_uint parse_digits Pos.of_uint_acc];
    [reflexivity|..];
    match goal with
    | |- context [digit_of ?c] =>
        let v := eval vm_compute in (digit_of c) in
        change (digit_of c) with v
    end;
    cbv beta iota; rewrite <- IH; f_equal; lia.
Qed.

Lemma parse_digits_uint (d : Decimal.uint) :
  parse_digits (NilEmpty.string_of_uint d) 0 = Some (Z.of_N (Pos.of_uint d)).
Proof.
  induction d as [|d IH|d IH|d IH|d IH|d IH|d IH|d IH|d IH|d IH|d IH];
    cbn [NilEmpty.string_of_uint parse_digits Pos.of_uint];
    [reflexivity|..];
    match goal with
    | |- context [digit_of ?c] =>
        let v := eval vm_compute in (digit_of c) in
        change (digit_of c) with v
    end;
    cbv beta iota; [exact IH|..]; apply (parse_digits_acc d).
Qed.

(** A decimal string starts with a digit, not with a sign. *)
Lemma string_of_uint_head (d : Decimal.uint) :
  d <> Decimal.Nil ->
  exists c s, NilEmpty.string_of_uint d = String c s
              /\ is_digit c = true.
Proof.
  intros Hd. destruct d; [contradiction|..]; cbn; eexists; eexists;
    (split; [reflexivity|reflexivity]).
Qed.

Lemma string_of_uint_digits (d : Decimal.uint) :
  all_bytes is_digit (NilEmpty.string_of_uint d) = true.
Proof. induction d; cbn; auto. Qed.

(** [Atoi] reads back what [Itoa] writes, for every value of Go's int. *)
Lemma Atoi_Itoa (i : Z) : minInt <= i <= maxInt -> Atoi (Itoa i) = Some i.
Proof.
  intros Hrange.
  assert (Hpos : forall p,
            minInt <= Z.pos p <= maxInt ->
            Atoi (NilEmpty.string_of_uint (Pos.to_uint p)) = Some (Z.pos p)).
  { intros p Hp.
    destruct (string_of_uint_head (Pos.to_uint p) (Unsigned.to_uint_nonnil p))
      as (c & s & Hs & Hc).
    pose proof (parse_digits_uint (Pos.to_uint p)) as Hparse.
    rewrite Unsigned.of_to in Hparse. cbn [Z.of_N] in Hparse.
    rewrite Hs in Hparse |- *.
    unfold Atoi.
    assert (Hsign : Ascii.eqb c "-" = false /\ Ascii.eqb c "+" = false).
    { split; destruct (Ascii.eqb_spec c "-"), (Ascii.eqb_spec c "+");
        subst; try reflexivity; discriminate. }
    destruct Hsign as [-> ->]. cbn [orb]. rewrite Hparse. cbv zeta.
    destruct (Z.leb_spec minInt (Z.pos p)), (Z.leb_spec (Z.pos p) maxInt);
      try lia. reflexivity. }
  unfold Itoa. destruct i as [|p|p]; cbn [Z.to_int NilZero.string_of_int].
  - reflexivity.
  - unfold NilZero.string_of_uint.
    destruct (Pos.to_uint p) eqn:E;
      [now apply Unsigned.to_uint_nonnil in E|..]; rewrite <- E; now apply Hpos.
  - assert (Hs : NilZero.string_of_uint (Pos.to_uint p)
                 = NilEmpty.string_of_uint (Pos.to_uint p)).
    { unfold NilZero.string_of_uint.
      destruct (Pos.to_uint p) eqn:E;
        [now apply Unsigned.to_uint_nonnil in E|..]; reflexivity. }
    rewrite Hs.
    destruct (string_of_uint_head (Pos.to_uint p) (Unsigned.to_uint_nonnil p))
      as (c & s & Hc & _).
    pose proof (parse_digits_uint (Pos.to_uint p)) as Hparse.
    rewrite Unsigned.of_to in Hparse. cbn [Z.of_N] in Hparse.
    rewrite Hc in Hparse |- *.
    unfold Atoi. cbn [Ascii.eqb Bool.eqb orb]. rewrite Hparse. cbv zeta.
    change (- Z.pos p) with (Z.neg p).
    destruct (Z.leb_spec minInt (Z.neg p)), (Z.leb_spec (Z.neg p) maxInt);
      try lia. reflexivity.
Qed.

Lemma Itoa_nonempty (i : Z) : Itoa i <> EmptyString.
Proof.
  unfold Itoa. destruct (Z.to_int i) as [d|d]; simpl.
  - destruct d; simpl; discriminate.
  - discriminate.
Qed.

End Decimal_facts.

(** ** Trimming and splitting *)

Section Split_facts.
Variable sep : ascii.

Lemma trimRightByte_without (s : string) :
  all_bytes (fun a => negb (Ascii.eqb a sep)) s = true -> trimRightByte s sep = s.
Proof.
  induction s as [|a s IH]; cbn; [reflexivity|].
  intros H. apply andb_true_iff in H as [Ha Hs]. rewrite (IH Hs).
  apply negb_true_iff in Ha. rewrite Ha.
  destruct s; reflexivity.
Qed.

Lemma trimRightByte_app (p t : string) :
  trimRightByte t sep <> EmptyString ->
  trimRightByte (p ++ t) sep = (p ++ trimRightByte t sep)%string.
Proof.
  intros Ht. induction p as [|a p IH]; cbn; [reflexivity|].
  rewrite IH. destruct (p ++ trimRightByte t sep)%string eqn:E; [|reflexivity].
  destruct p; cbn in E; [contradiction | discriminate].
Qed.

Lemma trimRightByte_trailing (s : string) :
  trimRightByte (s ++ String sep EmptyString) sep = trimRightByte s sep.
Proof.
  induction s as [|a s IH]; cbn.
  - now rewrite Ascii.eqb_refl.
  - now rewrite IH.
Qed.

Lemma Split_without (s : string) :
  all_bytes (fun a => negb (Ascii.eqb a sep)) s = true -> Split s sep = [s].
Proof.
  induction s as [|a s IH]; cbn; [reflexivity|].
  intros H. apply andb_true_iff in H as [Ha Hs]. rewrite (IH Hs).
  apply negb_true_iff in Ha. now rewrite Ha.
Qed.

Lemma Split_app (p t : string) :
  all_bytes (fun a => negb (Ascii.eqb a sep)) p = true ->
  Split (p ++ String sep t) sep = p :: Split t sep.
Proof.
  induction p as [|a p IH]; cbn.
  - now rewrite Ascii.eqb_refl.
  - intros H. apply andb_true_iff in H as [Ha Hp]. rewrite (IH Hp).
    apply negb_true_iff in Ha. now rewrite Ha.
Qed.

End Split_facts.

Lemma all_bytes_impl (f g : ascii -> bool) (s : string) :
  (forall a, f a = true -> g a = true) ->
  all_bytes f s = true -> all_bytes g s = true.
Proof.
  intros Hfg. induction s as [|a s IH]; cbn; [reflexivity|].
  intros H. apply andb_true_iff in H as [Ha Hs].
  now rewrite (Hfg a Ha), (IH Hs).
Qed.

Lemma Itoa_without_slash (i : Z) :
  all_bytes (fun a => negb (Ascii.eqb a "/")) (Itoa i) = true.
Proof.
  assert (Hd : forall d, all_bytes (fun a => negb (Ascii.eqb a "/"))
                           (NilZero.string_of_uint d) = true).
  { intros d. unfold NilZero.string_of_uint.
    assert (H : all_bytes (fun a => negb (Ascii.eqb a "/"))
                  (NilEmpty.string_of_uint d) = true).
    { apply (all_bytes_impl is_digit); [|apply string_of_uint_digits].
      intros a Ha.
      destruct (Ascii.eqb_spec a "/") as [->|]; [discriminate Ha | reflexivity]. }
    destruct d; exact H. }
  unfold Itoa. destruct (Z.to_int i) as [d|d]; cbn [NilZero.string_of_int].
  - apply Hd.
  - cbn. apply Hd.
Qed.

(** The path of a posting page splits into its three segments. *)
Lemma path_segments_posting (i : Z) :
  path_segments ("/jobs/view/" ++ Itoa i ++ "/") = ["jobs"; "view"; Itoa i].
Proof.
  unfold path_segments, Trim.
  pose proof (Itoa_without_slash i) as Hno.
  pose proof (Itoa_nonempty i) as Hne.
  assert (Hright : trimRightByte ("/jobs/view/" ++ Itoa i ++ "/") "/"
                   = ("/jobs/view/" ++ Itoa i)%string).
  { rewrite trimRightByte_app; rewrite trimRightByte_trailing,
      (trimRightByte_without "/" _ Hno); [reflexivity | exact Hne]. }
  rewrite Hright.
  change (trimLeftByte ("/jobs/view/" ++ Itoa i) "/")
    with ("jobs" ++ String "/" ("view" ++ String "/" (Itoa i)))%string.
  rewrite (Split_app "/" "jobs"), (Split_app "/" "view") by reflexivity.
  now rewrite (Split_without "/" _ Hno).
Qed.

(** ** ExtractJobID *)

Section ExtractJobID_facts.
Variable lib : GoLib.

Lemma ExtractJobID_parse_error (href : string) :
  url_Parse lib href = None -> ExtractJobID lib href = Ret (0, false).
Proof. intros H. unfold ExtractJobID. now rewrite H. Qed.

Lemma ExtractJobID_short_path (href : string) (u : URL) :
  url_Parse lib href = Some u ->
  (List.length (path_segments (Path u)) < 2)%nat ->
  ExtractJobID lib href = Ret (0, false).
Proof.
  intros H Hlen. unfold ExtractJobID. rewrite H.
  destruct (Z.ltb_spec (Z.of_nat (List.length (path_segments (Path u)))) 2) as [_|Hge].
  - reflexivity.
  - lia.
Qed.

(** With a third segment the function returns what [Atoi] makes of it. *)
Lemma ExtractJobID_third_segment (href : string) (u : URL) (seg : string) :
  url_Parse lib href = Some u ->
  nth_error (path_segments (Path u)) 2 = Some seg ->
  ExtractJobID lib href =
    match Atoi seg with
    | Some id => Ret (id, true)
    | None => Ret (0, false)
    end.
Proof.
  intros H Hseg. unfold ExtractJobID. rewrite H.
  assert (Hlen : (2 < List.length (path_segments (Path u)))%nat).
  { apply nth_error_Some. rewrite Hseg. discriminate. }
  destruct (Z.ltb_spec (Z.of_nat (List.length (path_segments (Path u)))) 2) as [Hlt|_].
  - lia.
  - rewrite Hseg. destruct (Atoi seg); reflexivity.
Qed.

(** The function panics exactly on the paths with two segments. *)
Lemma ExtractJobID_panics_iff (href : string) :
  ExtractJobID lib href = Panic <->
  exists u, url_Parse lib href = Some u
            /\ List.length (path_segments (Path u)) = 2%nat.
Proof.
  unfold ExtractJobID. split.
  - destruct (url_Parse lib href) as [u|]; [|discriminate].
    intros H. exists u. split; [reflexivity|].
    destruct (path_segments (Path u)) as [|a [|b [|c l]]];
      try discriminate; try reflexivity.
    exfalso. revert H. cbn [nth_error].
    destruct (Z.of_nat (List.length (a :: b :: c :: l)) <? 2); [discriminate|].
    destruct (Atoi c); discriminate.
  - intros (u & -> & Hlen).
    destruct (path_segments (Path u)) as [|a [|b [|c l]]]; cbn in Hlen |- *;
      try discriminate; reflexivity.
Qed.

(** The link of a posting page gives back the identifier the page was
    built from: [ExtractJobID] inverts the URL that [StartApplying]
    navigates to. *)
Lemma ExtractJobID_posting_link (href : string) (u : URL) (id : Z) :
  url_Parse lib href = Some u ->
  Path u = ("/jobs/view/" ++ Itoa id ++ "/")%string ->
  minInt <= id <= maxInt ->
  ExtractJobID lib href = Ret (id, true).
Proof.
  intros H HP Hid.
  rewrite (ExtractJobID_third_segment href u (Itoa id) H).
  - now rewrite Atoi_Itoa.
  - rewrite HP, path_segments_posting. reflexivity.
Qed.

End ExtractJobID_facts.

(** The examples of the specification that the function meets. *)
Example ExtractJobID_view_link :
  ExtractJobID ascii_lib "https://www.linkedin.com/jobs/view/3847562910/?refId=abc"
  = Ret (3847562910, true).
Proof. reflexivity. Qed.

Example ExtractJobID_not_a_number :
  ExtractJobID ascii_lib "/jobs/view/latest/" = Ret (0, false).
Proof. reflexivity. Qed.

Example ExtractJobID_one_segment :
  ExtractJobID ascii_lib "/jobs/" = Ret (0, false).
Proof. reflexivity. Qed.

(** C1.  The specification's example path /jobs/search/, with the two
    segments jobs and search, is to give (0, false).  The guard of the
    function lets lists of two segments through, and the access to the third
    segment panics: on every link that parses to this path the function
    panics instead of returning (0, false). *)
Theorem ExtractJobID_jobs_search_panics (lib : GoLib) (href : string) (u : URL) :
  url_Parse lib href = Some u ->
  Path u = "/jobs/search/" ->
  path_segments (Path u) = ["jobs"; "search"]
  /\ ExtractJobID lib href = Panic
  /\ ExtractJobID lib href <> Ret (0, false).
Proof.
  intros H HP. unfold ExtractJobID. rewrite H, HP.
  repeat split. discriminate.
Qed.

Lemma ExtractJobID_jobs_search_panics_witness :
  (url_Parse ascii_lib "https://www.linkedin.com/jobs/search/"
   = Some search_page
   /\ Path search_page = "/jobs/search/")
  /\ ExtractJobID ascii_lib "https://www.linkedin.com/jobs/search/" = Panic.
Proof.
  split.
  - split; reflexivity.
  - apply (ExtractJobID_jobs_search_panics ascii_lib
             "https://www.linkedin.com/jobs/search/"
             search_page);
      reflexivity.
Defined.

(** C2.  The function is to return for every link, the access to the third
    segment staying within the segment list.  The guard compares the length
    with 2, so a path with exactly two segments passes it and the access at
    index 2 is out of range: the function panics. *)
Theorem ExtractJobID_two_segments_panics (lib : GoLib) (href : string) (u : URL) :
  url_Parse lib href = Some u ->
  List.length (path_segments (Path u)) = 2%nat ->
  nth_error (path_segments (Path u)) 2 = None
  /\ ExtractJobID lib href = Panic.
Proof.
  intros H Hlen. split.
  - apply nth_error_None. lia.
  - apply ExtractJobID_panics_iff. exists u. now split.
Qed.

Lemma ExtractJobID_two_segments_panics_witness :
  (url_Parse ascii_lib "/jobs/collections?discover=true"
   = Some collections_page
   /\ List.length (path_segments
        (Path collections_page)) = 2%nat)
  /\ ExtractJobID ascii_lib "/jobs/collections?discover=true" = Panic.
Proof.
  split.
  - split; reflexivity.
  - apply (ExtractJobID_two_segments_panics ascii_lib
             "/jobs/collections?discover=true"
             collections_page);
      reflexivity.
Defined.

(** C10.  The outcome of [ExtractJobID] depends on the link through the path
    of the parsed URL only: two links that parse to URLs with the same path
    have the same outcome, whatever their scheme, host, query and
    fragment. *)
Theorem ExtractJobID_depends_on_path_only (lib : GoLib) (href1 href2 : string)
    (u1 u2 : URL) :
  url_Parse lib href1 = Some u1 ->
  url_Parse lib href2 = Some u2 ->
  Path u1 = Path u2 ->
  ExtractJobID lib href1 = ExtractJobID lib href2.
Proof.
  intros H1 H2 HP. unfold ExtractJobID. rewrite H1, H2, HP. reflexivity.
Qed.

Lemma ExtractJobID_depends_on_path_only_witness :
  (url_Parse ascii_lib "https://www.linkedin.com/jobs/view/3847562910/?refId=abc#top"
   = Some posting_absolute
   /\ url_Parse ascii_lib "/jobs/view/3847562910/"
      = Some posting_relative
   /\ Path posting_absolute
      = Path posting_relative)
  /\ ExtractJobID ascii_lib "https://www.linkedin.com/jobs/view/3847562910/?refId=abc#top"
     = ExtractJobID ascii_lib "/jobs/view/3847562910/".
Proof.
  split.
  - repeat split.
  - apply (ExtractJobID_depends_on_path_only ascii_lib _ _
             posting_absolute
             posting_relative);
      reflexivity.
Defined.

(** ** ChooseValue *)

Lemma containsAny_existsb (s : string) (kws : list string) :
  containsAny s kws = existsb (Contains s) kws.
Proof.
  induction kws as [|kw kws IH]; simpl.
  - reflexivity.
  - rewrite IH. destruct (Contains s kw); reflexivity.
Qed.

Lemma append_nonempty_r (s t : string) :
  t <> EmptyString -> (s ++ t)%string <> EmptyString.
Proof.
  intros Ht. destruct s; simpl.
  - exact Ht.
  - discriminate.
Qed.

(** The examples of the specification. *)
Example ChooseValue_mobile_phone :
  fst (ChooseValue ascii_lib "Mobile Phone Number" "text" sample_profile None tt)
  = "555-0100".
Proof. reflexivity. Qed.

Example ChooseValue_city :
  fst (ChooseValue ascii_lib "City" "text" sample_profile None tt) = "Austin, TX".
Proof. reflexivity. Qed.

Example ChooseValue_favorite_color :
  fst (ChooseValue ascii_lib "Favorite color" "text" sample_profile None tt) = "4".
Proof. reflexivity. Qed.

Example ChooseValue_years_of_experience :
  fst (ChooseValue ascii_lib "Years of relevant experience" "number"
         sample_profile None tt) = "4"
  /\ rule_number ascii_lib "Years of relevant experience" = Some 6%nat.
Proof. split; reflexivity. Qed.

(** C4, as stated, fails.  By the letter of rules 8 and 9 an input type
    NUMBER is not the word number, so the fallback decides, and a fallback
    answer is used as returned; the code compares the input type after
    trimming and lower-casing, and trims the fallback answer. *)
Lemma ChooseValue_not_the_literal_cascade :
  ChooseValue ascii_lib "Favorite color" "text" sample_profile (Some padded_yes) tt
    = ("yes", tt)
  /\ resolve_spec ascii_lib "Favorite color" "text" sample_profile (Some padded_yes) tt
    = (" yes ", tt)
  /\ ChooseValue ascii_lib "Favorite color" "NUMBER" sample_profile (Some answers_blue) tt
    = ("4", tt)
  /\ resolve_spec ascii_lib "Favorite color" "NUMBER" sample_profile (Some answers_blue) tt
    = ("Blue", tt)
  /\ ~ (forall labelText inputType p fb w,
          ChooseValue (W:=unit) ascii_lib labelText inputType p fb w
          = resolve_spec ascii_lib labelText inputType p fb w).
Proof.
  repeat split.
  intros H.
  specialize (H "Favorite color" "text" sample_profile (Some padded_yes) tt).
  discriminate H.
Qed.

(** C4, amended.  [ChooseValue] is the priority cascade of the ten rules,
    first match winning, the label cues being matched without regard to
    case: the phone, city, have-you-ever-worked, state, salary,
    experience-and-year and linkedin rules in this order; otherwise years of
    experience when the input type, trimmed and lower-cased, is number;
    otherwise the trimmed answer of the fallback when it comes without error
    and is not empty once trimmed; otherwise years of experience.  The
    experience rule stands before the numeric default. *)
Theorem ChooseValue_is_the_cascade (W : Type) (lib : GoLib)
    (labelText inputType : string) (p : LinkedInProfile)
    (fb : option (fallback W)) (w : W) :
  ChooseValue lib labelText inputType p fb w
  = resolve_amended lib labelText inputType p fb w.
Proof.
  unfold ChooseValue, resolve_amended, first_rule, label_rules, normalised.
  rewrite !containsAny_existsb.
  set (l := strings_ToLower lib (strings_TrimSpace lib labelText)).
  cbn [find fst snd cue_matches].
  replace (existsb (Contains l) ["have you ever worked"])
    with (Contains l "have you ever worked") by (cbn; now rewrite orb_false_r).
  replace (existsb (Contains l) ["state"])
    with (Contains l "state") by (cbn; now rewrite orb_false_r).
  replace (forallb (Contains l) ["experience"; "year"])
    with (Contains l "experience" && Contains l "year")
    by (cbn; now rewrite andb_true_r).
  repeat match goal with
         | |- (if ?c then _ else _) = _ => destruct c; [reflexivity|]
         end.
  destruct fb as [f|]; [|reflexivity].
  destruct (f labelText inputType w) as [[ans [e|]] w']; [reflexivity|].
  destruct (String.eqb (strings_TrimSpace lib ans) EmptyString); reflexivity.
Qed.

(** C7, as stated, fails: the phone, state and linkedin rules return the
    profile field as it is, and a profile that has only its credentials set
    has these fields empty. *)
Lemma ChooseValue_returns_empty :
  fst (ChooseValue ascii_lib "Phone" "tel" blank_profile None tt) = EmptyString
  /\ fst (ChooseValue ascii_lib "State" "text" blank_profile None tt) = EmptyString
  /\ fst (ChooseValue ascii_lib "LinkedIn profile" "text" blank_profile None tt)
     = EmptyString.
Proof. repeat split. Qed.

(** C7, amended.  [ChooseValue] returns the empty string exactly when the
    rule that answers is the phone rule (1), the state rule (4) or the
    linkedin rule (7) and the profile field it returns is empty.  The city
    rule, the literal No, the salary and experience rules, the numeric
    default, the fallback path (absent, failing or answering with white space
    only) and the final default never give the empty string. *)
Theorem ChooseValue_empty_only_from_profile (W : Type) (lib : GoLib)
    (labelText inputType : string) (p : LinkedInProfile)
    (fb : option (fallback W)) (w : W) :
  fst (ChooseValue lib labelText inputType p fb w) = EmptyString
  <-> (rule_number lib labelText = Some 1%nat /\ PhoneNumber p = EmptyString)
      \/ (rule_number lib labelText = Some 4%nat /\ UserState p = EmptyString)
      \/ (rule_number lib labelText = Some 7%nat /\ ProfileURL p = EmptyString).
Proof.
  unfold ChooseValue, rule_number, label_rules, normalised.
  rewrite !containsAny_existsb.
  set (l := strings_ToLower lib (strings_TrimSpace lib labelText)).
  cbn [first_matching fst cue_matches].
  replace (existsb (Contains l) ["have you ever worked"])
    with (Contains l "have you ever worked") by (cbn; now rewrite orb_false_r).
  replace (existsb (Contains l) ["state"])
    with (Contains l "state") by (cbn; now rewrite orb_false_r).
  replace (forallb (Contains l) ["experience"; "year"])
    with (Contains l "experience" && Contains l "year")
    by (cbn; now rewrite andb_true_r).
  destruct (existsb (Contains l) ["phone"; "mobile"; "telephone"; "contact"]).
  { cbn [fst]. split; [now left|].
    intros [[_ H]|[[H _]|[H _]]]; [exact H | discriminate H | discriminate H]. }
  destruct (existsb (Contains l) ["city"; "location"; "reside"]).
  { cbn [fst]. split.
    - intros H. exfalso. revert H. apply append_nonempty_r. discriminate.
    - intros [[H _]|[[H _]|[H _]]]; discriminate H. }
  destruct (Contains l "have you ever worked").
  { cbn [fst]. split; [discriminate|].
    intros [[H _]|[[H _]|[H _]]]; discriminate H. }
  destruct (Contains l "state").
  { cbn [fst]. split; [intros H; right; now left|].
    intros [[H _]|[[_ H]|[H _]]]; [discriminate H | exact H | discriminate H]. }
  destruct (existsb (Contains l) ["salary"; "wage"; "income"; "compensation"]).
  { cbn [fst]. split; [intros H; now apply Itoa_nonempty in H|].
    intros [[H _]|[[H _]|[H _]]]; discriminate H. }
  destruct (Contains l "experience" && Contains l "year").
  { cbn [fst]. split; [intros H; now apply Itoa_nonempty in H|].
    intros [[H _]|[[H _]|[H _]]]; discriminate H. }
  destruct (existsb (Contains l) ["linkedin"; "linked-in"; "linked in"]).
  { cbn [fst]. split; [intros H; right; now right|].
    intros [[H _]|[[H _]|[_ H]]]; [discriminate H | discriminate H | exact H]. }
  split; [|intros [[H _]|[[H _]|[H _]]]; discriminate H].
  intros H. exfalso. revert H.
  destruct (String.eqb (strings_ToLower lib (strings_TrimSpace lib inputType))
              "number"); [apply Itoa_nonempty|].
  destruct fb as [f|]; [|apply Itoa_nonempty].
  destruct (f labelText inputType w) as [[ans [e|]] w']; [apply Itoa_nonempty|].
  destruct (String.eqb_spec (strings_TrimSpace lib ans) EmptyString);
    cbn [negb fst]; [apply Itoa_nonempty | assumption].
Qed.

(** C9.  [ChooseValue] is deterministic: with the fallback absent, or a pure
    function of the label and the input type, two calls with the same label,
    input type and profile return the same string, whatever the state of the
    world at each call, and leave the world as it is. *)
Theorem ChooseValue_deterministic (W : Type) (lib : GoLib)
    (labelText inputType : string) (p : LinkedInProfile)
    (fb : option (fallback W)) :
  pure_fallback fb ->
  forall w1 w2 : W,
    fst (ChooseValue lib labelText inputType p fb w1)
    = fst (ChooseValue lib labelText inputType p fb w2)
    /\ snd (ChooseValue lib labelText inputType p fb w1) = w1.
Proof.
  intros Hpure w1 w2. unfold ChooseValue.
  repeat match goal with
         | |- context [if ?c then _ else _] =>
             lazymatch c with
             | negb _ => fail
             | _ => destruct c; [split; reflexivity|]
             end
         end.
  destruct fb as [g|]; [|split; reflexivity].
  destruct Hpure as [f Hf]. rewrite !Hf.
  destruct (f labelText inputType) as [ans [e|]]; [split; reflexivity|].
  destruct (negb (String.eqb (strings_TrimSpace lib ans) EmptyString));
    split; reflexivity.
Qed.

Lemma ChooseValue_deterministic_witness :
  pure_fallback (Some (fun (_ _ : string) (w : nat) => ((" yes ", @None error), w)))
  /\ fst (ChooseValue ascii_lib "Favorite color" "text" sample_profile
            (Some (fun _ _ w => ((" yes ", None), w))) 0%nat)
     = fst (ChooseValue ascii_lib "Favorite color" "text" sample_profile
            (Some (fun _ _ w => ((" yes ", None), w))) 1%nat).
Proof.
  assert (Hpure : pure_fallback
            (Some (fun (_ _ : string) (w : nat) => ((" yes ", @None error), w)))).
  { exists (fun _ _ => (" yes ", None)). reflexivity. }
  split.
  - exact Hpure.
  - exact (proj1 (ChooseValue_deterministic nat ascii_lib "Favorite color" "text"
                    sample_profile _ Hpure 0%nat 1%nat)).
Defined.

(** ** Computations *)

Section Computation_facts.
Variable W : Type.
Local Open Scope list_scope.

Lemma post_ret {A : Type} (a : A) (w : W) (Q : A -> W -> list event -> Prop) :
  Q a w [] -> post (ret a) w Q.
Proof. intros H. exact H. Qed.

Lemma post_bind {A B : Type} (m : M W A) (f : A -> M W B) (w : W)
    (Q : B -> W -> list event -> Prop) :
  post m w (fun a w1 e1 => post (f a) w1 (fun b w2 e2 => Q b w2 (e1 ++ e2))) ->
  post (bind m f) w Q.
Proof.
  unfold post, bind. destruct (out (m w)) as [a|]; [|contradiction].
  cbn. destruct (out (f a (world (m w)))); [|contradiction].
  intros H. exact H.
Qed.

Lemma post_liftW {A : Type} (f : W -> A * W) (w : W)
    (Q : A -> W -> list event -> Prop) :
  Q (fst (f w)) (snd (f w)) [] -> post (liftW f) w Q.
Proof. unfold post, liftW. destruct (f w) as [a w']. intros H. exact H. Qed.

Lemma post_modW (f : W -> W) (w : W) (Q : unit -> W -> list event -> Prop) :
  Q tt (f w) [] -> post (modW f) w Q.
Proof. intros H. exact H. Qed.

Lemma post_emit (e : event) (w : W) (Q : unit -> W -> list event -> Prop) :
  Q tt w [e] -> post (emit e) w Q.
Proof. intros H. exact H. Qed.

Lemma post_conseq {A : Type} (m : M W A) (w : W)
    (Q Q' : A -> W -> list event -> Prop) :
  post m w Q -> (forall a w' e, Q a w' e -> Q' a w' e) -> post m w Q'.
Proof.
  unfold post. destruct (out (m w)); [|contradiction]. intros H HQ. now apply HQ.
Qed.

Lemma post_and {A : Type} (m : M W A) (w : W)
    (Q Q' : A -> W -> list event -> Prop) :
  post m w Q -> post m w Q' -> post m w (fun a w' e => Q a w' e /\ Q' a w' e).
Proof.
  unfold post. destruct (out (m w)); [|contradiction]. now split.
Qed.

Lemma post_elim {A : Type} (m : M W A) (w : W)
    (Q : A -> W -> list event -> Prop) :
  post m w Q ->
  exists a, out (m w) = Ret a /\ Q a (world (m w)) (events (m w)).
Proof.
  unfold post. destruct (out (m w)) as [a|]; [|contradiction].
  intros H. now exists a.
Qed.

(** What [post] gives can be named by the run itself. *)
Lemma post_run {A : Type} (m : M W A) (w : W)
    (Q : A -> W -> list event -> Prop) :
  post m w Q ->
  post m w (fun a w' e =>
    Q a w' e /\ out (m w) = Ret a /\ w' = world (m w) /\ e = events (m w)).
Proof.
  unfold post. destruct (out (m w)) as [a|]; [|contradiction]. auto.
Qed.

Lemma emits_ret {A : Type} (P : event -> Prop) (a : A) : emits P (ret (W:=W) a).
Proof. intros w. constructor. Qed.

Lemma emits_panic {A : Type} (P : event -> Prop) : emits P (panic (W:=W) (A:=A)).
Proof. intros w. constructor. Qed.

Lemma emits_liftW {A : Type} (P : event -> Prop) (f : W -> A * W) :
  emits P (liftW f).
Proof. intros w. unfold liftW. destruct (f w). constructor. Qed.

Lemma emits_modW (P : event -> Prop) (f : W -> W) : emits P (modW f).
Proof. intros w. constructor. Qed.

Lemma emits_emit (P : event -> Prop) (e : event) : P e -> emits P (emit (W:=W) e).
Proof. intros H w. cbn. auto. Qed.

Lemma emits_bind {A B : Type} (P : event -> Prop) (m : M W A) (f : A -> M W B) :
  emits P m -> (forall a, emits P (f a)) -> emits P (bind m f).
Proof.
  intros Hm Hf w. unfold bind. specialize (Hm w).
  destruct (out (m w)) as [a|]; cbn.
  - apply Forall_app. split; [exact Hm | apply Hf].
  - exact Hm.
Qed.

(** A computation that always returns emits what its postcondition says. *)
Lemma post_emits {A : Type} (P : event -> Prop) (m : M W A) :
  (forall w, post m w (fun _ _ e => Forall P e)) -> emits P m.
Proof.
  intros H w. specialize (H w). unfold post in H.
  destruct (out (m w)); [exact H | contradiction].
Qed.

End Computation_facts.

(** ** Computations that may panic *)

Section May_facts.
Variable W : Type.
Local Open Scope list_scope.

Lemma may_ret {A : Type} (a : A) (w : W) (Q : A -> W -> list event -> Prop) :
  Q a w [] -> may (ret a) w Q.
Proof. intros H. exact H. Qed.

Lemma may_panic {A : Type} (w : W) (Q : A -> W -> list event -> Prop) :
  may panic w Q.
Proof. exact I. Qed.

Lemma may_bind {A B : Type} (m : M W A) (f : A -> M W B) (w : W)
    (Q : B -> W -> list event -> Prop) :
  may m w (fun a w1 e1 => may (f a) w1 (fun b w2 e2 => Q b w2 (e1 ++ e2))) ->
  may (bind m f) w Q.
Proof.
  unfold may, bind. destruct (out (m w)) as [a|]; [|trivial].
  cbn. destruct (out (f a (world (m w)))); trivial.
Qed.

Lemma may_liftW {A : Type} (f : W -> A * W) (w : W)
    (Q : A -> W -> list event -> Prop) :
  Q (fst (f w)) (snd (f w)) [] -> may (liftW f) w Q.
Proof. unfold may, liftW. destruct (f w) as [a w']. intros H. exact H. Qed.

Lemma may_modW (f : W -> W) (w : W) (Q : unit -> W -> list event -> Prop) :
  Q tt (f w) [] -> may (modW f) w Q.
Proof. intros H. exact H. Qed.

Lemma may_emit (e : event) (w : W) (Q : unit -> W -> list event -> Prop) :
  Q tt w [e] -> may (emit e) w Q.
Proof. intros H. exact H. Qed.

Lemma may_conseq {A : Type} (m : M W A) (w : W)
    (Q Q' : A -> W -> list event -> Prop) :
  may m w Q -> (forall a w' e, Q a w' e -> Q' a w' e) -> may m w Q'.
Proof.
  unfold may. destruct (out (m w)); [|trivial]. intros H HQ. now apply HQ.
Qed.

Lemma post_may {A : Type} (m : M W A) (w : W)
    (Q : A -> W -> list event -> Prop) :
  post m w Q -> may m w Q.
Proof. unfold post, may. destruct (out (m w)); [trivial | contradiction]. Qed.

Lemma may_elim {A : Type} (m : M W A) (w : W) (a : A)
    (Q : A -> W -> list event -> Prop) :
  may m w Q -> out (m w) = Ret a -> Q a (world (m w)) (events (m w)).
Proof. unfold may. intros H E. now rewrite E in H. Qed.

Lemma bind_panics {A B : Type} (m : M W A) (f : A -> M W B) (w : W) :
  out (m w) = Panic ->
  out (bind m f w) = Panic /\ events (bind m f w) = events (m w).
Proof. unfold bind. intros ->. split; reflexivity. Qed.

Lemma bind_returns {A B : Type} (m : M W A) (f : A -> M W B) (w : W) (a : A) :
  out (m w) = Ret a ->
  out (bind m f w) = out (f a (world (m w)))
  /\ world (bind m f w) = world (f a (world (m w)))
  /\ events (bind m f w) = events (m w) ++ events (f a (world (m w))).
Proof. unfold bind. intros ->. repeat split. Qed.

End May_facts.

(** One step of a computation under [may]. *)
Ltac may_step :=
  lazymatch goal with
  | |- may (bind _ _) _ _ => apply may_bind
  | |- may (liftW _) _ _ => apply may_liftW
  | |- may (modW _) _ _ => apply may_modW
  | |- may (emit _) _ _ => apply may_emit
  | |- may (ret _) _ _ => apply may_ret
  | |- may panic _ _ => apply may_panic
  | |- may (match ?x with _ => _ end) _ _ => destruct x
  end; cbv beta.

Ltac may_steps := repeat may_step.

(** ** Computations, whatever their outcome *)

Section Ends_facts.
Variable W : Type.
Local Open Scope list_scope.

Lemma ends_ret {A : Type} (a : A) (w : W)
    (R : outcome A -> W -> list event -> Prop) :
  R (Ret a) w [] -> ends (ret a) w R.
Proof. intros H. exact H. Qed.

Lemma ends_panic {A : Type} (w : W) (R : outcome A -> W -> list event -> Prop) :
  R Panic w [] -> ends (panic (A:=A)) w R.
Proof. intros H. exact H. Qed.

Lemma ends_bind {A B : Type} (m : M W A) (f : A -> M W B) (w : W)
    (R : outcome B -> W -> list event -> Prop) :
  ends m w (fun o w1 e1 =>
              match o with
              | Ret a => ends (f a) w1 (fun o2 w2 e2 => R o2 w2 (e1 ++ e2))
              | Panic => R Panic w1 e1
              end) ->
  ends (bind m f) w R.
Proof.
  unfold ends, bind. destruct (out (m w)) as [a|]; intros H; exact H.
Qed.

Lemma ends_liftW {A : Type} (f : W -> A * W) (w : W)
    (R : outcome A -> W -> list event -> Prop) :
  R (Ret (fst (f w))) (snd (f w)) [] -> ends (liftW f) w R.
Proof. unfold ends, liftW. destruct (f w) as [a w']. intros H. exact H. Qed.

Lemma ends_modW (f : W -> W) (w : W)
    (R : outcome unit -> W -> list event -> Prop) :
  R (Ret tt) (f w) [] -> ends (modW f) w R.
Proof. intros H. exact H. Qed.

Lemma ends_emit (e : event) (w : W)
    (R : outcome unit -> W -> list event -> Prop) :
  R (Ret tt) w [e] -> ends (emit e) w R.
Proof. intros H. exact H. Qed.

Lemma ends_conseq {A : Type} (m : M W A) (w : W)
    (R R' : outcome A -> W -> list event -> Prop) :
  ends m w R -> (forall o w' e, R o w' e -> R' o w' e) -> ends m w R'.
Proof. unfold ends. intros H HR. now apply HR. Qed.

Lemma ends_and {A : Type} (m : M W A) (w : W)
    (R R' : outcome A -> W -> list event -> Prop) :
  ends m w R -> ends m w R' -> ends m w (fun o w' e => R o w' e /\ R' o w' e).
Proof. unfold ends. now split. Qed.

Lemma emits_ends {A : Type} (Q : event -> Prop) (m : M W A) (w : W) :
  emits Q m -> ends m w (fun _ _ e => Forall Q e).
Proof. intros H. apply H. Qed.

Lemma may_ends {A : Type} (m : M W A) (w : W)
    (Q : A -> W -> list event -> Prop) :
  may m w Q ->
  ends m w (fun o w' e => match o with Ret a => Q a w' e | Panic => True end).
Proof. unfold may, ends. now destruct (out (m w)). Qed.

Lemma post_ends {A : Type} (m : M W A) (w : W)
    (Q : A -> W -> list event -> Prop) :
  post m w Q ->
  ends m w (fun o w' e => match o with Ret a => Q a w' e | Panic => False end).
Proof. unfold post, ends. now destruct (out (m w)). Qed.

Lemma ends_may {A : Type} (m : M W A) (w : W)
    (Q : A -> W -> list event -> Prop) :
  ends m w (fun o w' e => match o with Ret a => Q a w' e | Panic => True end) ->
  may m w Q.
Proof. unfold may, ends. now destruct (out (m w)). Qed.

Lemma may_any {A : Type} (m : M W A) (w : W) : may m w (fun _ _ _ => True).
Proof. unfold may. now destruct (out (m w)). Qed.

End Ends_facts.

Ltac ends_step :=
  lazymatch goal with
  | |- ends (bind _ _) _ _ => apply ends_bind
  | |- ends (liftW _) _ _ => apply ends_liftW
  | |- ends (modW _) _ _ => apply ends_modW
  | |- ends (emit _) _ _ => apply ends_emit
  | |- ends (ret _) _ _ => apply ends_ret
  | |- ends panic _ _ => apply ends_panic
  | |- ends (match ?x with _ => _ end) _ _ => destruct x
  end; cbv beta iota; cbn [fst snd app].

Ltac ends_steps := repeat ends_step.

(** One step, keeping the equation of a case distinction. *)
Ltac ends_case :=
  lazymatch goal with
  | |- ends (match ?x with _ => _ end) _ _ => destruct x eqn:?
  | _ => ends_step
  end; cbv beta iota; cbn [fst snd app].

(** What made a part of a computation panic made the whole panic. *)
Ltac cut_by H := first [exact H | intros _; apply H; reflexivity].

(** A step through a computation that is known to return. *)
Ltac ends_post lem :=
  apply ends_bind; eapply ends_conseq; [apply post_ends; apply lem|]; cbv beta.

(** A step through one that may panic. *)
Ltac ends_with lem :=
  apply ends_bind; eapply ends_conseq; [apply lem|]; cbv beta.

(** ** Scanning a run *)

Section Trace_facts.
Local Open Scope list_scope.

Lemma guarded_weaken (tr : list event) (armed : bool) :
  guarded false tr = true -> guarded armed tr = true.
Proof.
  destruct tr as [|e tr]; [reflexivity|].
  destruct e; cbn; try (intros H; exact H). discriminate.
Qed.

Lemma guarded_cons (e : event) (tr : list event) (armed : bool) :
  is_click e = false -> guarded false tr = true -> guarded armed (e :: tr) = true.
Proof.
  intros He H. destruct e; try discriminate; cbn; try exact H.
  destruct present; [exact H|]. now apply guarded_weaken.
Qed.

Lemma guarded_app (l1 l2 : list event) (armed : bool) :
  guarded armed l1 = true -> guarded false l2 = true ->
  guarded armed (l1 ++ l2) = true.
Proof.
  revert armed. induction l1 as [|e l1 IH]; intros armed H1 H2.
  - now apply guarded_weaken.
  - destruct e; cbn in H1 |- *; try (now apply IH).
    + destruct present; now apply IH.
    + apply andb_true_iff in H1 as [-> H1]. cbn. now apply IH.
Qed.

Lemma guarded_passive (tr : list event) (armed : bool) :
  Forall (fun e => passive e = true) tr -> guarded armed tr = true.
Proof.
  intros H. revert armed. induction H as [|e tr He _ IH]; intros armed.
  - reflexivity.
  - apply guarded_cons; [|apply IH]. destruct e; try discriminate; reflexivity.
Qed.

(** The scan decides [clicks_guarded]. *)
Lemma guarded_sound (tr : list event) :
  guarded false tr = true -> clicks_guarded tr.
Proof.
  assert (H : forall tr armed, guarded armed tr = true ->
            forall l1 loc err l2, tr = l1 ++ EvClick loc err :: l2 ->
              (l1 = [] /\ armed = true)
              \/ exists l1', l1 = l1' ++ [EvIsPresent errorLoc false]).
  { clear tr. induction tr as [|e tr IH]; intros armed Hg l1 loc err l2 Heq.
    - destruct l1; discriminate.
    - destruct l1 as [|e1 l1]; cbn in Heq; injection Heq as -> Htr.
      + left. split; [reflexivity|]. cbn in Hg.
        now apply andb_true_iff in Hg as [-> _].
      + right.
        assert (Hnext : exists armed', guarded armed' tr = true
                  /\ (armed' = true -> e1 = EvIsPresent errorLoc false)).
        { destruct e1; cbn in Hg;
            try (exists false; split; [exact Hg | discriminate]).
          - destruct present.
            + exists false. split; [exact Hg | discriminate].
            + exists (locator_eqb loc0 errorLoc). split; [exact Hg|].
              intros Heqb. f_equal. unfold locator_eqb in Heqb.
              apply andb_true_iff in Heqb as [Hk Hq].
              apply String.eqb_eq in Hk, Hq. destruct loc0; cbn in *. now subst.
          - apply andb_true_iff in Hg as [_ Hg].
            exists false. split; [exact Hg | discriminate]. }
        destruct Hnext as (armed' & Hg' & Harmed).
        destruct (IH armed' Hg' l1 loc err l2 Htr) as [[-> Ha] | [l1' ->]].
        * exists []. cbn. now rewrite Harmed.
        * exists (e1 :: l1'). reflexivity. }
  intros Hg l1 loc err l2 Heq.
  destruct (H tr false Hg l1 loc err l2 Heq) as [[_ Hf] | Hex];
    [discriminate | exact Hex].
Qed.

Lemma iterations_app (l1 l2 : list event) :
  iterations (l1 ++ l2) = (iterations l1 + iterations l2)%nat.
Proof. unfold iterations. now rewrite filter_app, length_app. Qed.

Lemma iterations_none (tr : list event) :
  Forall (fun e => is_iter e = false) tr -> iterations tr = 0%nat.
Proof.
  unfold iterations. induction 1 as [|e tr He _ IH]; cbn.
  - reflexivity.
  - now rewrite He.
Qed.

Lemma confirmed_app (l1 l2 : list event) :
  confirmed (l1 ++ l2) = confirmed l1 ++ confirmed l2.
Proof. unfold confirmed. apply flat_map_app. Qed.


Lemma passive_not_iter (tr : list event) :
  Forall (fun e => passive e = true) tr -> Forall (fun e => is_iter e = false) tr.
Proof. apply Forall_impl. intros e. destruct e; try discriminate; reflexivity. Qed.

Lemma passive_wizard (tr : list event) :
  Forall (fun e => passive e = true) tr -> Forall (fun e => wizard_event e = true) tr.
Proof. apply Forall_impl. intros e. destruct e; try discriminate; reflexivity. Qed.

(** The block structure gives the two orderings of the error-handling
    pass. *)
Lemma iter_blocks_handled_first (tr : list event) :
  iter_blocks tr -> handled_first tr.
Proof.
  induction 1 as [|i body rest Hbody _ IH]; intros l1 j l2 Heq.
  - destruct l1; discriminate.
  - destruct l1 as [|e1 l1]; cbn in Heq; injection Heq as He Htl.
    + exists (body ++ rest). now rewrite <- Htl.
    + destruct l1 as [|e2 l1]; cbn in Htl; [discriminate|].
      injection Htl as _ Htl.
      assert (Hsplit : forall body l1, Forall (fun e => is_iter e = false) body ->
                body ++ rest = l1 ++ EvIter j :: l2 ->
                exists l1', rest = l1' ++ EvIter j :: l2).
      { clear - rest. induction body as [|b body IHb]; intros l1 Hb Heq.
        - now exists l1.
        - inversion Hb as [|? ? Hb1 Hb2]; subst.
          destruct l1 as [|x l1]; cbn in Heq; injection Heq as Hx Heq.
          + subst b. discriminate.
          + now apply (IHb l1). }
      destruct (Hsplit body l1 Hbody Htl) as [l1' Hrest].
      exact (IH l1' j l2 Hrest).
Qed.

Lemma iter_blocks_handled_before_click (tr : list event) :
  iter_blocks tr -> handled_before_click tr.
Proof.
  induction 1 as [|i body rest Hbody _ IH]; intros l1 loc err l2 Heq.
  - destruct l1; discriminate.
  - destruct l1 as [|e1 l1]; cbn in Heq; [discriminate|].
    injection Heq as He Htl.
    destruct l1 as [|e2 l1]; cbn in Htl; [discriminate|].
    injection Htl as He2 Htl. subst e1 e2.
    assert (Hsplit : forall body l1, Forall (fun e => is_iter e = false) body ->
              body ++ rest = l1 ++ EvClick loc err :: l2 ->
              (Forall (fun e => is_iter e = false) l1)
              \/ exists l1', l1 = body ++ l1' /\ rest = l1' ++ EvClick loc err :: l2).
    { clear - rest. induction body as [|b body IHb]; intros l1 Hb Heq.
      - right. now exists l1.
      - inversion Hb as [|? ? Hb1 Hb2]; subst.
        destruct l1 as [|x l1]; cbn in Heq.
        + left. constructor.
        + injection Heq as Hx Heq. subst x.
          destruct (IHb l1 Hb2 Heq) as [Hl | (l1' & -> & Hr)].
          * left. now constructor.
          * right. now exists l1'. }
    destruct (Hsplit body l1 Hbody Htl) as [Hl | (l1' & -> & Hr)].
    + exists [], i, l1. now split.
    + destruct (IH l1' loc err l2 Hr) as (a & k & b & -> & Hb).
      exists (EvIter i :: EvHandleInlineErrors :: body ++ a), k, b.
      split; [|exact Hb]. cbn. now rewrite <- app_assoc.
Qed.

End Trace_facts.

(** ** The wizard loop *)

(** One step of a computation under [post]. *)
Ltac post_step :=
  lazymatch goal with
  | |- post (bind _ _) _ _ => apply post_bind
  | |- post (liftW _) _ _ => apply post_liftW
  | |- post (modW _) _ _ => apply post_modW
  | |- post (emit _) _ _ => apply post_emit
  | |- post (ret _) _ _ => apply post_ret
  | |- post (match ?x with _ => _ end) _ _ => destruct x
  end; cbv beta.

Ltac post_steps := repeat post_step.

Section Wizard_facts.
Variables W Elem Frame : Type.
Variable lib : GoLib.
Variable env : Env W Elem Frame.
Variable profile : LinkedInProfile.
Local Open Scope list_scope.

Lemma isPresent_iframes_post (loc : locator) (iframes : list Elem) (w : W) :
  post (isPresent_iframes env loc iframes) w (fun _ _ e => e = []).
Proof.
  revert w. induction iframes as [|iframe rest IH]; intros w; cbn [isPresent_iframes].
  - post_steps. reflexivity.
  - post_steps; try reflexivity;
      (eapply post_conseq; [apply IH|]; cbv beta; intros _ _ e ->; reflexivity).
Qed.

Lemma isPresent_post (loc : locator) (w : W) :
  post (isPresent env loc) w (fun b _ e => e = [EvIsPresent loc b]).
Proof.
  unfold isPresent. post_steps; try reflexivity.
  eapply post_conseq; [apply isPresent_iframes_post|].
  cbv beta. intros b w' e ->. post_steps. reflexivity.
Qed.


Lemma attr_post (el : Elem) (name : string) (w : W) :
  post (attr lib env el name) w (fun _ _ e => e = []).
Proof. unfold attr. post_steps; reflexivity. Qed.

Lemma isEmpty_post (el : Elem) (w : W) :
  post (isEmpty lib env el) w (fun _ _ e => e = []).
Proof.
  unfold isEmpty. post_step.
  eapply post_conseq; [apply attr_post|]. cbv beta. intros v w' e ->.
  post_steps. reflexivity.
Qed.

Lemma isRequired_post (el : Elem) (w : W) :
  post (isRequired lib env el) w (fun _ _ e => e = []).
Proof.
  unfold isRequired. post_step.
  eapply post_conseq; [apply attr_post|]. cbv beta. intros a w' e ->.
  destruct (strings_EqualFold lib a "true"); post_steps; try reflexivity.
  eapply post_conseq; [apply attr_post|]. cbv beta. intros c w'' e ->.
  destruct (Contains (strings_ToLower lib c) "required"); post_steps; reflexivity.
Qed.

Lemma clearAndType_post (el : Elem) (text : string) (w : W) :
  post (clearAndType env el text) w (fun _ _ e => e = []).
Proof. unfold clearAndType. post_steps; reflexivity. Qed.

Lemma labelledby_parts_post (page : Elem) (ids parts : list string) (w : W) :
  post (labelledby_parts lib env page ids parts) w (fun _ _ e => e = []).
Proof.
  revert parts w. induction ids as [|one rest IH]; intros parts w;
    cbn [labelledby_parts].
  - post_steps. reflexivity.
  - post_steps;
      (eapply post_conseq; [apply IH|]; cbv beta; intros _ _ ev ->; reflexivity).
Qed.

Lemma getBestLabelText_post (page el : Elem) (w : W) :
  post (getBestLabelText lib env page el) w (fun _ _ e => e = []).
Proof.
  unfold getBestLabelText, attr.
  post_steps; try reflexivity;
    (eapply post_conseq; [apply labelledby_parts_post|]; cbv beta;
     intros parts w' ev ->; post_steps; reflexivity).
Qed.

Lemma FillInvalids_inputs_post (page : Elem) (fb : option (fallback W))
    (inputs : list Elem) (w : W) :
  post (FillInvalids_inputs lib env page profile fb inputs) w
    (fun _ _ e => Forall (fun x => passive x = true) e).
Proof.
  revert w. induction inputs as [|inputEl rest IH]; intros w;
    cbn [FillInvalids_inputs].
  - post_steps. constructor.
  - post_step.
    eapply post_conseq; [apply isEmpty_post|]. cbv beta. intros e1 w1 ev1 ->.
    post_step.
    assert (Hreq : post (if e1 then isRequired lib env inputEl else ret false) w1
                     (fun _ _ e => e = [])).
    { destruct e1; [apply isRequired_post | now apply post_ret]. }
    eapply post_conseq; [exact Hreq|]. cbv beta. intros r w2 ev2 ->.
    post_step.
    destruct r.
    + post_step.
      eapply post_conseq; [apply getBestLabelText_post|]. cbv beta.
      intros labelText w3 ev3 ->. post_step.
      eapply post_conseq; [apply attr_post|]. cbv beta. intros t w4 ev4 ->.
      post_step. post_step. post_step.
      eapply post_conseq; [apply clearAndType_post|]. cbv beta.
      intros err w5 ev5 ->.
      post_steps;
        (eapply post_conseq; [apply IH|]; cbv beta; intros _ w6 ev6 Hev6;
         cbn [app]; constructor; [reflexivity | exact Hev6]).
    + post_step.
      eapply post_conseq; [apply IH|]. cbv beta. intros _ w4 ev4 Hev4.
      exact Hev4.
Qed.

Lemma FillInvalids_post (page : Elem) (fb : option (fallback W)) (w : W) :
  post (FillInvalids lib env page profile fb) w
    (fun err _ e => err = None /\ Forall (fun x => passive x = true) e).
Proof.
  unfold FillInvalids. post_steps.
  eapply post_conseq; [apply FillInvalids_inputs_post|]. cbv beta.
  intros _ w' e He. post_steps. split; [reflexivity|].
  cbn [app]. now rewrite app_nil_r.
Qed.

(** The loop over the iframes returns or panics, having only looked at the
    page and logged fields; it panics only on a host without shadow
    root. *)
Lemma handleInlineErrors_iframes_ends (iframes : list Elem) (w : W) :
  ends (handleInlineErrors_iframes lib env profile iframes) w
    (fun o _ e => Forall (fun x => passive x = true) e
                  /\ (o = Panic -> lacks_shadow_root env)).
Proof.
  revert w. induction iframes as [|iframe rest IH]; intros w;
    cbn [handleInlineErrors_iframes].
  - ends_steps. split; [constructor | discriminate].
  - repeat ends_case;
      try (eapply ends_conseq; [apply IH|]; cbv beta; intros o ? ev H; exact H).
    + eapply ends_conseq; [apply post_ends; apply FillInvalids_post|]. cbv beta.
      intros [err|] w' ev; [intros [_ He] | contradiction].
      eapply ends_conseq; [apply IH|]. cbv beta. intros o ? ev' [He' Hc].
      split; [apply Forall_app; now split | exact Hc].
    + split; [constructor|]. intros _.
      eexists. eexists. eexists. split; eassumption.
Qed.

Lemma handleInlineErrors_ends (w : W) :
  ends (handleInlineErrors lib env profile) w
    (fun o _ e => (exists h, e = EvHandleInlineErrors :: h
                             /\ Forall (fun x => passive x = true) h)
                  /\ (o = Panic -> lacks_shadow_root env)).
Proof.
  unfold handleInlineErrors. ends_step. ends_step.
  ends_post isPresent_post. intros [b|] w' e; [intros -> | contradiction].
  destruct b; cbn [negb].
  - ends_step. ends_step.
    eapply ends_conseq; [apply handleInlineErrors_iframes_ends|]. cbv beta.
    intros o ? ev [He Hc]. split; [|exact Hc].
    eexists. split; [reflexivity|]. constructor; [reflexivity | exact He].
  - ends_steps. split; [|discriminate].
    eexists. split; [reflexivity|]. repeat constructor.
Qed.

Lemma clickWhenClickable_iframes_post (loc : locator) (iframes : list Elem) (w : W) :
  post (clickWhenClickable_iframes env loc iframes) w (fun _ _ e => e = []).
Proof.
  revert w. induction iframes as [|iframe rest IH]; intros w;
    cbn [clickWhenClickable_iframes].
  - post_steps. reflexivity.
  - post_steps; try reflexivity.
    eapply post_conseq; [apply IH|]. cbv beta. intros _ _ e ->. reflexivity.
Qed.

Lemma clickWhenClickable_post (loc : locator) (w : W) :
  post (clickWhenClickable env loc) w (fun err _ e => e = [EvClick loc err]).
Proof.
  unfold clickWhenClickable. post_step.
  assert (Hfound : post
            (if String.eqb (kind loc) "xpath"
             then liftW (page_ElementX env 2000 (q loc))
             else liftW (page_Element env 2000 (q loc))) w
            (fun _ _ e => e = [])).
  { destruct (String.eqb (kind loc) "xpath"); now apply post_liftW. }
  eapply post_conseq; [exact Hfound|]. cbv beta. intros found w1 e ->.
  post_steps; try reflexivity.
  eapply post_conseq; [apply clickWhenClickable_iframes_post|]. cbv beta.
  intros pressed w2 e ->. post_steps; reflexivity.
Qed.


(** *** The shape of every run *)

Lemma inner_trace_passive (tr : list event) :
  Forall (fun e => passive e = true) tr -> inner_trace tr.
Proof.
  intros H. repeat split.
  - now apply guarded_passive.
  - now apply passive_not_iter.
  - now apply passive_wizard.
Qed.

Lemma inner_trace_app (l1 l2 : list event) :
  inner_trace l1 -> inner_trace l2 -> inner_trace (l1 ++ l2).
Proof.
  intros (G1 & I1 & W1) (G2 & I2 & W2). repeat split.
  - now apply guarded_app.
  - apply Forall_app. now split.
  - apply Forall_app. now split.
Qed.

Lemma inner_trace_handle (h : list event) :
  Forall (fun e => passive e = true) h -> inner_trace (EvHandleInlineErrors :: h).
Proof.
  intros H. apply (inner_trace_app [EvHandleInlineErrors] h).
  - repeat split; repeat constructor.
  - now apply inner_trace_passive.
Qed.

(** What holds of the events of a run, whether it returned or was cut by a
    panic, and that only a host without shadow root makes it panic. *)
Local Abbreviation shaped P :=
  (fun o _ e => P e /\ (o = Panic -> lacks_shadow_root env)).

Lemma inner_loop_continue (j : Z) (rest : list locator) (submitted : bool) :
  (forall w, ends (inner_loop lib env profile j rest submitted) w
               (shaped inner_trace)) ->
  forall w,
    ends (bind (handleInlineErrors lib env profile)
               (fun _ => inner_loop lib env profile j rest submitted)) w
      (shaped inner_trace).
Proof.
  intros IH w. ends_with handleInlineErrors_ends.
  intros [u|] w1 ev1 [(h & -> & Hh) Hc].
  - eapply ends_conseq; [apply IH|]. cbv beta. intros o w2 ev2 [Hev2 Hc2].
    split; [|cut_by Hc2].
    apply inner_trace_app; [now apply inner_trace_handle | exact Hev2].
  - split; [now apply inner_trace_handle | cut_by Hc].
Qed.

Lemma inner_loop_ends (bs : list locator) (j : Z) (submitted : bool) (w : W) :
  ends (inner_loop lib env profile j bs submitted) w (shaped inner_trace).
Proof.
  revert j w. induction bs as [|loc rest IH]; intros j w; cbn [inner_loop].
  - ends_steps. split; [|discriminate]. apply inner_trace_passive. constructor.
  - pose proof (inner_loop_continue (j + 1) rest submitted (IH (j + 1)))
      as Hcont.
    ends_post isPresent_post. intros [b|] w1 ev1; [intros -> | contradiction].
    destruct b.
    + ends_step. unfold hasErrors.
      ends_post isPresent_post. intros [eb|] w2 ev2; [intros -> | contradiction].
      ends_step. destruct eb; cbn [negb].
      * eapply ends_conseq; [apply Hcont|]. cbv beta. intros o w3 ev3 [Hev3 Hc].
        split; [|cut_by Hc].
        apply (inner_trace_app [_; _] ev3); [|exact Hev3].
        apply inner_trace_passive. repeat constructor.
      * ends_post clickWhenClickable_post.
        intros [err|] w3 ev3; [intros -> | contradiction].
        assert (Hhead : inner_trace
                  [EvIsPresent loc true; EvIsPresent errorLoc false; EvClick loc err]).
        { repeat split; repeat constructor. }
        destruct err as [msg|].
        -- eapply ends_conseq; [apply Hcont|]. cbv beta.
           intros o w4 ev4 [Hev4 Hc]. split; [|cut_by Hc].
           apply (inner_trace_app [_; _; _] ev4); assumption.
        -- destruct (j =? 3).
           { ends_steps. split; [exact Hhead | discriminate]. }
           destruct (j =? 0).
           { ends_steps. split; [exact Hhead | discriminate]. }
           eapply ends_conseq; [apply Hcont|]. cbv beta.
           intros o w4 ev4 [Hev4 Hc]. split; [|cut_by Hc].
           apply (inner_trace_app [_; _; _] ev4); assumption.
    + ends_step. ends_step.
      eapply ends_conseq; [apply Hcont|]. cbv beta. intros o w3 ev3 [Hev3 Hc].
      split; [|cut_by Hc].
      apply (inner_trace_app [_] ev3); [|exact Hev3].
      apply inner_trace_passive. repeat constructor.
Qed.

Lemma outer_trace_block (n : nat) (i : Z) (h body rest : list event) :
  Forall (fun x => passive x = true) h -> inner_trace body ->
  outer_trace n rest ->
  outer_trace (S n) (EvIter i :: EvHandleInlineErrors :: h ++ body ++ rest).
Proof.
  intros Hh Hin (Hb & Hg & Hw & Hn).
  pose proof (inner_trace_app _ _ (inner_trace_passive h Hh) Hin)
    as (Gb & Ib & Wb).
  rewrite app_assoc. repeat split.
  - now constructor.
  - apply guarded_cons; [reflexivity|].
    apply guarded_cons; [reflexivity|].
    now apply guarded_app.
  - constructor; [reflexivity|]. constructor; [reflexivity|].
    apply Forall_app. now split.
  - change (iterations ([EvIter i; EvHandleInlineErrors]
                        ++ ((h ++ body) ++ rest)) <= S n)%nat.
    rewrite (iterations_app [_; _]), (iterations_app (h ++ body)),
      (iterations_none (h ++ body) Ib).
    cbn. lia.
Qed.

Lemma outer_trace_nil (n : nat) : outer_trace n [].
Proof. repeat split; try constructor. cbn. lia. Qed.

Lemma outer_loop_ends (left : nat) (submitted : bool) (w : W) :
  ends (outer_loop lib env profile left submitted) w
    (shaped (outer_trace left)).
Proof.
  revert submitted w. induction left as [|left' IH]; intros submitted w;
    cbn [outer_loop].
  - ends_steps. split; [apply outer_trace_nil | discriminate].
  - destruct submitted.
    + ends_steps. split; [apply outer_trace_nil | discriminate].
    + ends_step. ends_step.
      ends_with handleInlineErrors_ends.
      intros [u|] w1 ev1 [(h & -> & Hh) Hc].
      * ends_with inner_loop_ends. intros [s|] w2 ev2 [Hin Hc2].
        -- eapply ends_conseq; [apply IH|]. cbv beta.
           intros o w3 ev3 [Hev3 Hc3]. split; [|cut_by Hc3].
           cbn [app]. now apply outer_trace_block.
        -- split; [|cut_by Hc2].
           cbn [app]. rewrite <- (app_nil_r ev2).
           apply outer_trace_block; [assumption | assumption |].
           apply outer_trace_nil.
      * split; [|cut_by Hc].
        cbn [app]. rewrite <- (app_nil_r h).
        apply (outer_trace_block left' _ h [] []);
          [assumption | | apply outer_trace_nil].
        apply inner_trace_passive. constructor.
Qed.

(** Every run of the function, returned or cut by a panic, has the shape of
    at most fifteen outer iterations; a run that returns gives a nil error,
    and a run panics only on a host without shadow root. *)
Lemma FillOutEasyApplyForm_ends (w : W) :
  ends (FillOutEasyApplyForm lib env profile) w
    (fun o _ e =>
       outer_trace 15 e
       /\ (forall r, o = Ret r -> snd r = None)
       /\ (o = Panic -> lacks_shadow_root env)).
Proof.
  unfold FillOutEasyApplyForm. ends_step. ends_step.
  ends_with outer_loop_ends. intros [s|] w1 ev1 [Hev1 Hc].
  - ends_steps. rewrite app_nil_r. split; [exact Hev1|].
    split; [|discriminate]. intros r Hr. injection Hr as <-. reflexivity.
  - split; [exact Hev1|]. split; [discriminate | cut_by Hc].
Qed.

End Wizard_facts.

(** C5.  In every run of the wizard loop, each outer iteration opens with
    the error-handling pass, so every action attempt comes after a run of
    [handleInlineErrors] in its own iteration; and every action attempt comes
    right after a check that found no inline error marker. *)
Theorem wizard_handles_errors_before_acting (W Elem Frame : Type) (lib : GoLib)
    (env : Env W Elem Frame) (profile : LinkedInProfile) (w : W) :
  handled_first (events (FillOutEasyApplyForm lib env profile w))
  /\ handled_before_click (events (FillOutEasyApplyForm lib env profile w))
  /\ clicks_guarded (events (FillOutEasyApplyForm lib env profile w)).
Proof.
  destruct (FillOutEasyApplyForm_ends W Elem Frame lib env profile w)
    as ((Hblocks & Hguarded & _) & _).
  repeat split.
  - now apply iter_blocks_handled_first.
  - now apply iter_blocks_handled_before_click.
  - now apply guarded_sound.
Qed.

(** *** When the submit button never shows *)

Section Never_submit.
Variables W Elem Frame : Type.
Variable lib : GoLib.
Variable env : Env W Elem Frame.
Variable profile : LinkedInProfile.
Hypothesis never : forall w, out (isPresent env submitLoc w) = Ret false.

Lemma inner_loop_not_submitted (bs : list locator) :
  forall j,
    (forall k loc, nth_error bs k = Some loc -> j + Z.of_nat k = 3 -> loc = submitLoc) ->
    forall w, may (inner_loop lib env profile j bs false) w (fun s _ _ => s = false).
Proof.
  induction bs as [|loc rest IH]; intros j Hal w; cbn [inner_loop].
  - may_steps. reflexivity.
  - assert (Hcont : forall w0,
              may (bind (handleInlineErrors lib env profile)
                      (fun _ => inner_loop lib env profile (j + 1) rest false)) w0
                (fun s _ _ => s = false)).
    { intros w0. may_step.
      eapply may_conseq; [apply may_any|]. cbv beta.
      intros _ w1 _ _. apply IH. intros k l Hk Hj.
      apply (Hal (S k) l); [exact Hk | lia]. }
    may_step.
    eapply may_conseq;
      [apply post_may; apply (post_run _ _ _ _ (isPresent_post _ _ _ env loc w))|].
    cbv beta. intros b w1 ev1 (_ & Hout & _ & _).
    destruct b.
    + assert (Hj : (j =? 3) = false).
      { destruct (Z.eqb_spec j 3) as [->|]; [|reflexivity].
        rewrite (Hal 0%nat loc eq_refl eq_refl), never in Hout. discriminate. }
      may_step. may_step. unfold hasErrors.
      eapply may_conseq; [apply post_may; apply isPresent_post|]. cbv beta.
      intros eb w2 ev2 _.
      may_step. destruct eb; cbn [negb].
      * apply Hcont.
      * may_step.
        eapply may_conseq; [apply post_may; apply clickWhenClickable_post|].
        cbv beta.
        intros err w3 ev3 _. destruct err as [msg|]; [apply Hcont|].
        rewrite Hj. destruct (j =? 0); [|apply Hcont].
        may_steps. reflexivity.
    + may_step. may_step. apply Hcont.
Qed.

Lemma outer_loop_not_submitted (left : nat) (w : W) :
  may (outer_loop lib env profile left false) w (fun s _ _ => s = false).
Proof.
  revert w. induction left as [|left' IH]; intros w; cbn [outer_loop].
  - may_steps. reflexivity.
  - may_steps.
    eapply may_conseq; [apply may_any|]. cbv beta.
    intros _ w1 _ _. may_step.
    eapply may_conseq; [apply (inner_loop_not_submitted buttons 0)|].
    + intros k loc Hk Hj. assert (k = 3%nat) as -> by lia.
      cbn in Hk. now injection Hk as <-.
    + cbv beta. intros s w2 _ ->. apply IH.
Qed.

(** If the function returns, it returns (false, nil). *)
Lemma FillOutEasyApplyForm_not_submitted (w : W) :
  may (FillOutEasyApplyForm lib env profile) w (fun r _ _ => r = (false, None)).
Proof.
  unfold FillOutEasyApplyForm. may_steps.
  eapply may_conseq; [apply outer_loop_not_submitted|]. cbv beta.
  intros s w1 _ ->. may_steps. reflexivity.
Qed.

End Never_submit.

(** *** On a modal that is not a shadow host *)

Section Without_shadow_root.
Variables W Elem Frame : Type.
Variable lib : GoLib.
Variable env : Env W Elem Frame.
Variable profile : LinkedInProfile.
Local Open Scope list_scope.

(** The page has an iframe, every iframe shows the inline error marker and
    holds the host of the modal, and the host has no shadow root. *)
Hypothesis framed : forall w, fst (page_Elements env "iframe" w) <> [].
Hypothesis marked : forall f w, fst (frame_Has env f errorMessageSel w) <> None.
Hypothesis rootless :
  forall f w, exists h,
    fst (frame_Element env f ".jobs-easy-apply-modal" w) = Some h
    /\ fst (el_ShadowRoot env h
              (snd (frame_Element env f ".jobs-easy-apply-modal" w))) = None.

Lemma isPresent_marked (w : W) :
  ends (isPresent env errorLoc) w
    (fun o _ e => o = Ret true /\ e = [EvIsPresent errorLoc true]).
Proof.
  unfold isPresent. ends_step. ends_step. repeat ends_case.
  - now split.
  - match goal with
    | |- ends (isPresent_iframes _ _ ?l) _ _ =>
        destruct l as [|iframe rest] eqn:E
    end.
    + exfalso. eapply framed. exact E.
    + cbn [isPresent_iframes].
      change (String.eqb (kind errorLoc) "css") with true. cbv iota.
      repeat ends_case.
      * now split.
      * exfalso. eapply marked. eassumption.
Qed.

Lemma handleInlineErrors_panics (w : W) :
  ends (handleInlineErrors lib env profile) w
    (fun o _ e => o = Panic
                  /\ e = [EvHandleInlineErrors; EvIsPresent errorLoc true]).
Proof.
  unfold handleInlineErrors. ends_step. ends_step.
  ends_with isPresent_marked. intros o w1 e1 [-> ->]. cbn [negb].
  ends_step. ends_step.
  match goal with
  | |- ends (handleInlineErrors_iframes _ _ _ ?l) _ _ =>
      destruct l as [|iframe rest] eqn:E
  end.
  - exfalso. eapply framed. exact E.
  - cbn [handleInlineErrors_iframes]. repeat ends_case.
    + match goal with
      | Hh : fst (frame_Element _ ?f _ ?w0) = Some _,
        Hr : fst (el_ShadowRoot _ _ _) = Some _ |- _ =>
          destruct (rootless f w0) as (h & Hh' & Hr');
          rewrite Hh in Hh'; injection Hh' as <-;
          rewrite Hr in Hr'; discriminate Hr'
      end.
    + now split.
    + match goal with
      | Hh : fst (frame_Element _ ?f _ ?w0) = None |- _ =>
          destruct (rootless f w0) as (h & Hh' & _);
          rewrite Hh in Hh'; discriminate Hh'
      end.
    + exfalso. eapply marked. eassumption.
Qed.

(** The first error-handling pass panics, and with it the function. *)
Lemma FillOutEasyApplyForm_panics (w : W) :
  out (FillOutEasyApplyForm lib env profile w) = Panic
  /\ events (FillOutEasyApplyForm lib env profile w)
     = [EvIter 0; EvHandleInlineErrors; EvIsPresent errorLoc true].
Proof.
  change (ends (FillOutEasyApplyForm lib env profile) w
            (fun o _ e => o = Panic
               /\ e = [EvIter 0; EvHandleInlineErrors; EvIsPresent errorLoc true])).
  unfold FillOutEasyApplyForm. ends_step. ends_step.
  cbn [outer_loop]. ends_step. ends_step. ends_step.
  ends_with handleInlineErrors_panics. intros o w1 e1 [-> ->].
  now split.
Qed.

End Without_shadow_root.

(** C3.  In every environment where the submit locator never becomes
    actionable, a run of [FillOutEasyApplyForm] has at most 15 outer
    iterations and, if it returns, returns submitted = false with a nil
    error.  It returns where the host of the modal is found (it is looked
    for without a timeout) and has a shadow root.  It does not always
    return: where the page has an iframe, its iframes show the inline error
    marker and the host of the modal has no shadow root, [MustShadowRoot]
    panics in the first error-handling pass, and the function with it. *)
Theorem wizard_gives_up_or_panics (W Elem Frame : Type) (lib : GoLib)
    (env : Env W Elem Frame) (profile : LinkedInProfile) (w : W) :
  (forall w', out (isPresent env submitLoc w') = Ret false) ->
  let r := FillOutEasyApplyForm lib env profile w in
  (iterations (events r) <= 15)%nat
  /\ (forall res, out r = Ret res -> res = (false, None))
  /\ ((forall f w', exists h root,
         fst (frame_Element env f ".jobs-easy-apply-modal" w') = Some h
         /\ fst (el_ShadowRoot env h
                   (snd (frame_Element env f ".jobs-easy-apply-modal" w')))
            = Some root) ->
      out r = Ret (false, None))
  /\ ((forall w', fst (page_Elements env "iframe" w') <> []) ->
      (forall f w', fst (frame_Has env f errorMessageSel w') <> None) ->
      (forall f w', exists h,
         fst (frame_Element env f ".jobs-easy-apply-modal" w') = Some h
         /\ fst (el_ShadowRoot env h
                   (snd (frame_Element env f ".jobs-easy-apply-modal" w')))
            = None) ->
      out r = Panic).
Proof.
  intros never. cbv zeta.
  pose proof (FillOutEasyApplyForm_ends W Elem Frame lib env profile w)
    as ((_ & _ & _ & Hn) & _ & Hc).
  pose proof (FillOutEasyApplyForm_not_submitted W Elem Frame lib env profile
                never w) as Hfalse.
  unfold may in Hfalse.
  split; [exact Hn|]. split; [|split].
  - intros res Hres. now rewrite Hres in Hfalse.
  - intros Hroot.
    destruct (out (FillOutEasyApplyForm lib env profile w)) as [res|].
    + now rewrite Hfalse.
    + exfalso. destruct (Hc eq_refl) as (f & w' & h & Hh & Hnone).
      destruct (Hroot f w') as (h' & root & Hh' & Hsome).
      rewrite Hh in Hh'. injection Hh' as <-.
      rewrite Hnone in Hsome. discriminate Hsome.
  - intros framed marked rootless.
    exact (proj1 (FillOutEasyApplyForm_panics W Elem Frame lib env profile
                    framed marked rootless w)).
Qed.

(** The wizard that only ever offers to advance, on a modal that is a shadow
    host and on one that is not. *)
Lemma wizard_gives_up_or_panics_witness :
  ((forall w', out (isPresent (scripted_env endless_steps no_inputs [] true)
                      submitLoc w') = Ret false)
   /\ out (FillOutEasyApplyForm ascii_lib
             (scripted_env endless_steps no_inputs [] true) sample_profile
             start_page) = Ret (false, None))
  /\ ((forall w', out (isPresent (rootless_env error_steps) submitLoc w')
                  = Ret false)
      /\ out (FillOutEasyApplyForm ascii_lib (rootless_env error_steps)
                sample_profile start_page) = Panic).
Proof.
  assert (never : forall w',
            out (isPresent (scripted_env endless_steps no_inputs [] true)
                   submitLoc w') = Ret false).
  { intros w'. reflexivity. }
  assert (never' : forall w',
            out (isPresent (rootless_env error_steps) submitLoc w') = Ret false).
  { intros w'. reflexivity. }
  split; (split; [assumption|]).
  - destruct (wizard_gives_up_or_panics page_state node unit ascii_lib
                (scripted_env endless_steps no_inputs [] true) sample_profile
                start_page never)
      as (_ & _ & Hreturns & _).
    apply Hreturns. intros f w'. exists Modal, Root. split; reflexivity.
  - destruct (wizard_gives_up_or_panics page_state node unit ascii_lib
                (rootless_env error_steps) sample_profile start_page never')
      as (_ & _ & _ & Hpanic).
    apply Hpanic.
    + intros w'. discriminate.
    + intros f w'. discriminate.
    + intros f w'. exists Modal. split; reflexivity.
Defined.

(** The run on that page: the panic comes in the first iteration, before
    any action. *)
Example wizard_panics_in_first_pass :
  out (FillOutEasyApplyForm ascii_lib (rootless_env error_steps)
         sample_profile start_page) = Panic
  /\ events (FillOutEasyApplyForm ascii_lib (rootless_env error_steps)
               sample_profile start_page)
     = [EvIter 0; EvHandleInlineErrors; EvIsPresent errorLoc true].
Proof. vm_compute. split; reflexivity. Qed.

(** The wizard that only ever offers to advance returns false. *)
Example wizard_gives_up :
  out (FillOutEasyApplyForm ascii_lib
         (scripted_env endless_steps no_inputs [] true) sample_profile start_page)
  = Ret (false, None).
Proof. vm_compute. reflexivity. Qed.

(** The bound is reached: the wizard that only ever offers to advance is
    advanced fifteen times. *)
Example wizard_fifteen_iterations :
  iterations (events (FillOutEasyApplyForm ascii_lib
     (scripted_env endless_steps no_inputs [] true) sample_profile start_page))
  = 15%nat.
Proof. vm_compute. reflexivity. Qed.

(** *** The success path *)

Section Success_path.
Variables W Elem Frame : Type.
Variable lib : GoLib.
Variable env : Env W Elem Frame.
Variable profile : LinkedInProfile.
Local Open Scope nat_scope.

(** The wizard is at stage 0 (the advance button shows), 1 (the review
    button shows) or 2 (the submit button shows).  Looking at the page and
    waiting do not change the stage, no inline error shows, and a confirmed
    advance or review moves to the next stage. *)
Variable stage : W -> nat.
Hypothesis looking : forall loc w, stage (world (isPresent env loc w)) = stage w.
Hypothesis waiting : forall w, stage (time_Sleep env w) = stage w.
Hypothesis no_error : forall w, out (isPresent env errorLoc w) = Ret false.
Hypothesis next_at_0 :
  forall w, stage w = 0 -> out (isPresent env nextLoc w) = Ret true.
Hypothesis next_gone_at_1 :
  forall w, stage w = 1 -> out (isPresent env nextLoc w) = Ret false.
Hypothesis review_at_1 :
  forall w, stage w = 1 -> out (isPresent env reviewLoc w) = Ret true.
Hypothesis submit_at_2 :
  forall w, stage w = 2 -> out (isPresent env submitLoc w) = Ret true.
Hypothesis advance_succeeds :
  forall w, stage w = 0 ->
    out (clickWhenClickable env nextLoc w) = Ret None
    /\ stage (world (clickWhenClickable env nextLoc w)) = 1.
Hypothesis review_succeeds :
  forall w, stage w = 1 ->
    out (clickWhenClickable env reviewLoc w) = Ret None
    /\ stage (world (clickWhenClickable env reviewLoc w)) = 2.
Hypothesis follow_stays :
  forall w, stage w = 2 ->
    stage (world (clickWhenClickable env followLoc w)) = 2.
Hypothesis submit_succeeds :
  forall w, stage w = 2 -> out (clickWhenClickable env submitLoc w) = Ret None.









Lemma submitted_run_after (tail : list locator) (l e : list event) :
  iterations l = 0 -> confirmed l = [] ->
  submitted_run tail e -> submitted_run tail (l ++ e)%list.
Proof.
  intros Hi Hc (He & Hconf & pre & ->).
  split; [rewrite iterations_app, Hi, He; reflexivity|].
  split.
  - rewrite confirmed_app, Hc. exact Hconf.
  - exists (l ++ pre)%list. now rewrite app_assoc.
Qed.



End Success_path.




(** The three-step wizard is submitted in the second iteration: the review
    action does not end the pass over the buttons. *)
Example three_steps_two_iterations :
  iterations (events (FillOutEasyApplyForm ascii_lib
     (scripted_env three_steps no_inputs [] true) sample_profile start_page))
  = 2%nat.
Proof. vm_compute. reflexivity. Qed.

(** On that page the follow toggle shows with the submit button, and its
    action is confirmed before the one on the submit button. *)
Example three_steps_confirmed :
  confirmed (events (FillOutEasyApplyForm ascii_lib
     (scripted_env three_steps no_inputs [] true) sample_profile start_page))
  = [nextLoc; reviewLoc; followLoc; submitLoc].
Proof. vm_compute. reflexivity. Qed.

(** A run that meets an inline error on a required field: the field is
    filled by the error-handling pass before the first action. *)
Example wizard_fills_before_acting :
  exists tl,
    events (FillOutEasyApplyForm ascii_lib
       (scripted_env steps_after_error one_input [] true) sample_profile start_page)
    = EvIter 0 :: EvHandleInlineErrors :: EvIsPresent errorLoc true
        :: EvFilled "Years of relevant experience" "4"
        :: EvIsPresent nextLoc true :: EvIsPresent errorLoc false
        :: EvClick nextLoc None :: tl.
Proof. eexists. vm_compute. reflexivity. Qed.

(** ** The campaign loop *)

(** One step of a computation under [emits]. *)
Ltac emits_step :=
  lazymatch goal with
  | |- emits _ (bind _ _) => apply emits_bind; [|intros]
  | |- emits _ (ret _) => apply emits_ret
  | |- emits _ panic => apply emits_panic
  | |- emits _ (liftW _) => apply emits_liftW
  | |- emits _ (modW _) => apply emits_modW
  | |- emits _ (emit _) => apply emits_emit
  | |- emits _ (match ?x with _ => _ end) => destruct x
  end.

Section Campaign_facts.
Variables W Elem Frame : Type.
Variable lib : GoLib.
Variable env : Env W Elem Frame.
Variable profile : LinkedInProfile.
Local Open Scope list_scope.

Lemma FillOutEasyApplyForm_emits :
  emits at_offset_0 (FillOutEasyApplyForm lib env profile).
Proof.
  intros w.
  destruct (FillOutEasyApplyForm_ends W Elem Frame lib env profile w)
    as ((_ & _ & Hw & _) & _).
  revert Hw. apply Forall_impl. intros ev.
  destruct ev; try discriminate; exact (fun _ => I).
Qed.

Lemma LoadPage_scroll_emits (n : nat) : emits at_offset_0 (LoadPage_scroll env n).
Proof.
  induction n as [|n IH]; cbn [LoadPage_scroll]; repeat emits_step. exact IH.
Qed.

Lemma LoadPage_emits : emits at_offset_0 (LoadPage env).
Proof.
  unfold LoadPage. repeat emits_step. apply LoadPage_scroll_emits.
Qed.

Lemma GetEasyApplyButton_emits : emits at_offset_0 (GetEasyApplyButton env).
Proof. unfold GetEasyApplyButton. repeat emits_step. Qed.

Lemma pick_emits (xs : list string) : emits at_offset_0 (pick env xs).
Proof. unfold pick. repeat emits_step. Qed.

Lemma collect_children_emits (children : list Elem) (IDs : list Z) :
  emits at_offset_0 (collect_children lib env children IDs).
Proof.
  revert IDs. induction children as [|child rest IH]; intros IDs;
    cbn [collect_children]; repeat emits_step; apply IH.
Qed.

Lemma collect_links_emits (links : list Elem) (IDs : list Z) :
  emits at_offset_0 (collect_links lib env links IDs).
Proof.
  revert IDs. induction links as [|element rest IH]; intros IDs;
    cbn [collect_links]; repeat emits_step.
  - apply collect_children_emits.
  - apply IH.
Qed.

Lemma apply_to_jobs_emits (IDs : list Z) :
  emits at_offset_0 (apply_to_jobs lib env profile IDs).
Proof.
  induction IDs as [|jobID rest IH]; cbn [apply_to_jobs]; repeat emits_step;
    try exact I; try exact IH.
  - apply GetEasyApplyButton_emits.
  - apply FillOutEasyApplyForm_emits.
Qed.

Lemma campaign_pass_emits (position location : string) (IDs : list Z) :
  emits at_offset_0 (campaign_pass lib env profile position location 0 IDs).
Proof.
  unfold campaign_pass. repeat emits_step; try reflexivity.
  - apply LoadPage_emits.
  - apply collect_links_emits.
  - apply apply_to_jobs_emits.
Qed.

Lemma campaign_loop_emits (passes : nat) (position location : string)
    (IDs : list Z) :
  emits at_offset_0 (campaign_loop lib env passes profile position location 0 IDs).
Proof.
  revert IDs. induction passes as [|passes' IH]; intros IDs;
    cbn [campaign_loop]; repeat emits_step.
  - apply campaign_pass_emits.
  - apply IH.
Qed.

Lemma StartApplying_emits (passes : nat) :
  emits at_offset_0 (StartApplying lib env passes profile).
Proof.
  unfold StartApplying. repeat emits_step; try apply pick_emits.
  apply campaign_loop_emits.
Qed.

Lemma search_offsets_at_0 (tr : list event) :
  Forall at_offset_0 tr -> Forall (fun start => start = 0) (search_offsets tr).
Proof.
  induction 1 as [|e tr He _ IH]; cbn.
  - constructor.
  - destruct e; cbn; try exact IH. constructor; [exact He | exact IH].
Qed.

End Campaign_facts.

(** C6.  Successive discovery calls are to use strictly larger result
    offsets.  [StartApplying] puts the variable jobsPerPage into the search
    URL and never changes it: however many passes the loop makes, every
    discovery call is at offset 0. *)
Theorem campaign_offset_stays_0 (W Elem Frame : Type) (lib : GoLib)
    (env : Env W Elem Frame) (passes : nat) (profile : LinkedInProfile) (w : W) :
  Forall (fun start => start = 0)
    (search_offsets (events (StartApplying lib env passes profile w))).
Proof.
  apply search_offsets_at_0. apply StartApplying_emits.
Qed.

(** Two passes over a feed with two postings: both discovery calls are at
    offset 0, and the postings of the first pass are visited again. *)
Example campaign_two_passes :
  events (StartApplying ascii_lib
     (scripted_env three_steps no_inputs ["/jobs/view/123/?x=1"; "/jobs/view/77"] false)
     2 sample_profile start_page)
  = [EvSearch "engineer" "Austin" 0; EvJobPage 123; EvJobPage 77;
     EvSearch "engineer" "Austin" 0; EvJobPage 123; EvJobPage 77;
     EvJobPage 123; EvJobPage 77]
  /\ ~ strictly_increasing (search_offsets (events (StartApplying ascii_lib
        (scripted_env three_steps no_inputs ["/jobs/view/123/?x=1"; "/jobs/view/77"] false)
        2 sample_profile start_page))).
Proof.
  split.
  - vm_compute. reflexivity.
  - vm_compute. intros [H _]. discriminate H.
Qed.

(** A feed with a link whose path has two segments stops the campaign with
    a panic. *)
Example campaign_panics_on_short_link :
  out (StartApplying ascii_lib
     (scripted_env three_steps no_inputs ["/jobs/view/123/"; "/jobs/search/"] false)
     1 sample_profile start_page) = Panic.
Proof. vm_compute. reflexivity. Qed.

(** * Further properties of the package *)

Import Traces.

(** ** ExtractJobID, continued *)

Lemma append_inv_head (p a b : string) :
  (p ++ a)%string = (p ++ b)%string -> a = b.
Proof.
  induction p as [|c p IH]; cbn; intros H.
  - exact H.
  - injection H as H. now apply IH.
Qed.

Lemma path_segments_posting_tail (i : Z) (tail : string) :
  tail = EmptyString \/ tail = "/" ->
  path_segments ("/jobs/view/" ++ Itoa i ++ tail) = ["jobs"; "view"; Itoa i].
Proof.
  intros [-> | ->]; [|apply path_segments_posting].
  unfold path_segments, Trim.
  pose proof (Itoa_without_slash i) as Hno.
  pose proof (Itoa_nonempty i) as Hne.
  assert (Hnil : (Itoa i ++ EmptyString)%string = Itoa i).
  { generalize (Itoa i). induction s as [|a s IH]; cbn; [reflexivity | now rewrite IH]. }
  rewrite Hnil.
  rewrite trimRightByte_app; rewrite (trimRightByte_without "/" _ Hno);
    [|exact Hne].
  change (trimLeftByte ("/jobs/view/" ++ Itoa i) "/")
    with ("jobs" ++ String "/" ("view" ++ String "/" (Itoa i)))%string.
  rewrite (Split_app "/" "jobs"), (Split_app "/" "view") by reflexivity.
  now rewrite (Split_without "/" _ Hno).
Qed.

(** X1.  [ExtractJobID] returns a pair for every link except those whose path
    has exactly two segments: unparsable links, empty paths and paths of one
    segment or of three and more all return. *)
Theorem ExtractJobID_returns_unless_two_segments (lib : GoLib) (href : string) :
  (exists r, ExtractJobID lib href = Ret r)
  <-> (forall u, url_Parse lib href = Some u ->
         List.length (path_segments (Path u)) <> 2%nat).
Proof.
  split.
  - intros [r Hr] u Hu Hlen.
    assert (Hp : ExtractJobID lib href = Panic).
    { apply ExtractJobID_panics_iff. now exists u. }
    rewrite Hp in Hr. discriminate.
  - intros H. destruct (ExtractJobID lib href) as [r|] eqn:E.
    + now exists r.
    + apply ExtractJobID_panics_iff in E as (u & Hu & Hlen).
      now destruct (H u Hu).
Qed.

(** X2.  [ExtractJobID] reads back the identifier from the address that
    [StartApplying] builds for a posting: a link whose URL is that address,
    with or without a closing slash, gives the identifier and true, for every
    identifier of Go's int. *)
Theorem ExtractJobID_inverts_jobViewUrl (lib : GoLib) (href : string) (u : URL)
    (id : Z) (tail : string) :
  url_Parse lib href = Some u ->
  ("https://www.linkedin.com" ++ Path u)%string = (jobViewUrl id ++ tail)%string ->
  tail = EmptyString \/ tail = "/" ->
  minInt <= id <= maxInt ->
  ExtractJobID lib href = Ret (id, true).
Proof.
  intros Hu HP Htail Hid.
  assert (Hpath : Path u = ("/jobs/view/" ++ Itoa id ++ tail)%string).
  { apply (append_inv_head "https://www.linkedin.com"). rewrite HP.
    unfold jobViewUrl. cbn. reflexivity. }
  rewrite (ExtractJobID_third_segment lib href u (Itoa id) Hu).
  - now rewrite Atoi_Itoa.
  - rewrite Hpath, path_segments_posting_tail by exact Htail. reflexivity.
Qed.

Lemma ExtractJobID_inverts_jobViewUrl_witness :
  ExtractJobID ascii_lib (jobViewUrl 3847562910) = Ret (3847562910, true).
Proof.
  apply (ExtractJobID_inverts_jobViewUrl ascii_lib (jobViewUrl 3847562910)
           (mkURL "https" "www.linkedin.com" "/jobs/view/3847562910"
              EmptyString EmptyString)
           3847562910 EmptyString).
  - reflexivity.
  - reflexivity.
  - now left.
  - unfold minInt, maxInt. lia.
Defined.

(** ** ChooseValue, continued *)

(** X3.  The fallback is the last resort of [ChooseValue]: when one of the
    label rules answers, or the input type is number, the fallback is not
    called; the answer is the one given without fallback and the world is
    left as it is. *)
Theorem ChooseValue_fallback_last_resort (W : Type) (lib : GoLib)
    (labelText inputType : string) (p : LinkedInProfile)
    (fb : option (fallback W)) (w : W) :
  rule_number lib labelText <> None \/ normalised lib inputType = "number" ->
  ChooseValue lib labelText inputType p fb w
  = ChooseValue lib labelText inputType p None w
  /\ snd (ChooseValue lib labelText inputType p fb w) = w.
Proof.
  unfold ChooseValue, rule_number, label_rules, normalised.
  rewrite !containsAny_existsb.
  set (l := strings_ToLower lib (strings_TrimSpace lib labelText)).
  cbn [first_matching fst cue_matches].
  replace (existsb (Contains l) ["have you ever worked"])
    with (Contains l "have you ever worked") by (cbn; now rewrite orb_false_r).
  replace (existsb (Contains l) ["state"])
    with (Contains l "state") by (cbn; now rewrite orb_false_r).
  replace (forallb (Contains l) ["experience"; "year"])
    with (Contains l "experience" && Contains l "year")
    by (cbn; now rewrite andb_true_r).
  repeat match goal with
         | |- context [if ?c then Some _ else _] =>
             destruct c; [intros _; split; reflexivity|]
         end.
  intros [H | H]; [contradiction|].
  rewrite H. cbn. split; reflexivity.
Qed.

Lemma ChooseValue_fallback_last_resort_witness :
  ChooseValue ascii_lib "Years of relevant experience" "number" sample_profile
    (Some answers_blue) tt
  = ChooseValue ascii_lib "Years of relevant experience" "number" sample_profile
      None tt.
Proof.
  refine (proj1 (ChooseValue_fallback_last_resort unit ascii_lib
                   "Years of relevant experience" "number" sample_profile
                   (Some answers_blue) tt _)).
  left. discriminate.
Defined.

(** ** cssEscape *)

Lemma cssEscape_cons (a : ascii) (s : string) :
  cssEscape (String a s)
  = if Ascii.eqb a dquote_byte
    then String (ascii_of_N 92) (String dquote_byte (cssEscape s))
    else String a (cssEscape s).
Proof.
  unfold cssEscape. cbn [ReplaceAll]. destruct (Ascii.eqb a dquote_byte); reflexivity.
Qed.

Lemma cssEscape_head (s : string) :
  match cssEscape s with
  | String b _ => Ascii.eqb b dquote_byte = false
  | EmptyString => True
  end.
Proof.
  destruct s as [|a s]; [exact I|]. rewrite cssEscape_cons.
  destruct (Ascii.eqb a dquote_byte) eqn:E; [reflexivity | exact E].
Qed.

(** X4.  [cssEscape] puts a backslash before every double quote and changes
    nothing else: in its result every double quote comes right after a
    backslash, and dropping the backslash before each double quote gives the
    identifier back, so no two identifiers are escaped to the same text. *)
Theorem cssEscape_round_trip (s : string) :
  quotes_escaped false (cssEscape s) = true
  /\ cssUnescape (cssEscape s) = s.
Proof.
  split.
  - assert (H : forall e, quotes_escaped e (cssEscape s) = true).
    { induction s as [|a s IH]; intros e; [reflexivity|].
      rewrite cssEscape_cons. destruct (Ascii.eqb a dquote_byte) eqn:E.
      - cbn. apply IH.
      - cbn [quotes_escaped]. rewrite E. cbn. apply IH. }
    apply H.
  - induction s as [|a s IH]; [reflexivity|].
    rewrite cssEscape_cons. destruct (Ascii.eqb a dquote_byte) eqn:E.
    + apply Ascii.eqb_eq in E. subst a. cbn [cssUnescape].
      cbn [Ascii.eqb Bool.eqb andb ascii_of_N ascii_of_pos dquote_byte].
      now rewrite IH.
    + pose proof (cssEscape_head s) as Hhead. cbn [cssUnescape].
      destruct (cssEscape s) as [|b t] eqn:Es.
      * cbn in IH. now subst s.
      * rewrite Hhead, andb_false_r. now rewrite IH.
Qed.

(** ** The campaign loop, continued *)

Section Campaign_more.
Variables W Elem Frame : Type.
Variable lib : GoLib.
Variable env : Env W Elem Frame.
Variable profile : LinkedInProfile.
Local Open Scope list_scope.

Lemma job_pages_app (l1 l2 : list event) :
  job_pages (l1 ++ l2) = job_pages l1 ++ job_pages l2.
Proof. unfold job_pages. apply flat_map_app. Qed.

Lemma job_pages_wizard (tr : list event) :
  Forall (fun e => wizard_event e = true) tr -> job_pages tr = [].
Proof.
  induction 1 as [|e tr He _ IH]; [reflexivity|].
  destruct e; try discriminate; exact IH.
Qed.

Lemma collect_children_extends (children : list Elem) (IDs : list Z) (w : W) :
  may (collect_children lib env children IDs) w
    (fun IDs' _ e => (exists new, IDs' = IDs ++ new) /\ e = []).
Proof.
  revert IDs w. induction children as [|child rest IH]; intros IDs w;
    cbn [collect_children].
  - may_steps. split; [exists []; now rewrite app_nil_r | reflexivity].
  - may_steps;
      (eapply may_conseq; [apply IH|]; cbv beta; intros IDs' ? ev [[new ->] ->];
       split; [|reflexivity];
       first [now exists new | eexists; rewrite <- app_assoc; reflexivity]).
Qed.

Lemma collect_links_extends (links : list Elem) (IDs : list Z) (w : W) :
  may (collect_links lib env links IDs) w
    (fun IDs' _ e => (exists new, IDs' = IDs ++ new) /\ e = []).
Proof.
  revert IDs w. induction links as [|element rest IH]; intros IDs w;
    cbn [collect_links].
  - may_steps. split; [exists []; now rewrite app_nil_r | reflexivity].
  - may_steps.
    eapply may_conseq; [apply collect_children_extends|]. cbv beta.
    intros IDs1 w1 ev1 [[new1 ->] ->].
    eapply may_conseq; [apply IH|]. cbv beta. intros IDs2 ? ev2 [[new2 ->] ->].
    split; [|reflexivity]. exists (new1 ++ new2). now rewrite app_assoc.
Qed.

Lemma LoadPage_scroll_silent (n : nat) (w : W) :
  post (LoadPage_scroll env n) w (fun _ _ e => e = []).
Proof.
  revert w. induction n as [|n IH]; intros w; cbn [LoadPage_scroll].
  - post_steps. reflexivity.
  - post_steps; [reflexivity|].
    eapply post_conseq; [apply IH|]. cbv beta. intros ? ? ev ->. reflexivity.
Qed.

Lemma LoadPage_silent (w : W) :
  post (LoadPage env) w (fun _ _ e => e = []).
Proof.
  unfold LoadPage. post_steps; try reflexivity.
  eapply post_conseq; [apply LoadPage_scroll_silent|]. cbv beta.
  intros err ? ev ->. post_steps; reflexivity.
Qed.

Lemma GetEasyApplyButton_silent (w : W) :
  post (GetEasyApplyButton env) w (fun _ _ e => e = []).
Proof. unfold GetEasyApplyButton. post_steps; reflexivity. Qed.

(** One failed posting does not stop the loop over the postings: when the
    loop returns, every identifier has had its page opened, in order. *)
Lemma apply_to_jobs_visits_all (IDs : list Z) (w : W) :
  may (apply_to_jobs lib env profile IDs) w (fun _ _ e => job_pages e = IDs).
Proof.
  assert (Hwizard : forall w0,
            may (FillOutEasyApplyForm lib env profile) w0
              (fun _ _ e => Forall (fun x => wizard_event x = true) e)).
  { intros w0. apply ends_may.
    eapply ends_conseq; [apply FillOutEasyApplyForm_ends|]. cbv beta.
    intros o ? e ((_ & _ & Hw & _) & _). now destruct o. }
  revert w. induction IDs as [|jobID rest IH]; intros w; cbn [apply_to_jobs].
  - may_steps. reflexivity.
  - may_steps.
    eapply may_conseq; [apply post_may; apply GetEasyApplyButton_silent|].
    cbv beta. intros found w1 ev1 ->.
    destruct (snd found) as [err|].
    + eapply may_conseq; [apply IH|]. cbv beta. intros ? ? ev2 He2.
      rewrite !job_pages_app, He2. reflexivity.
    + may_step.
      eapply may_conseq; [apply Hwizard|]. cbv beta.
      intros r w2 ev2 Hwiz.
      eapply may_conseq; [apply IH|]. cbv beta. intros ? ? ev3 He3.
      rewrite !job_pages_app, (job_pages_wizard ev2 Hwiz), He3. reflexivity.
Qed.

Lemma campaign_pass_may (position location : string) (start : Z)
    (IDs : list Z) (w : W) :
  may (campaign_pass lib env profile position location start IDs) w
    (fun r _ e =>
       match r with
       | inr IDs' => (exists new, IDs' = IDs ++ new) /\ job_pages e = IDs'
       | inl _ => job_pages e = []
       end).
Proof.
  unfold campaign_pass. may_steps.
  apply post_may.
  eapply post_conseq; [apply LoadPage_silent|]. cbv beta. intros err w1 ev1 ->.
  may_steps; try reflexivity.
  eapply may_conseq; [apply collect_links_extends|]. cbv beta.
  intros IDs' w2 ev2 [Hext ->]. may_step.
  eapply may_conseq; [apply apply_to_jobs_visits_all|]. cbv beta.
  intros ? w3 ev3 Hev3. may_steps. split; [exact Hext|].
  rewrite !job_pages_app, Hev3. cbn. now rewrite app_nil_r.
Qed.

End Campaign_more.

(** X5.  A pass of the campaign loop only adds to the identifiers it was
    given, the earlier ones staying in front in their order, and then opens
    the page of every identifier it holds, the earlier ones included; a pass
    that ends the campaign with an error has opened no posting. *)
Theorem campaign_pass_accumulates (W Elem Frame : Type) (lib : GoLib)
    (env : Env W Elem Frame) (profile : LinkedInProfile)
    (position location : string) (start : Z) (IDs : list Z) (w : W) :
  match out (campaign_pass lib env profile position location start IDs w) with
  | Ret (inr IDs') =>
      (exists new, IDs' = IDs ++ new)%list
      /\ job_pages (events (campaign_pass lib env profile position location
                              start IDs w)) = IDs'
  | Ret (inl _) =>
      job_pages (events (campaign_pass lib env profile position location
                           start IDs w)) = []
  | Panic => True
  end.
Proof.
  pose proof (campaign_pass_may W Elem Frame lib env profile position location
                start IDs w) as H.
  unfold may in H.
  destruct (out (campaign_pass lib env profile position location start IDs w))
    as [[err|IDs']|]; exact H.
Qed.

(** The second pass over a feed of two postings, entered with the two
    identifiers of the first pass, opens four pages. *)
Example campaign_second_pass :
  job_pages (events (campaign_pass ascii_lib
     (scripted_env three_steps no_inputs ["/jobs/view/123/"; "/jobs/view/77"] false)
     sample_profile "engineer" "Austin" 0 [123; 77] start_page))
  = [123; 77; 123; 77].
Proof. vm_compute. reflexivity. Qed.

Lemma pick_quiet (W Elem Frame : Type) (env : Env W Elem Frame)
    (xs : list string) (w : W) :
  events (pick env xs w) = [].
Proof.
  unfold pick.
  destruct (Z.of_nat (List.length xs) <=? 0); [reflexivity|].
  unfold bind, liftW. destruct (rand_Int env w) as [r w1]. cbn.
  destruct (nth_error xs (Z.to_nat (r mod Z.of_nat (List.length xs))));
    reflexivity.
Qed.

Lemma StartApplying_no_targets (W Elem Frame : Type) (lib : GoLib)
    (env : Env W Elem Frame) (passes : nat) (profile : LinkedInProfile) (w : W) :
  Positions profile = [] \/ Locations profile = [] ->
  out (StartApplying lib env passes profile w) = Panic
  /\ events (StartApplying lib env passes profile w) = [].
Proof.
  intros H.
  assert (Hquiet : forall xs w0, events (pick env xs w0) = []).
  { intros xs w0. unfold pick.
    destruct (Z.of_nat (List.length xs) <=? 0); [reflexivity|].
    unfold bind, liftW. destruct (rand_Int env w0) as [r w1]. cbn.
    destruct (nth_error xs (Z.to_nat (r mod Z.of_nat (List.length xs))));
      reflexivity. }
  assert (Hempty : forall w0, out (pick env [] w0) = Panic) by reflexivity.
  unfold StartApplying.
  destruct (bind_returns W (modW (set_applying env true))
              (fun _ =>
                 bind (pick env (Positions profile)) (fun position =>
                 bind (pick env (Locations profile)) (fun location =>
                 campaign_loop lib env passes profile position location 0 [])))
              w tt eq_refl) as (-> & _ & ->).
  cbn [modW world events app].
  set (w1 := set_applying env true w).
  destruct H as [H | H].
  - rewrite H.
    destruct (bind_panics W (pick env [])
                (fun position =>
                   bind (pick env (Locations profile)) (fun location =>
                   campaign_loop lib env passes profile position location 0 []))
                w1 (Hempty w1)) as [-> ->].
    split; [reflexivity | apply Hquiet].
  - destruct (out (pick env (Positions profile) w1)) as [position|] eqn:E.
    + destruct (bind_returns W (pick env (Positions profile))
                  (fun position =>
                     bind (pick env (Locations profile)) (fun location =>
                     campaign_loop lib env passes profile position location 0 []))
                  w1 position E) as (-> & _ & ->).
      rewrite H.
      destruct (bind_panics W (pick env [])
                  (fun location =>
                     campaign_loop lib env passes profile position location 0 [])
                  (world (pick env (Positions profile) w1))
                  (Hempty _)) as [-> ->].
      split; [reflexivity|]. now rewrite !Hquiet.
    + destruct (bind_panics W (pick env (Positions profile))
                  (fun position =>
                     bind (pick env (Locations profile)) (fun location =>
                     campaign_loop lib env passes profile position location 0 []))
                  w1 E) as [-> ->].
      split; [reflexivity | apply Hquiet].
Qed.

(** X6.  [StartApplying] needs a position and a location to draw from: with
    a profile that has no position or no location it panics at the draw,
    before any page is opened. *)
Theorem StartApplying_without_targets_panics (W Elem Frame : Type) (lib : GoLib)
    (env : Env W Elem Frame) (passes : nat) (profile : LinkedInProfile) (w : W) :
  Positions profile = [] \/ Locations profile = [] ->
  out (StartApplying lib env passes profile w) = Panic
  /\ events (StartApplying lib env passes profile w) = [].
Proof. apply StartApplying_no_targets. Qed.

Lemma StartApplying_without_targets_panics_witness :
  out (StartApplying ascii_lib (scripted_env three_steps no_inputs [] true) 1
         blank_profile start_page) = Panic.
Proof.
  refine (proj1 (StartApplying_without_targets_panics page_state node unit
                   ascii_lib (scripted_env three_steps no_inputs [] true) 1
                   blank_profile start_page _)).
  left. reflexivity.
Defined.

(** ** The wizard loop, continued *)

Section Wizard_runs_facts.
Variables W Elem Frame : Type.
Variable lib : GoLib.
Variable env : Env W Elem Frame.
Variable profile : LinkedInProfile.
Local Open Scope list_scope.

Local Abbreviation fill_ok := (fill_ok W lib profile).
Local Abbreviation handle_trace := (handle_trace W lib profile).
Local Abbreviation pass_trace := (pass_trace W lib profile).
Local Abbreviation run_trace := (run_trace W lib profile).

Lemma ChooseValue_no_fallback_world (labelText inputType : string)
    (w w' : W) :
  fst (ChooseValue lib labelText inputType profile None w)
  = fst (ChooseValue lib labelText inputType profile None w').
Proof.
  unfold ChooseValue.
  repeat match goal with
         | |- context [if ?c then _ else _] => destruct c
         end; reflexivity.
Qed.

Lemma ChooseValue_no_fallback_range (labelText inputType : string) (w : W) :
  In (fst (ChooseValue lib labelText inputType profile None w))
     (profile_answers profile).
Proof.
  unfold ChooseValue, profile_answers.
  repeat match goal with
         | |- context [if ?c then _ else _] => destruct c
         end; cbn [fst In]; tauto.
Qed.

Lemma FillInvalids_inputs_values (page : Elem) (inputs : list Elem) (w : W) :
  post (FillInvalids_inputs lib env page profile None inputs) w
    (fun _ _ e => Forall fill_ok e).
Proof.
  revert w. induction inputs as [|inputEl rest IH]; intros w;
    cbn [FillInvalids_inputs].
  - post_steps. constructor.
  - post_step.
    eapply post_conseq; [apply isEmpty_post|]. cbv beta. intros e1 w1 ev1 ->.
    post_step.
    assert (Hreq : post (if e1 then isRequired lib env inputEl else ret false) w1
                     (fun _ _ e => e = [])).
    { destruct e1; [apply isRequired_post | now apply post_ret]. }
    eapply post_conseq; [exact Hreq|]. cbv beta. intros r w2 ev2 ->.
    post_step.
    destruct r.
    + post_step.
      eapply post_conseq; [apply getBestLabelText_post|]. cbv beta.
      intros labelText w3 ev3 ->. post_step.
      eapply post_conseq; [apply attr_post|]. cbv beta. intros t w4 ev4 ->.
      post_step. post_step. post_step.
      eapply post_conseq; [apply clearAndType_post|]. cbv beta.
      intros err w5 ev5 ->.
      post_steps;
        (eapply post_conseq; [apply IH|]; cbv beta; intros ? w6 ev6 Hev6;
         cbn [app]; constructor; [|exact Hev6]; split; [reflexivity|]).
      * exact I.
      * cbn. exists t. intros w'. apply ChooseValue_no_fallback_world.
    + post_step.
      eapply post_conseq; [apply IH|]. cbv beta. intros ? w4 ev4 Hev4.
      exact Hev4.
Qed.

Lemma handleInlineErrors_iframes_values (iframes : list Elem) (w : W) :
  ends (handleInlineErrors_iframes lib env profile iframes) w
    (fun _ _ e => Forall fill_ok e).
Proof.
  revert w. induction iframes as [|iframe rest IH]; intros w;
    cbn [handleInlineErrors_iframes].
  - ends_steps. constructor.
  - ends_steps; try (eapply ends_conseq; [apply IH|]; cbv beta; intros; assumption);
      try constructor.
    unfold FillInvalids. ends_step. ends_step.
    ends_post FillInvalids_inputs_values.
    intros [u|] w' ev He; [|contradiction]. ends_steps.
    eapply ends_conseq; [apply IH|]. cbv beta. intros ? w'' ev' He'.
    rewrite app_nil_r. apply Forall_app. now split.
Qed.

(** The error-handling pass leaves the same kind of events whether it
    returns or panics. *)
Lemma handleInlineErrors_trace (w : W) :
  ends (handleInlineErrors lib env profile) w (fun _ _ e => handle_trace e).
Proof.
  unfold handleInlineErrors. ends_step. ends_step.
  ends_post isPresent_post. intros [b|] w' ev; [intros -> | contradiction].
  destruct b; cbn [negb].
  - ends_step. ends_step.
    eapply ends_conseq; [apply handleInlineErrors_iframes_values|]. cbv beta.
    intros ? w'' ev He. cbn [app]. constructor.
    constructor; [split; [reflexivity | exact I] | exact He].
  - ends_steps. constructor.
    constructor; [split; [reflexivity | exact I] | constructor].
Qed.

Lemma inner_loop_trace (bs : list locator) (j : Z) (s : bool) (w : W) :
  ends (inner_loop lib env profile j bs s) w
    (fun o _ e => pass_trace j bs s o e).
Proof.
  revert j w. induction bs as [|loc rest IH]; intros j w; cbn [inner_loop].
  - ends_steps. constructor.
  - assert (Hcont : forall (pre : list event) w0
                (Q : outcome bool -> list event -> Prop),
              (forall o h tl, handle_trace h -> pass_trace (j + 1) rest s o tl ->
                 Q o (pre ++ h ++ tl)) ->
              ends (bind (handleInlineErrors lib env profile)
                      (fun _ => inner_loop lib env profile (j + 1) rest s)) w0
                (fun o _ e => Q o (pre ++ e))).
    { intros pre w0 Q HQ. ends_with handleInlineErrors_trace.
      intros [u|] w1 ev1 Hh.
      - eapply ends_conseq; [apply IH|]. cbv beta. intros o w2 ev2 Htl.
        now apply HQ.
      - rewrite <- (app_nil_r ev1). apply HQ; [exact Hh | apply pass_cut]. }
    ends_post isPresent_post. intros [b|] w1 ev1; [intros -> | contradiction].
    destruct b.
    + ends_step. unfold hasErrors.
      ends_post isPresent_post. intros [eb|] w2 ev2; [intros -> | contradiction].
      ends_step. destruct eb; cbn [negb].
      * apply (Hcont [EvIsPresent loc true; EvIsPresent errorLoc true] w2
                 (fun o e => pass_trace j (loc :: rest) s o e)).
        intros o h tl Hh Htl. cbn [app]. now apply pass_blocked.
      * ends_post clickWhenClickable_post.
        intros [err|] w3 ev3; [intros -> | contradiction].
        destruct err as [msg|].
        -- apply (Hcont [EvIsPresent loc true; EvIsPresent errorLoc false;
                         EvClick loc (Some msg)] w3
                    (fun o e => pass_trace j (loc :: rest) s o e)).
           intros o h tl Hh Htl. cbn [app]. now apply pass_failed.
        -- destruct (Z.eqb_spec j 3) as [->|Hj3].
           { ends_steps. apply pass_submit. }
           destruct (Z.eqb_spec j 0) as [->|Hj0].
           { ends_steps. apply pass_advance. }
           apply (Hcont [EvIsPresent loc true; EvIsPresent errorLoc false;
                         EvClick loc None] w3
                    (fun o e => pass_trace j (loc :: rest) s o e)).
           intros o h tl Hh Htl. cbn [app]. now apply pass_other.
    + ends_step. ends_step.
      apply (Hcont [EvIsPresent loc false] w1
               (fun o e => pass_trace j (loc :: rest) s o e)).
      intros o h tl Hh Htl. cbn [app]. now apply pass_absent.
Qed.

Lemma outer_loop_trace (left : nat) (s : bool) (w : W) :
  ends (outer_loop lib env profile left s) w
    (fun o _ e => run_trace left s o e).
Proof.
  revert s w. induction left as [|left' IH]; intros s w; cbn [outer_loop].
  - ends_steps. constructor.
  - destruct s.
    + ends_steps. constructor.
    + ends_step. ends_step.
      ends_with handleInlineErrors_trace. intros [u|] w1 ev1 Hh.
      * ends_with inner_loop_trace. intros [s'|] w2 ev2 Hbody.
        -- eapply ends_conseq; [apply IH|]. cbv beta. intros o w3 ev3 Htl.
           cbn [app]. now apply run_iter with (s' := s').
        -- cbn [app]. now apply run_cut.
      * cbn [app]. rewrite <- (app_nil_r ev1).
        apply run_cut; [exact Hh | apply pass_cut].
Qed.

(** Every run of the function is a run of the outer loop with fifteen
    iterations to go, entered with submitted unset; it returns what the loop
    returns, with a nil error, and panics when the loop does. *)
Lemma FillOutEasyApplyForm_trace (w : W) :
  exists o : outcome bool,
    out (FillOutEasyApplyForm lib env profile w)
    = match o with
      | Ret s => Ret (s, None)
      | Panic => Panic
      end
    /\ run_trace 15 false o (events (FillOutEasyApplyForm lib env profile w)).
Proof.
  change (ends (FillOutEasyApplyForm lib env profile) w
            (fun r _ e =>
               exists o : outcome bool,
                 r = match o with
                     | Ret s => Ret (s, None)
                     | Panic => Panic
                     end
                 /\ run_trace 15 false o e)).
  unfold FillOutEasyApplyForm. ends_step. ends_step.
  ends_with outer_loop_trace. intros [s|] w1 ev1 Hev1.
  - ends_steps. rewrite app_nil_r. exists (Ret s). now split.
  - exists Panic. now split.
Qed.

End Wizard_runs_facts.

Section Wizard_run_properties.
Variables W Elem Frame : Type.
Variable lib : GoLib.
Variable env : Env W Elem Frame.
Variable profile : LinkedInProfile.
Local Open Scope list_scope.

Local Abbreviation fill_ok := (fill_ok W lib profile).
Local Abbreviation handle_trace := (handle_trace W lib profile).
Local Abbreviation pass_trace := (pass_trace W lib profile).
Local Abbreviation run_trace := (run_trace W lib profile).

Lemma at_index_next (j : Z) (loc : locator) (rest : list locator) :
  at_index j (loc :: rest) -> at_index (j + 1) rest.
Proof.
  intros [Hj Hbs]. split; [lia|].
  replace (Z.to_nat (j + 1)) with (S (Z.to_nat j)) by lia.
  revert Hbs. generalize (Z.to_nat j). generalize buttons.
  intros l n. revert l. induction n as [|n IH]; intros l H.
  - cbn in H. subst l. reflexivity.
  - destruct l as [|x l]; [discriminate H|].
    cbn [skipn] in H. apply IH in H. exact H.
Qed.

Lemma at_index_cases (j : Z) (loc : locator) (rest : list locator) :
  at_index j (loc :: rest) ->
  (j = 0 /\ loc = nextLoc) \/ (j = 1 /\ loc = reviewLoc)
  \/ (j = 2 /\ loc = followLoc) \/ (j = 3 /\ loc = submitLoc).
Proof.
  intros [Hj Hbs].
  destruct (Z.to_nat j) as [|[|[|[|n]]]] eqn:E;
    unfold buttons in Hbs; cbn [skipn] in Hbs.
  - left. split; [lia | now injection Hbs].
  - right; left. split; [lia | now injection Hbs].
  - right; right; left. split; [lia | now injection Hbs].
  - right; right; right. split; [lia | now injection Hbs].
  - destruct n; discriminate Hbs.
Qed.

(** *** Counting *)

Lemma clicks_app (l1 l2 : list event) :
  clicks (l1 ++ l2) = (clicks l1 + clicks l2)%nat.
Proof. unfold clicks. now rewrite filter_app, length_app. Qed.

Lemma clicks_cons (x : event) (l : list event) :
  clicks (x :: l) = ((if is_click x then 1 else 0) + clicks l)%nat.
Proof. unfold clicks. cbn [filter]. now destruct (is_click x). Qed.

Lemma iterations_cons (x : event) (l : list event) :
  iterations (x :: l) = ((if is_iter x then 1 else 0) + iterations l)%nat.
Proof. unfold iterations. cbn [filter]. now destruct (is_iter x). Qed.

Lemma clicks_nil : clicks [] = 0%nat.
Proof. reflexivity. Qed.

Lemma iterations_nil : iterations [] = 0%nat.
Proof. reflexivity. Qed.

Lemma fill_ok_counts (h : list event) :
  Forall fill_ok h -> clicks h = 0%nat /\ iterations h = 0%nat.
Proof.
  induction 1 as [|e h [He _] _ [IHc IHi]]; [now split|].
  unfold clicks, iterations in *. cbn [filter].
  destruct e; try discriminate He; cbn; now split.
Qed.

Lemma handle_counts (h : list event) :
  handle_trace h -> clicks h = 0%nat /\ iterations h = 0%nat.
Proof.
  intros [h0 H0]. destruct (fill_ok_counts _ H0) as [Hc Hi].
  unfold clicks, iterations in *. cbn. now split.
Qed.

Lemma pass_counts (j : Z) (bs : list locator) (s : bool) (o : outcome bool)
    (e : list event) :
  pass_trace j bs s o e ->
  (clicks e <= List.length bs)%nat /\ iterations e = 0%nat.
Proof.
  induction 1 as
    [ j s
    | j bs s
    | j loc rest s o h tl Hh _ [IHc IHi]
    | j loc rest s o h tl Hh _ [IHc IHi]
    | j loc rest s o msg h tl Hh _ [IHc IHi]
    | loc rest s
    | loc rest s
    | j loc rest s o h tl _ _ Hh _ [IHc IHi] ];
    try (destruct (handle_counts _ Hh) as [Hc Hi]);
    rewrite ?clicks_cons, ?iterations_cons, ?clicks_app, ?iterations_app;
    rewrite ?clicks_nil, ?iterations_nil;
    cbn [is_click is_iter List.length]; split; lia.
Qed.

(** The events of one outer iteration after its mark: no mark, at most four
    action attempts. *)
Lemma block_counts (s : bool) (o : outcome bool) (h body : list event) :
  handle_trace h -> pass_trace 0 buttons s o body ->
  (clicks (h ++ body) <= 4)%nat /\ iterations (h ++ body) = 0%nat.
Proof.
  intros Hh Hbody. destruct (handle_counts _ Hh) as [Hc Hi].
  destruct (pass_counts _ _ _ _ _ Hbody) as [Hbc Hbi].
  change (List.length buttons) with 4%nat in Hbc.
  rewrite clicks_app, iterations_app. split; lia.
Qed.

Lemma run_counts (left : nat) (s : bool) (o : outcome bool) (e : list event) :
  run_trace left s o e ->
  (clicks e <= 4 * iterations e)%nat /\ (iterations e <= left)%nat.
Proof.
  induction 1 as [s | left | left s' o h body tl Hh Hbody _ [IHc IHi]
                 | left h body Hh Hbody].
  - cbn. split; lia.
  - cbn. split; lia.
  - destruct (block_counts _ _ _ _ Hh Hbody) as [Hc Hi].
    rewrite app_assoc.
    rewrite clicks_cons, iterations_cons, clicks_app, iterations_app.
    cbn [is_click is_iter]. split; lia.
  - destruct (block_counts _ _ _ _ Hh Hbody) as [Hc Hi].
    rewrite clicks_cons, iterations_cons.
    cbn [is_click is_iter]. split; lia.
Qed.

(** *** The actions of one iteration *)

Lemma budget_scan_quiet (k c : nat) (l tl : list event) :
  iterations l = 0%nat ->
  budget_scan k c (l ++ tl) = budget_scan k (c + clicks l) tl.
Proof.
  revert c. induction l as [|e l IH]; intros c Hl.
  - cbn [app]. rewrite clicks_nil. f_equal. lia.
  - rewrite iterations_cons in Hl.
    destruct (is_iter e) eqn:Ei; [discriminate Hl|].
    cbn [app budget_scan]. rewrite Ei, IH by exact Hl.
    rewrite clicks_cons. f_equal. destruct (is_click e); lia.
Qed.

Lemma budget_scan_le (k c : nat) (tr : list event) :
  budget_scan k c tr = true -> (c <= k)%nat.
Proof.
  revert c. induction tr as [|e tr IH]; intros c H; cbn [budget_scan] in H.
  - now apply Nat.leb_le.
  - destruct (is_iter e).
    + apply andb_true_iff in H. destruct H as [H _]. now apply Nat.leb_le.
    + apply IH in H. destruct (is_click e); lia.
Qed.

Lemma budget_scan_skip (k c : nat) (l1 rest : list event) :
  budget_scan k c (l1 ++ rest) = true ->
  exists c', budget_scan k c' rest = true.
Proof.
  revert c. induction l1 as [|e l1 IH]; intros c H.
  - now exists c.
  - cbn [app budget_scan] in H. destruct (is_iter e).
    + apply andb_true_iff in H. destruct H as [_ H]. exact (IH _ H).
    + exact (IH _ H).
Qed.

(** The scan bounds every stretch of the run that holds no iteration
    mark. *)
Lemma budget_scan_sound (k c : nat) (tr : list event) :
  budget_scan k c tr = true ->
  forall l1 seg l2, tr = l1 ++ seg ++ l2 -> iterations seg = 0%nat ->
    (clicks seg <= k)%nat.
Proof.
  intros H l1 seg l2 -> Hseg.
  destruct (budget_scan_skip _ _ _ _ H) as [c' H'].
  rewrite budget_scan_quiet in H' by exact Hseg.
  apply budget_scan_le in H'. lia.
Qed.

Lemma run_trace_head (left : nat) (s : bool) (o : outcome bool)
    (e : list event) :
  run_trace left s o e -> e = [] \/ exists i tl, e = EvIter i :: tl.
Proof. destruct 1; eauto. Qed.

Lemma run_budget (left : nat) (s : bool) (o : outcome bool) (e : list event) :
  run_trace left s o e -> budget_scan 4 0 e = true.
Proof.
  induction 1 as [s | left | left s' o h body tl Hh Hbody Htl IH
                 | left h body Hh Hbody].
  - reflexivity.
  - reflexivity.
  - destruct (block_counts _ _ _ _ Hh Hbody) as [Hc Hi].
    cbn [budget_scan is_iter]. rewrite app_assoc, budget_scan_quiet by exact Hi.
    cbn [Nat.leb andb Nat.add].
    destruct (run_trace_head _ _ _ _ Htl) as [-> | (i & tl' & ->)].
    + cbn [budget_scan]. now apply Nat.leb_le.
    + cbn [budget_scan is_iter] in IH |- *.
      apply andb_true_iff in IH. destruct IH as [_ IH]. rewrite IH.
      rewrite andb_true_r. now apply Nat.leb_le.
  - destruct (block_counts _ _ _ _ Hh Hbody) as [Hc Hi].
    cbn [budget_scan is_iter]. rewrite <- (app_nil_r (h ++ body)).
    rewrite budget_scan_quiet by exact Hi.
    cbn [Nat.leb andb Nat.add budget_scan]. now apply Nat.leb_le.
Qed.

(** *** The last event *)

Lemma last_event_app (l1 l2 : list event) :
  last_event (l1 ++ l2)
  = match last_event l2 with
    | Some e => Some e
    | None => last_event l1
    end.
Proof.
  induction l1 as [|x l1 IH]; cbn [app last_event].
  - now destruct (last_event l2).
  - rewrite IH. now destruct (last_event l2).
Qed.

Lemma last_event_cons (x : event) (l : list event) :
  exists e, last_event (x :: l) = Some e /\ In e (x :: l).
Proof.
  revert x. induction l as [|y l IH]; intros x.
  - exists x. cbn. split; [reflexivity | now left].
  - destruct (IH y) as (e & He & Hin).
    exists e. split; [|now right].
    change (last_event (x :: y :: l))
      with (match last_event (y :: l) with Some e' => Some e' | None => Some x end).
    now rewrite He.
Qed.

Lemma fill_ok_not_click (h : list event) (e : event) :
  Forall fill_ok h -> In e h -> is_click e = false.
Proof.
  intros H Hin. rewrite Forall_forall in H. destruct (H e Hin) as [Hp _].
  destruct e; try discriminate Hp; reflexivity.
Qed.

Lemma handle_last (h : list event) :
  handle_trace h -> exists e, last_event h = Some e /\ is_click e = false.
Proof.
  intros [h0 H0]. destruct (last_event_cons EvHandleInlineErrors h0) as (e & He & Hin).
  exists e. split; [exact He|].
  destruct Hin as [<-|Hin]; [reflexivity|].
  now apply (fill_ok_not_click h0).
Qed.

Lemma last_event_after_handle (h : list event) :
  handle_trace h -> forall pre tl,
  last_event (pre ++ h ++ tl)
  = match last_event tl with
    | Some e => Some e
    | None => last_event h
    end.
Proof.
  intros Hh pre tl. destruct (handle_last _ Hh) as (e & He & _).
  rewrite !last_event_app. rewrite He. now destruct (last_event tl).
Qed.

Lemma ends_with_submit_after_handle (h : list event) :
  handle_trace h -> forall pre tl,
  ends_with_submit (pre ++ h ++ tl) = ends_with_submit tl.
Proof.
  intros Hh pre tl. unfold ends_with_submit.
  rewrite (last_event_after_handle _ Hh).
  destruct (last_event tl) as [e|]; [reflexivity|].
  destruct (handle_last _ Hh) as (e & -> & Hc).
  destruct e; try reflexivity. discriminate Hc.
Qed.

Lemma pending_after_handle (h : list event) :
  handle_trace h -> forall p pre tl,
  pending p (pre ++ h ++ tl) = pending false tl.
Proof.
  intros Hh p pre tl. unfold pending.
  rewrite (last_event_after_handle _ Hh).
  destruct (last_event tl) as [e|]; [reflexivity|].
  destruct (handle_last _ Hh) as (e & -> & Hc).
  destruct e; try reflexivity. discriminate Hc.
Qed.

Lemma locator_eqb_eq (a b : locator) : locator_eqb a b = true <-> a = b.
Proof.
  unfold locator_eqb. destruct a as [ka qa], b as [kb qb]. cbn.
  rewrite andb_true_iff, !String.eqb_eq. split.
  - now intros [-> ->].
  - intros H. injection H as -> ->. now split.
Qed.

Lemma ends_with_submit_spec (tr : list event) :
  ends_with_submit tr = true
  <-> last_event tr = Some (EvClick submitLoc None).
Proof.
  unfold ends_with_submit. destruct (last_event tr) as [e|].
  - destruct e as [| | |loc err| | | |]; try (split; discriminate).
    destruct err as [msg|]; [split; discriminate|].
    rewrite locator_eqb_eq. split; [now intros -> | congruence].
  - split; discriminate.
Qed.

Ltac before_handle h :=
  match goal with
  | |- context [?a :: ?b :: ?c :: h ++ ?tl] =>
      change (a :: b :: c :: h ++ tl) with ([a; b; c] ++ h ++ tl)
  | |- context [?a :: ?b :: h ++ ?tl] =>
      change (a :: b :: h ++ tl) with ([a; b] ++ h ++ tl)
  | |- context [?a :: h ++ ?tl] =>
      change (a :: h ++ tl) with ([a] ++ h ++ tl)
  end.

Lemma pass_ends (j : Z) (bs : list locator) (s : bool) (o : outcome bool)
    (e : list event) :
  pass_trace j bs s o e -> at_index j bs ->
  match o with
  | Ret s' => s' = s || ends_with_submit e
  | Panic => ends_with_submit e = false
  end.
Proof.
  induction 1 as
    [ j s
    | j bs s
    | j loc rest s o h tl Hh _ IH
    | j loc rest s o h tl Hh _ IH
    | j loc rest s o msg h tl Hh _ IH
    | loc rest s
    | loc rest s
    | j loc rest s o h tl _ _ Hh _ IH ]; intros Hat.
  - now rewrite orb_false_r.
  - reflexivity.
  - before_handle h; rewrite (ends_with_submit_after_handle _ Hh).
    apply IH. now apply at_index_next in Hat.
  - before_handle h; rewrite (ends_with_submit_after_handle _ Hh).
    apply IH. now apply at_index_next in Hat.
  - before_handle h; rewrite (ends_with_submit_after_handle _ Hh).
    apply IH. now apply at_index_next in Hat.
  - destruct (at_index_cases _ _ _ Hat) as [[? _]|[[? _]|[[? _]|[_ ->]]]];
      try discriminate.
    now rewrite orb_true_r.
  - destruct (at_index_cases _ _ _ Hat) as [[_ ->]|[[? _]|[[? _]|[? _]]]];
      try discriminate.
    now rewrite orb_false_r.
  - before_handle h; rewrite (ends_with_submit_after_handle _ Hh).
    apply IH. now apply at_index_next in Hat.
Qed.

Lemma run_trace_submitted (left : nat) (o : outcome bool) (e : list event) :
  run_trace left true o e -> e = [] /\ o = Ret true.
Proof. inversion 1; now split. Qed.

Lemma run_trace_cut (left : nat) (s : bool) (e : list event) :
  run_trace left s Panic e -> e <> [].
Proof. inversion 1; discriminate. Qed.

Lemma ends_with_submit_app_cons (l1 : list event) (x : event) (l2 : list event) :
  ends_with_submit (l1 ++ x :: l2) = ends_with_submit (x :: l2).
Proof.
  unfold ends_with_submit. rewrite last_event_app.
  destruct (last_event_cons x l2) as (e & -> & _). reflexivity.
Qed.

Lemma run_ends (left : nat) (s : bool) (o : outcome bool) (e : list event) :
  run_trace left s o e ->
  match o with
  | Ret s' => s' = s || ends_with_submit e
  | Panic => ends_with_submit e = false
  end.
Proof.
  assert (Hat : at_index 0 buttons) by (split; [lia | reflexivity]).
  induction 1 as [s | left | left s' o h body tl Hh Hbody Htl IH
                 | left h body Hh Hbody].
  - now rewrite orb_false_r.
  - reflexivity.
  - pose proof (pass_ends _ _ _ _ _ Hbody Hat) as Hs'. cbn [orb] in Hs'.
    before_handle h; rewrite (ends_with_submit_after_handle _ Hh).
    cbn [orb]. destruct tl as [|x tl].
    + rewrite app_nil_r. destruct o as [s''|].
      * rewrite IH, <- Hs'. now rewrite orb_false_r.
      * now apply run_trace_cut in Htl.
    + rewrite ends_with_submit_app_cons.
      destruct s'.
      * apply run_trace_submitted in Htl. destruct Htl as [Hnil _].
        discriminate Hnil.
      * exact IH.
  - pose proof (pass_ends _ _ _ _ _ Hbody Hat) as Hcut.
    before_handle h; now rewrite (ends_with_submit_after_handle _ Hh).
Qed.

(** *** After a confirmed advance *)

Lemma advance_scan_app (p : bool) (l1 l2 : list event) :
  advance_scan p (l1 ++ l2)
  = advance_scan p l1 && advance_scan (pending p l1) l2.
Proof.
  revert p. induction l1 as [|e l1 IH]; intros p.
  - reflexivity.
  - cbn [app advance_scan]. rewrite IH, andb_assoc. f_equal. f_equal.
    unfold pending. cbn [last_event]. now destruct (last_event l1).
Qed.

Lemma fill_ok_scan (h : list event) :
  Forall fill_ok h -> advance_scan false h = true.
Proof.
  induction 1 as [|e h [He _] _ IH]; [reflexivity|].
  cbn [advance_scan]. destruct e; try discriminate He; exact IH.
Qed.

Lemma scan_after_handle (h : list event) :
  handle_trace h -> forall tl,
  advance_scan false (h ++ tl) = advance_scan false tl.
Proof.
  intros Hh tl. rewrite advance_scan_app.
  rewrite <- (app_nil_r h) at 2. rewrite <- (app_nil_l (h ++ [])).
  rewrite (pending_after_handle _ Hh). unfold pending at 1. cbn [last_event].
  destruct Hh as [h0 H0]. cbn [advance_scan is_advance andb].
  now rewrite (fill_ok_scan _ H0).
Qed.

Lemma pass_scan (j : Z) (bs : list locator) (s : bool) (o : outcome bool)
    (e : list event) :
  pass_trace j bs s o e -> at_index j bs -> advance_scan false e = true.
Proof.
  induction 1 as
    [ j s
    | j bs s
    | j loc rest s o h tl Hh _ IH
    | j loc rest s o h tl Hh _ IH
    | j loc rest s o msg h tl Hh _ IH
    | loc rest s
    | loc rest s
    | j loc rest s o h tl Hj3 Hj0 Hh _ IH ]; intros Hat;
    try reflexivity;
    try (cbn [advance_scan is_advance is_iter andb];
         rewrite (scan_after_handle _ Hh);
         apply IH; now apply at_index_next in Hat).
  destruct (at_index_cases _ _ _ Hat) as [[? _]|[[_ ->]|[[_ ->]|[? _]]]];
      try contradiction;
      (cbn [advance_scan is_advance is_iter andb];
       change (locator_eqb _ nextLoc) with false;
       rewrite (scan_after_handle _ Hh);
       apply IH; now apply at_index_next in Hat).
Qed.

Lemma run_scan (left : nat) (s : bool) (o : outcome bool) (e : list event) :
  run_trace left s o e -> forall p, advance_scan p e = true.
Proof.
  assert (Hat : at_index 0 buttons) by (split; [lia | reflexivity]).
  induction 1 as [s | left | left s' o h body tl Hh Hbody _ IH
                 | left h body Hh Hbody]; intros p;
    try reflexivity.
  - cbn [advance_scan is_iter is_advance].
    replace (if p then true else true) with true by now destruct p.
    cbn [andb]. rewrite (scan_after_handle _ Hh), advance_scan_app.
    rewrite (pass_scan _ _ _ _ _ Hbody Hat).
    apply IH.
  - cbn [advance_scan is_iter is_advance].
    replace (if p then true else true) with true by now destruct p.
    cbn [andb]. rewrite (scan_after_handle _ Hh).
    exact (pass_scan _ _ _ _ _ Hbody Hat).
Qed.

Lemma advance_scan_nth (tr : list event) (p : bool) (n : nat) (e : event) :
  advance_scan p tr = true ->
  nth_error tr n = Some e -> is_advance e = true ->
  match nth_error tr (S n) with
  | Some e' => is_iter e' = true
  | None => True
  end.
Proof.
  revert p tr. induction n as [|n IH]; intros p tr H Hn He.
  - destruct tr as [|x tr]; [discriminate Hn|]. injection Hn as ->.
    cbn [advance_scan] in H. apply andb_true_iff in H. destruct H as [_ H].
    rewrite He in H. cbn [nth_error]. destruct tr as [|y tr]; [exact I|].
    cbn [advance_scan] in H. apply andb_true_iff in H. now destruct H as [H _].
  - destruct tr as [|x tr]; [discriminate Hn|]. cbn [nth_error] in Hn.
    cbn [advance_scan] in H. apply andb_true_iff in H. destruct H as [_ H].
    exact (IH _ _ H Hn He).
Qed.

(** *** What is typed *)

Lemma run_typed (P : event -> Prop) :
  (forall e, fill_ok e -> P e) ->
  (forall e, passive e = false -> P e) ->
  (forall loc b, P (EvIsPresent loc b)) ->
  forall left s o e, run_trace left s o e -> Forall P e.
Proof.
  intros Hfill Hact Hlook.
  assert (Hhandle : forall h, handle_trace h -> Forall P h).
  { intros h [h0 H0]. constructor; [now apply Hact|].
    eapply Forall_impl; [|exact H0]. exact Hfill. }
  assert (Hpass : forall j bs s o e, pass_trace j bs s o e -> Forall P e).
  { induction 1;
      repeat (first [ apply Forall_nil
                    | apply Forall_cons; [first [apply Hlook | now apply Hact]|]
                    | apply Forall_app; split
                    | now apply Hhandle
                    | assumption ]). }
  induction 1 as [s | left | left s' o h body tl Hh Hbody _ IH
                 | left h body Hh Hbody].
  - constructor.
  - constructor.
  - constructor; [now apply Hact|].
    apply Forall_app; split; [now apply Hhandle|].
    apply Forall_app; split; [now apply (Hpass _ _ _ _ _ Hbody) | exact IH].
  - constructor; [now apply Hact|].
    apply Forall_app; split;
      [now apply Hhandle | now apply (Hpass _ _ _ _ _ Hbody)].
Qed.

End Wizard_run_properties.

(** X7. However the page answers, a run of [FillOutEasyApplyForm] tries at
    most four actions in each of its outer iterations: a stretch of the run
    that holds no iteration mark holds at most four action attempts.  The
    run has at most 15 iterations, hence at most 60 action attempts in
    all. *)
Theorem wizard_click_budget {W Elem Frame : Type} (lib : GoLib)
    (env : Env W Elem Frame) (profile : LinkedInProfile) (w : W) :
  let tr := events (FillOutEasyApplyForm lib env profile w) in
  (forall l1 seg l2 : list event,
     tr = (l1 ++ seg ++ l2)%list -> iterations seg = 0%nat ->
     (clicks seg <= 4)%nat)
  /\ (iterations tr <= 15)%nat
  /\ (clicks tr <= 60)%nat.
Proof.
  cbv zeta.
  destruct (FillOutEasyApplyForm_trace W Elem Frame lib env profile w)
    as (o & _ & Hrun).
  destruct (run_counts _ _ _ _ _ _ _ Hrun) as [Hc Hi].
  split; [|split; lia].
  exact (budget_scan_sound _ _ _ (run_budget _ _ _ _ _ _ _ Hrun)).
Qed.

(** The run that is advanced fifteen times: one action in each iteration. *)
Example wizard_fifteen_actions :
  clicks (events (FillOutEasyApplyForm Sample.ascii_lib
     (Sample.scripted_env Sample.endless_steps Sample.no_inputs [] true)
     Sample.sample_profile Sample.start_page)) = 15%nat.
Proof. vm_compute. reflexivity. Qed.

(** X8. [FillOutEasyApplyForm] reports the application as submitted exactly
    when the last thing its run did is a confirmed action on the submit
    button.  Whenever it returns, the error is nil, so a run that returns
    without ending on that action reports (false, nil); a run cut by a
    panic does not end on that action. *)
Theorem wizard_reports_submitted_iff_last_is_submit {W Elem Frame : Type}
    (lib : GoLib) (env : Env W Elem Frame) (profile : LinkedInProfile) (w : W) :
  let r := FillOutEasyApplyForm lib env profile w in
  (out r = Ret (true, None)
   <-> last_event (events r) = Some (EvClick submitLoc None))
  /\ (forall s err, out r = Ret (s, err) -> err = None)
  /\ (forall res, out r = Ret res ->
      last_event (events r) <> Some (EvClick submitLoc None) ->
      res = (false, None))
  /\ (out r = Panic ->
      last_event (events r) <> Some (EvClick submitLoc None)).
Proof.
  cbv zeta.
  destruct (FillOutEasyApplyForm_trace W Elem Frame lib env profile w)
    as (o & Hout & Hrun).
  apply run_ends in Hrun. rewrite Hout.
  destruct o as [s|]; cbn [orb] in Hrun.
  - split; [|split; [|split]].
    + rewrite <- ends_with_submit_spec, <- Hrun.
      destruct s; split; congruence.
    + intros s0 err H. now injection H as _ <-.
    + intros res H Hlast. injection H as <-. destruct s; [|reflexivity].
      exfalso. apply Hlast. apply ends_with_submit_spec. now symmetry.
    + discriminate.
  - split; [|split; [|split]].
    + split; [discriminate|]. intros Hlast.
      apply ends_with_submit_spec in Hlast. congruence.
    + discriminate.
    + discriminate.
    + intros _ Hlast. apply ends_with_submit_spec in Hlast. congruence.
Qed.

(** On a modal that is not a shadow host the run is cut in the first
    error-handling pass and ends on a look at the page. *)
Example wizard_cut_run_ends_on_a_look :
  last_event (events (FillOutEasyApplyForm Sample.ascii_lib
     (Sample.rootless_env Sample.error_steps) Sample.sample_profile
     Sample.start_page)) = Some (EvIsPresent errorLoc true).
Proof. vm_compute. reflexivity. Qed.

(** X9. In a run of [FillOutEasyApplyForm], what follows a confirmed action
    on the advance button, if anything does, is the mark of the next outer
    iteration: the pass over the buttons ends there, and the review, follow
    and submit buttons are not tried in it. *)
Theorem wizard_advance_ends_pass {W Elem Frame : Type} (lib : GoLib)
    (env : Env W Elem Frame) (profile : LinkedInProfile) (w : W) (n : nat)
    (Hadvance : nth_error (events (FillOutEasyApplyForm lib env profile w)) n
                = Some (EvClick nextLoc None)) :
  nth_error (events (FillOutEasyApplyForm lib env profile w)) (S n) = None
  \/ exists i,
       nth_error (events (FillOutEasyApplyForm lib env profile w)) (S n)
       = Some (EvIter i).
Proof.
  destruct (FillOutEasyApplyForm_trace W Elem Frame lib env profile w)
    as (o & _ & Hrun).
  pose proof (run_scan W lib profile _ _ _ _ Hrun false) as Hscan.
  pose proof (advance_scan_nth _ _ _ _ Hscan Hadvance eq_refl) as H.
  destruct (nth_error (events (FillOutEasyApplyForm lib env profile w)) (S n))
    as [e|]; [|now left].
  right. destruct e; try discriminate H. eauto.
Qed.

Lemma wizard_advance_ends_pass_witness :
  nth_error
    (events (FillOutEasyApplyForm Sample.ascii_lib
               (Sample.scripted_env Sample.three_steps Sample.no_inputs [] true)
               Sample.sample_profile Sample.start_page)) 6 = None
  \/ exists i,
       nth_error
         (events (FillOutEasyApplyForm Sample.ascii_lib
                    (Sample.scripted_env Sample.three_steps Sample.no_inputs [] true)
                    Sample.sample_profile Sample.start_page)) 6
       = Some (EvIter i).
Proof.
  apply (wizard_advance_ends_pass Sample.ascii_lib
           (Sample.scripted_env Sample.three_steps Sample.no_inputs [] true)
           Sample.sample_profile Sample.start_page 5).
  vm_compute. reflexivity.
Defined.

(** X10. Every value a run of [FillOutEasyApplyForm] logs as typed into a
    field is the answer of [ChooseValue] without fallback for the label of
    that field and some input type, hence one of the seven strings made from
    the profile. *)
Theorem wizard_types_profile_answers {W Elem Frame : Type} (lib : GoLib)
    (env : Env W Elem Frame) (profile : LinkedInProfile) (w : W)
    (labelText value : string)
    (Hfilled : In (EvFilled labelText value)
                 (events (FillOutEasyApplyForm lib env profile w))) :
  (exists inputType : string, forall w' : W,
     value = fst (ChooseValue lib labelText inputType profile None w'))
  /\ In value (profile_answers profile).
Proof.
  destruct (FillOutEasyApplyForm_trace W Elem Frame lib env profile w)
    as (o & _ & Hrun).
  assert (Hall : Forall (fun e => typed_as_resolved (W:=W) lib profile e
                                  /\ typed_from_profile profile e)
                   (events (FillOutEasyApplyForm lib env profile w))).
  { revert Hrun. apply run_typed.
    - intros e [_ He]. split; [exact He|].
      destruct e; try exact I. cbn in He |- *. destruct He as (t & Ht).
      rewrite (Ht w). apply ChooseValue_no_fallback_range.
    - intros e He. destruct e; try discriminate He; split; exact I.
    - intros loc b. split; exact I. }
  rewrite Forall_forall in Hall. exact (Hall _ Hfilled).
Qed.

Lemma wizard_types_profile_answers_witness :
  (exists inputType : string, forall w' : Sample.page_state,
     "4"%string
     = fst (ChooseValue Sample.ascii_lib "Years of relevant experience" inputType
              Sample.sample_profile None w'))
  /\ In "4"%string (profile_answers Sample.sample_profile).
Proof.
  apply (wizard_types_profile_answers Sample.ascii_lib
           (Sample.scripted_env Sample.steps_after_error Sample.one_input [] true)
           Sample.sample_profile Sample.start_page
           "Years of relevant experience" "4").
  vm_compute. repeat (first [left; reflexivity | right]).
Defined.

(** ** Buttons of the main document *)

Section Main_document.
Variables W Elem Frame : Type.
Variable lib : GoLib.
Variable env : Env W Elem Frame.
Variable profile : LinkedInProfile.
Local Open Scope list_scope.

(** A property of the page that waiting and looking keep, on a page whose
    main document has no iframe. *)
Variable Inv : W -> Prop.
Hypothesis Hwait : forall w, Inv w -> Inv (page_WaitLoad env w).
Hypothesis Hsleep : forall w, Inv w -> Inv (time_Sleep env w).
Hypothesis Hlook : forall t sel w, Inv w -> Inv (snd (page_Element env t sel w)).
Hypothesis Hframes : forall w, Inv w ->
  fst (page_Elements env "iframe" w) = [] /\ Inv (snd (page_Elements env "iframe" w)).

Lemma isPresent_main (loc : locator) (w : W) :
  Inv w ->
  post (isPresent env loc) w
    (fun b w' _ =>
       Inv w'
       /\ b = match fst (page_Element env 4000 (q loc) (page_WaitLoad env w)) with
              | Some _ => true
              | None => false
              end).
Proof.
  intros Hw. unfold isPresent. post_step. post_step. post_step. post_step.
  pose proof (Hlook 4000 (q loc) _ (Hwait _ Hw)) as Hw1.
  destruct (page_Element env 4000 (q loc) (page_WaitLoad env w)) as [found w1].
  cbn [fst snd] in *. destruct found as [el|].
  - post_step. cbv iota. post_steps. now split.
  - post_step. cbv iota. post_step. post_step.
    destruct (Hframes _ Hw1) as [Hnil Hw2].
    destruct (page_Elements env "iframe" w1) as [iframes w2].
    cbn [fst snd] in *. subst iframes. cbn [isPresent_iframes].
    post_steps. now split.
Qed.

Lemma handleInlineErrors_main (w : W) :
  Inv w -> post (handleInlineErrors lib env profile) w (fun _ w' _ => Inv w').
Proof.
  intros Hw. unfold handleInlineErrors. post_step. post_step. post_step.
  eapply post_conseq; [now apply isPresent_main|]. cbv beta.
  intros b w1 ev1 [Hw1 _]. destruct b; cbn [negb].
  - post_step. post_step.
    destruct (Hframes _ Hw1) as [Hnil Hw2].
    destruct (page_Elements env "iframe" w1) as [iframes w2].
    cbn [fst snd] in *. subst iframes. cbn [handleInlineErrors_iframes].
    post_steps. exact Hw2.
  - post_steps. exact Hw1.
Qed.

Lemma clickWhenClickable_main (loc : locator) (w : W) :
  Inv w -> kind loc = "css"%string ->
  post (clickWhenClickable env loc) w
    (fun err w' _ =>
       Inv w'
       /\ (fst (page_Element env 2000 (q loc) w) <> None -> err = None)).
Proof.
  intros Hw Hkind. unfold clickWhenClickable. rewrite Hkind.
  change (String.eqb "css" "xpath") with false. cbv iota.
  post_step. post_step. post_step.
  pose proof (Hlook 2000 (q loc) _ Hw) as Hw1.
  destruct (page_Element env 2000 (q loc) w) as [found w1].
  cbn [fst snd] in *. destruct found as [el|].
  - post_step. cbv iota. post_steps. now split.
  - post_step. cbv iota. post_step. post_step.
    destruct (Hframes _ Hw1) as [Hnil Hw2].
    destruct (page_Elements env "iframe" w1) as [iframes w2].
    cbn [fst snd] in *. subst iframes. cbn [clickWhenClickable_iframes].
    post_steps. split; [exact Hw2 | congruence].
Qed.

Hypothesis Hsubmit : forall t w, Inv w ->
  fst (page_Element env t submitSel w) <> None.
Hypothesis Hnext : forall t w, Inv w ->
  fst (page_Element env t nextSel w) = None.
Hypothesis Herror : forall t w, Inv w ->
  fst (page_Element env t errorMessageSel w) = None.

Lemma hasErrors_main (w : W) :
  Inv w -> post (hasErrors env) w (fun b w' _ => Inv w' /\ b = false).
Proof.
  intros Hw. unfold hasErrors.
  eapply post_conseq; [now apply isPresent_main|]. cbv beta.
  intros b w1 ev1 [Hw1 ->]. split; [exact Hw1|].
  change (q errorLoc) with errorMessageSel.
  now rewrite (Herror 4000 _ (Hwait _ Hw)).
Qed.

Lemma inner_loop_main (bs : list locator) (j : Z) (s : bool) (w : W) :
  Inv w -> at_index j bs ->
  post (inner_loop lib env profile j bs s) w
    (fun s' w' _ => Inv w' /\ (j <= 3 -> s' = true)).
Proof.
  revert j w. induction bs as [|loc rest IH]; intros j w Hw Hat;
    cbn [inner_loop].
  - post_steps. split; [exact Hw|]. intros Hj. exfalso.
    destruct Hat as [Hj0 Hbs].
    destruct (Z.to_nat j) as [|[|[|[|n]]]] eqn:E; try discriminate Hbs. lia.
  - assert (Hcont : j <> 3 -> forall w0, Inv w0 ->
              post (bind (handleInlineErrors lib env profile)
                      (fun _ => inner_loop lib env profile (j + 1) rest s)) w0
                (fun s' w' _ => Inv w' /\ (j <= 3 -> s' = true))).
    { intros Hj3 w0 Hw0. post_step.
      eapply post_conseq; [now apply handleInlineErrors_main|]. cbv beta.
      intros ? w1 ev1 Hw1.
      eapply post_conseq;
        [apply IH; [exact Hw1 | now apply at_index_next in Hat]|].
      cbv beta. intros s' w2 ev2 [Hw2 Hs']. split; [exact Hw2|].
      intros Hj. apply Hs'. lia. }
    post_step.
    eapply post_conseq; [now apply isPresent_main|]. cbv beta.
    intros b w1 ev1 [Hw1 Hb].
    destruct b.
    + post_step. cbv iota. post_step.
      eapply post_conseq; [now apply hasErrors_main|]. cbv beta.
      intros eb w2 ev2 [Hw2 ->]. post_step. cbn [negb]. cbv iota. post_step.
      assert (Hkind : kind loc = "css"%string).
      { destruct (at_index_cases _ _ _ Hat)
          as [[_ ->]|[[_ ->]|[[_ ->]|[_ ->]]]]; reflexivity. }
      eapply post_conseq; [now apply clickWhenClickable_main|]. cbv beta.
      intros err w3 ev3 [Hw3 Herr].
      destruct err as [msg|]; cbv iota.
      * destruct (at_index_cases _ _ _ Hat)
          as [[-> ->]|[[-> ->]|[[-> ->]|[-> ->]]]].
        -- exfalso. change (q nextLoc) with nextSel in Hb.
           now rewrite (Hnext 4000 _ (Hwait _ Hw)) in Hb.
        -- apply Hcont; [lia | assumption].
        -- apply Hcont; [lia | assumption].
        -- exfalso. change (q submitLoc) with submitSel in Herr.
           specialize (Herr (Hsubmit 2000 _ Hw2)). discriminate Herr.
      * destruct (at_index_cases _ _ _ Hat)
          as [[-> ->]|[[-> ->]|[[-> ->]|[-> ->]]]].
        -- exfalso. change (q nextLoc) with nextSel in Hb.
           now rewrite (Hnext 4000 _ (Hwait _ Hw)) in Hb.
        -- change (1 =? 3) with false. change (1 =? 0) with false. cbv iota.
           apply Hcont; [lia | assumption].
        -- change (2 =? 3) with false. change (2 =? 0) with false. cbv iota.
           apply Hcont; [lia | assumption].
        -- change (3 =? 3) with true. cbv iota. post_steps. now split.
    + post_step. cbv iota. post_step. cbv iota.
      destruct (at_index_cases _ _ _ Hat)
        as [[-> ->]|[[-> ->]|[[-> ->]|[-> ->]]]];
        try (apply Hcont; [lia | assumption]).
      exfalso. change (q submitLoc) with submitSel in Hb.
      destruct (page_Element env 4000 submitSel (page_WaitLoad env w))
        as [found w'] eqn:E.
      pose proof (Hsubmit 4000 _ (Hwait _ Hw)) as Hs. rewrite E in Hs.
      cbn [fst] in *. destruct found; [discriminate Hb | now apply Hs].
Qed.

Lemma FillOutEasyApplyForm_main (w : W) :
  Inv w ->
  post (FillOutEasyApplyForm lib env profile) w
    (fun r w' _ => r = (true, None) /\ Inv w').
Proof.
  intros Hw. unfold FillOutEasyApplyForm. post_step. post_step. post_step.
  change (outer_loop lib env profile 15 false)
    with (bind (emit (EvIter (15 - Z.of_nat 15)))
            (fun _ => bind (handleInlineErrors lib env profile)
               (fun _ => bind (inner_loop lib env profile 0 buttons false)
                  (fun s' => outer_loop lib env profile 14 s')))).
  post_step. post_step. post_step.
  eapply post_conseq; [apply handleInlineErrors_main; now apply Hsleep|].
  cbv beta. intros ? w1 ev1 Hw1. post_step.
  eapply post_conseq;
    [apply inner_loop_main; [exact Hw1 | split; [lia | reflexivity]]|].
  cbv beta. intros s' w2 ev2 [Hw2 Hs']. rewrite Hs' by lia.
  cbn [outer_loop]. post_steps. split; [reflexivity | now apply Hsleep].
Qed.

End Main_document.

(** X11. A submit button of the main document is reported as submitted
    without being pressed.  On a page without iframes whose main document
    has the submit button and neither the advance button nor the inline
    error marker, [FillOutEasyApplyForm] returns (true, nil), and whatever
    waiting and looking keep still holds of the page: nothing was scrolled
    to, focused or confirmed. *)
Theorem wizard_reports_submit_without_pressing {W Elem Frame : Type}
    (lib : GoLib) (env : Env W Elem Frame) (profile : LinkedInProfile)
    (Inv : W -> Prop)
    (Hwait : forall w, Inv w -> Inv (page_WaitLoad env w))
    (Hsleep : forall w, Inv w -> Inv (time_Sleep env w))
    (Hlook : forall t sel w, Inv w -> Inv (snd (page_Element env t sel w)))
    (Hframes : forall w, Inv w ->
       fst (page_Elements env "iframe" w) = []
       /\ Inv (snd (page_Elements env "iframe" w)))
    (Hsubmit : forall t w, Inv w -> fst (page_Element env t submitSel w) <> None)
    (Hnext : forall t w, Inv w -> fst (page_Element env t nextSel w) = None)
    (Herror : forall t w, Inv w ->
       fst (page_Element env t errorMessageSel w) = None)
    (w : W) (Hw : Inv w) :
  out (FillOutEasyApplyForm lib env profile w) = Ret (true, None)
  /\ Inv (world (FillOutEasyApplyForm lib env profile w)).
Proof.
  pose proof (FillOutEasyApplyForm_main W Elem Frame lib env profile Inv
                Hwait Hsleep Hlook Hframes Hsubmit Hnext Herror w Hw) as H.
  apply post_elim in H. destruct H as (r & Hout & -> & Hinv).
  split; [exact Hout | exact Hinv].
Qed.

Lemma wizard_reports_submit_without_pressing_witness :
  out (FillOutEasyApplyForm Sample.ascii_lib
         (MainDocument.main_document_env [submitSel])
         Sample.sample_profile Sample.start_page) = Ret (true, None)
  /\ MainDocument.untouched
       (world (FillOutEasyApplyForm Sample.ascii_lib
                 (MainDocument.main_document_env [submitSel])
                 Sample.sample_profile Sample.start_page)).
Proof.
  apply (wizard_reports_submit_without_pressing Sample.ascii_lib
           (MainDocument.main_document_env [submitSel]) Sample.sample_profile
           MainDocument.untouched).
  - intros w H. exact H.
  - intros w H. exact H.
  - intros t sel w H. cbn [page_Element MainDocument.main_document_env].
    destruct (Sample.shown [submitSel] sel); exact H.
  - intros w H. split; [reflexivity | exact H].
  - intros t w _. vm_compute. discriminate.
  - intros t w _. reflexivity.
  - intros t w _. reflexivity.
  - vm_compute. repeat split.
Defined.

(** ** The profile store *)

Section Store_facts.
Import Store.
Variable json : JSONLib.
Local Open Scope list_scope.

Lemma max_rowid_ge (rows : list row) (r : row) :
  In r rows -> rowid r <= max_rowid rows.
Proof.
  induction rows as [|x rows IH]; intros Hin; [contradiction|].
  cbn [max_rowid fold_right]. fold (max_rowid rows).
  destruct Hin as [->|Hin]; [lia|]. specialize (IH Hin). lia.
Qed.

Lemma find_rowid_none (rows : list row) (id : Z) :
  (forall r, In r rows -> rowid r <> id) ->
  find (fun r => rowid r =? id) rows = None.
Proof.
  intros H. induction rows as [|x rows IH]; [reflexivity|].
  cbn [find]. destruct (Z.eqb_spec (rowid x) id) as [E|_].
  - exfalso. apply (H x); [now left | exact E].
  - apply IH. intros r Hr. apply H. now right.
Qed.

Lemma find_rowid_app (rows extra : list row) (id : Z) :
  find (fun r => rowid r =? id) (rows ++ extra)
  = match find (fun r => rowid r =? id) rows with
    | Some r => Some r
    | None => find (fun r => rowid r =? id) extra
    end.
Proof.
  induction rows as [|x rows IH]; [reflexivity|].
  cbn [app find]. now destruct (rowid x =? id).
Qed.

Lemma next_rowid_fresh (s : Store) :
  find (fun r => rowid r =? next_rowid s) (linkedin_profiles s) = None.
Proof.
  apply find_rowid_none. intros r Hr. apply max_rowid_ge in Hr.
  unfold next_rowid. lia.
Qed.

Lemma find_rowid_map (f : row -> row) (rows : list row) (id : Z) :
  (forall r, rowid (f r) = rowid r) ->
  find (fun r => rowid r =? id) (map f rows)
  = option_map f (find (fun r => rowid r =? id) rows).
Proof.
  intros Hf. induction rows as [|x rows IH]; [reflexivity|].
  cbn [map find]. rewrite Hf. now destruct (rowid x =? id).
Qed.

Lemma find_rowid_filter (rows : list row) (id id' : Z) :
  id' <> id ->
  find (fun r => rowid r =? id') (filter (fun r => negb (rowid r =? id)) rows)
  = find (fun r => rowid r =? id') rows.
Proof.
  intros Hne. induction rows as [|x rows IH]; [reflexivity|].
  cbn [filter find].
  destruct (Z.eqb_spec (rowid x) id) as [E|E]; cbn [negb].
  - destruct (Z.eqb_spec (rowid x) id') as [E'|_]; [congruence | exact IH].
  - cbn [find]. now rewrite IH.
Qed.

Lemma find_rowid_filtered (rows : list row) (id : Z) :
  find (fun r => rowid r =? id) (filter (fun r => negb (rowid r =? id)) rows)
  = None.
Proof.
  apply find_rowid_none. intros r Hr. apply filter_In in Hr.
  destruct Hr as [_ Hr]. now destruct (Z.eqb_spec (rowid r) id).
Qed.

Lemma filter_rowid_nil (rows : list row) (id : Z) :
  filter (fun r => rowid r =? id) rows = []
  <-> find (fun r => rowid r =? id) rows = None.
Proof.
  induction rows as [|x rows IH]; [now split|].
  cbn [filter find]. destruct (rowid x =? id); [split; discriminate | exact IH].
Qed.

Lemma map_rowid_unchanged (f : row -> row) (rows : list row) (id : Z) :
  find (fun r => rowid r =? id) rows = None ->
  map (fun r => if rowid r =? id then f r else r) rows = rows.
Proof.
  induction rows as [|x rows IH]; [reflexivity|].
  cbn [find map]. destruct (rowid x =? id); [discriminate|].
  intros H. now rewrite IH.
Qed.

Lemma Create_then_Get (s : Store) (email password : string) (now : Z) :
  json_Unmarshal json "[]" = Some [] ->
  GetLinkedInProfile json
    (snd (CreateLinkedInProfile json s email password now)) (next_rowid s)
  = inl (mkStored
           (mkProfile (next_rowid s) email password EmptyString [] []
              false EmptyString 0 EmptyString EmptyString EmptyString 0)
           now now).
Proof.
  intros Hjson. unfold CreateLinkedInProfile, GetLinkedInProfile.
  cbn [fst snd linkedin_profiles].
  rewrite find_rowid_app, next_rowid_fresh. cbn [find rowid].
  rewrite Z.eqb_refl. unfold scan. cbn. now rewrite Hjson.
Qed.

End Store_facts.

(** X12. [CreateLinkedInProfile] returns the profile it has just inserted,
    under an identifier no profile had: its only fields set are the
    credentials, its positions and locations are empty, and every other
    profile reads as before. *)
Theorem CreateLinkedInProfile_returns_the_new_profile (json : Store.JSONLib)
    (s : Store.Store) (email password : string) (now : Z)
    (Hjson : Store.json_Unmarshal json "[]" = Some []) :
  Store.GetLinkedInProfile json s (Store.next_rowid s)
    = inr "failed to get LinkedIn profile: sql: no rows in result set"%string
  /\ fst (Store.CreateLinkedInProfile json s email password now)
     = inl (Store.mkStored
              (mkProfile (Store.next_rowid s) email password EmptyString [] []
                 false EmptyString 0 EmptyString EmptyString EmptyString 0)
              now now)
  /\ forall id, id <> Store.next_rowid s ->
       Store.GetLinkedInProfile json
         (snd (Store.CreateLinkedInProfile json s email password now)) id
       = Store.GetLinkedInProfile json s id.
Proof.
  split; [unfold Store.GetLinkedInProfile; now rewrite next_rowid_fresh|].
  split.
  - now apply Create_then_Get.
  - unfold Store.CreateLinkedInProfile, Store.GetLinkedInProfile.
    cbn [fst snd Store.linkedin_profiles].
    intros id Hid. rewrite find_rowid_app.
    destruct (find _ (Store.linkedin_profiles s)); [reflexivity|].
    cbn [find Store.rowid].
    destruct (Z.eqb_spec (Store.next_rowid s) id) as [E|_]; [congruence|].
    reflexivity.
Qed.

Lemma CreateLinkedInProfile_returns_the_new_profile_witness :
  Store.GetLinkedInProfile Sample2.plain_json Store.migrated 1
    = inr "failed to get LinkedIn profile: sql: no rows in result set"%string
  /\ fst (Store.CreateLinkedInProfile Sample2.plain_json Store.migrated
            "ada@example.org" "secret" 100)
     = inl (Store.mkStored
              (mkProfile 1 "ada@example.org" "secret" EmptyString [] []
                 false EmptyString 0 EmptyString EmptyString EmptyString 0)
              100 100)
  /\ forall id, id <> 1 ->
       Store.GetLinkedInProfile Sample2.plain_json
         (snd (Store.CreateLinkedInProfile Sample2.plain_json Store.migrated
                 "ada@example.org" "secret" 100)) id
       = Store.GetLinkedInProfile Sample2.plain_json Store.migrated id.
Proof.
  apply (CreateLinkedInProfile_returns_the_new_profile Sample2.plain_json
           Store.migrated "ada@example.org" "secret" 100).
  reflexivity.
Defined.

(** X13. [UpdateLinkedInProfile] on a stored profile returns it with the ten
    fields of the update, its identifier and creation time kept, its update
    time set, and an empty zip code and a desired salary of 0; the other
    profiles read as before.  This holds when the JSON library decodes the
    two lists it encoded. *)
Theorem UpdateLinkedInProfile_round_trip (json : Store.JSONLib)
    (s : Store.Store) (id : Z) (update : Store.LinkedInProfileUpdate.t)
    (now : Z) (old : Store.Stored)
    (Hold : Store.GetLinkedInProfile json s id = inl old)
    (Hpositions :
       Store.json_Unmarshal json
         (Store.json_Marshal json (Store.LinkedInProfileUpdate.Positions update))
       = Some (Store.LinkedInProfileUpdate.Positions update))
    (Hlocations :
       Store.json_Unmarshal json
         (Store.json_Marshal json (Store.LinkedInProfileUpdate.Locations update))
       = Some (Store.LinkedInProfileUpdate.Locations update)) :
  fst (Store.UpdateLinkedInProfile json s id update now)
  = inl (Store.mkStored
           (mkProfile id
              (Store.LinkedInProfileUpdate.Email update)
              (Store.LinkedInProfileUpdate.Password update)
              (Store.LinkedInProfileUpdate.PhoneNumber update)
              (Store.LinkedInProfileUpdate.Positions update)
              (Store.LinkedInProfileUpdate.Locations update)
              (Store.LinkedInProfileUpdate.RemoteOnly update)
              (Store.LinkedInProfileUpdate.ProfileURL update)
              (Store.LinkedInProfileUpdate.YearsExperience update)
              (Store.LinkedInProfileUpdate.UserCity update)
              (Store.LinkedInProfileUpdate.UserState update)
              EmptyString 0)
           (Store.CreatedAt old) now)
  /\ forall id', id' <> id ->
       Store.GetLinkedInProfile json
         (snd (Store.UpdateLinkedInProfile json s id update now)) id'
       = Store.GetLinkedInProfile json s id'.
Proof.
  unfold Store.UpdateLinkedInProfile, Store.GetLinkedInProfile in *.
  cbn [fst snd Store.linkedin_profiles].
  split.
  - rewrite find_rowid_map
      by (intros r; destruct (Store.rowid r =? id); reflexivity).
    destruct (find _ (Store.linkedin_profiles s)) as [r|] eqn:E;
      [|discriminate Hold].
    injection Hold as <-. apply find_some in E. destruct E as [_ E].
    apply Z.eqb_eq in E. cbn [option_map]. rewrite <- E, Z.eqb_refl.
    unfold Store.scan, Store.update_row. cbn.
    rewrite Hpositions, Hlocations.
    now destruct (Store.LinkedInProfileUpdate.RemoteOnly update).
  - intros id' Hid'.
    rewrite find_rowid_map
      by (intros r; destruct (Store.rowid r =? id); reflexivity).
    destruct (find (fun r => Store.rowid r =? id') (Store.linkedin_profiles s))
      as [r|] eqn:E; [|reflexivity].
    apply find_some in E. destruct E as [_ E]. apply Z.eqb_eq in E.
    cbn [option_map].
    destruct (Z.eqb_spec (Store.rowid r) id) as [E'|_]; [congruence|].
    reflexivity.
Qed.

Lemma UpdateLinkedInProfile_round_trip_witness :
  fst (Store.UpdateLinkedInProfile Sample2.plain_json Sample2.store_1 1
         Sample2.ada_update 200)
  = inl (Store.mkStored
           (mkProfile 1 "ada@example.org" "secret" "555-0100" ["engineer"]
              ["Austin"; "Remote"] true "https://www.linkedin.com/in/ada" 4
              "Austin" "TX" EmptyString 0)
           100 200)
  /\ forall id', id' <> 1 ->
       Store.GetLinkedInProfile Sample2.plain_json
         (snd (Store.UpdateLinkedInProfile Sample2.plain_json Sample2.store_1 1
                 Sample2.ada_update 200)) id'
       = Store.GetLinkedInProfile Sample2.plain_json Sample2.store_1 id'.
Proof.
  apply (UpdateLinkedInProfile_round_trip Sample2.plain_json Sample2.store_1 1
           Sample2.ada_update 200
           (Store.mkStored
              (mkProfile 1 "ada@example.org" "secret" EmptyString [] []
                 false EmptyString 0 EmptyString EmptyString EmptyString 0)
              100 100)).
  - reflexivity.
  - reflexivity.
  - reflexivity.
Defined.

(** X14. [UpdateLinkedInProfile] on an identifier that is not stored creates
    nothing: the table is left as it was and the error of the lookup is
    returned. *)
Theorem UpdateLinkedInProfile_unknown_id (json : Store.JSONLib)
    (s : Store.Store) (id : Z) (update : Store.LinkedInProfileUpdate.t)
    (now : Z) (err : error)
    (Hmissing : Store.GetLinkedInProfile json s id = inr err) :
  Store.UpdateLinkedInProfile json s id update now
  = (inr "failed to get LinkedIn profile: sql: no rows in result set"%string, s).
Proof.
  unfold Store.UpdateLinkedInProfile, Store.GetLinkedInProfile in *.
  destruct (find _ (Store.linkedin_profiles s)) eqn:E; [discriminate Hmissing|].
  cbn [Store.linkedin_profiles].
  rewrite (map_rowid_unchanged _ _ _ E), E. now destruct s.
Qed.

Lemma UpdateLinkedInProfile_unknown_id_witness :
  Store.UpdateLinkedInProfile Sample2.plain_json Sample2.store_1 7
    Sample2.ada_update 200
  = (inr "failed to get LinkedIn profile: sql: no rows in result set"%string,
     Sample2.store_1).
Proof.
  apply (UpdateLinkedInProfile_unknown_id Sample2.plain_json Sample2.store_1 7
           Sample2.ada_update 200
           "failed to get LinkedIn profile: sql: no rows in result set").
  reflexivity.
Defined.

(** X15. [DeleteLinkedInProfile] returns nil exactly when the profile was
    stored; afterwards the profile cannot be read, whatever was returned, and
    every other profile reads as before. *)
Theorem DeleteLinkedInProfile_removes_one (json : Store.JSONLib)
    (s : Store.Store) (id : Z) :
  (fst (Store.DeleteLinkedInProfile s id) = None
   <-> exists st, Store.GetLinkedInProfile json s id = inl st)
  /\ Store.GetLinkedInProfile json (snd (Store.DeleteLinkedInProfile s id)) id
     = inr "failed to get LinkedIn profile: sql: no rows in result set"%string
  /\ forall id', id' <> id ->
       Store.GetLinkedInProfile json (snd (Store.DeleteLinkedInProfile s id)) id'
       = Store.GetLinkedInProfile json s id'.
Proof.
  unfold Store.DeleteLinkedInProfile, Store.GetLinkedInProfile.
  assert (Hsnd : forall (a b : option error * Store.Store) (c : bool),
            snd a = snd b -> snd (if c then a else b) = snd a)
    by (intros a b [] H; congruence).
  rewrite Hsnd by reflexivity. cbn [snd Store.linkedin_profiles].
  split; [|split].
  - destruct (filter _ (Store.linkedin_profiles s)) as [|x l] eqn:E.
    + apply filter_rowid_nil in E. rewrite E. cbn.
      split; [discriminate | intros [st H]; discriminate H].
    + cbn. split; [intros _ | reflexivity].
      destruct (find _ (Store.linkedin_profiles s)) as [r|] eqn:F; [eauto|].
      apply filter_rowid_nil in F. congruence.
  - now rewrite find_rowid_filtered.
  - intros id' Hid'. now rewrite find_rowid_filter.
Qed.

(** X16. A profile read from the store has a desired salary of 0 and an
    empty zip code, whatever was stored: the two fields have no column.  So
    a question the salary rule answers is answered 0 for every stored
    profile. *)
Theorem stored_profile_answers_salary_0 {W : Type} (lib : GoLib)
    (json : Store.JSONLib) (s : Store.Store) (id : Z) (st : Store.Stored)
    (labelText inputType : string) (fb : option (fallback W)) (w : W)
    (Hstored : Store.GetLinkedInProfile json s id = inl st)
    (Hrule : rule_number lib labelText = Some 5%nat) :
  DesiredSalary (Store.profile st) = 0
  /\ ZipCode (Store.profile st) = EmptyString
  /\ ChooseValue lib labelText inputType (Store.profile st) fb w = ("0"%string, w).
Proof.
  assert (Hzero : DesiredSalary (Store.profile st) = 0
                  /\ ZipCode (Store.profile st) = EmptyString).
  { unfold Store.GetLinkedInProfile in Hstored.
    destruct (find _ (Store.linkedin_profiles s)); [|discriminate Hstored].
    injection Hstored as <-. now split. }
  destruct Hzero as [Hsalary Hzip]. split; [exact Hsalary|]. split; [exact Hzip|].
  revert Hrule.
  unfold ChooseValue, rule_number, label_rules, normalised.
  rewrite !containsAny_existsb.
  set (l := strings_ToLower lib (strings_TrimSpace lib labelText)).
  cbn [first_matching fst cue_matches].
  replace (existsb (Contains l) ["have you ever worked"%string])
    with (Contains l "have you ever worked") by (cbn; now rewrite orb_false_r).
  replace (existsb (Contains l) ["state"%string])
    with (Contains l "state") by (cbn; now rewrite orb_false_r).
  destruct (existsb (Contains l) ["phone"; "mobile"; "telephone"; "contact"]%string);
    [discriminate|].
  destruct (existsb (Contains l) ["city"; "location"; "reside"]%string);
    [discriminate|].
  destruct (Contains l "have you ever worked"); [discriminate|].
  destruct (Contains l "state"); [discriminate|].
  destruct (existsb (Contains l) ["salary"; "wage"; "income"; "compensation"]%string).
  - intros _. now rewrite Hsalary.
  - destruct (forallb (Contains l) ["experience"; "year"]%string); [discriminate|].
    destruct (existsb (Contains l) ["linkedin"; "linked-in"; "linked in"]%string);
      discriminate.
Qed.

Lemma stored_profile_answers_salary_0_witness :
  DesiredSalary
    (mkProfile 1 "ada@example.org" "secret" "555-0100" ["engineer"]
       ["Austin"; "Remote"] true "https://www.linkedin.com/in/ada" 4
       "Austin" "TX" EmptyString 0) = 0
  /\ ZipCode
       (mkProfile 1 "ada@example.org" "secret" "555-0100" ["engineer"]
          ["Austin"; "Remote"] true "https://www.linkedin.com/in/ada" 4
          "Austin" "TX" EmptyString 0) = EmptyString
  /\ ChooseValue Sample.ascii_lib "Desired salary (USD)" "text"
       (mkProfile 1 "ada@example.org" "secret" "555-0100" ["engineer"]
          ["Austin"; "Remote"] true "https://www.linkedin.com/in/ada" 4
          "Austin" "TX" EmptyString 0) None tt
     = ("0"%string, tt).
Proof.
  apply (stored_profile_answers_salary_0 Sample.ascii_lib Sample2.plain_json
           Sample2.store_2 1
           (Store.mkStored
              (mkProfile 1 "ada@example.org" "secret" "555-0100" ["engineer"]
                 ["Austin"; "Remote"] true "https://www.linkedin.com/in/ada" 4
                 "Austin" "TX" EmptyString 0)
              100 200)
           "Desired salary (USD)" "text" None tt).
  - reflexivity.
  - reflexivity.
Defined.

(** ** The life cycle of the browser *)

Section Runs_facts.
Import Frames.
Variable W : Type.
Local Open Scope list_scope.

Lemma keeps_ends {A : Type} (Inv : W -> Prop) (m : M W A) (w : W) :
  keeps Inv m -> Inv w -> ends m w (fun _ w' _ => Inv w').
Proof. intros H Hw. now apply H. Qed.

(** *** Running to an end *)

Lemma runs_ret {A : Type} (a : A) (w : W) : runs (ret a) w (Ret a) w [].
Proof. now repeat split. Qed.

Lemma runs_panic {A : Type} (w : W) : runs (panic (A:=A)) w Panic w [].
Proof. now repeat split. Qed.

Lemma runs_liftW {A : Type} (f : W -> A * W) (w : W) :
  runs (liftW f) w (Ret (fst (f w))) (snd (f w)) [].
Proof. unfold runs, liftW. destruct (f w). now repeat split. Qed.

Lemma runs_modW (f : W -> W) (w : W) : runs (modW f) w (Ret tt) (f w) [].
Proof. now repeat split. Qed.

Lemma runs_emit (e : event) (w : W) : runs (emit e) w (Ret tt) w [e].
Proof. now repeat split. Qed.

Lemma runs_bind {A B : Type} (m : M W A) (f : A -> M W B) (w w1 w2 : W)
    (a : A) (o : outcome B) (e1 e2 e : list event) :
  runs m w (Ret a) w1 e1 -> runs (f a) w1 o w2 e2 -> e = e1 ++ e2 ->
  runs (bind m f) w o w2 e.
Proof.
  unfold runs, bind. intros (-> & -> & ->) (-> & -> & ->) ->. now repeat split.
Qed.

Lemma runs_bind_panic {A B : Type} (m : M W A) (f : A -> M W B) (w w1 : W)
    (e : list event) :
  runs m w Panic w1 e -> runs (bind m f) w Panic w1 e.
Proof. unfold runs, bind. intros (-> & -> & ->). now repeat split. Qed.

Lemma runs_ends {A : Type} (m : M W A) (w w' : W) (o : outcome A)
    (e : list event) (R : outcome A -> W -> list event -> Prop) :
  runs m w o w' e -> R o w' e -> ends m w R.
Proof. unfold runs, ends. now intros (-> & -> & ->). Qed.

(** *** Keeping an invariant *)

Lemma keeps_ret {A : Type} (Inv : W -> Prop) (a : A) : keeps Inv (ret a).
Proof. intros w Hw. exact Hw. Qed.

Lemma keeps_panic {A : Type} (Inv : W -> Prop) : keeps Inv (panic (A:=A)).
Proof. intros w Hw. exact Hw. Qed.

Lemma keeps_emit (Inv : W -> Prop) (e : event) : keeps Inv (emit e).
Proof. intros w Hw. exact Hw. Qed.

Lemma keeps_bind {A B : Type} (Inv : W -> Prop) (m : M W A) (f : A -> M W B) :
  keeps Inv m -> (forall a, keeps Inv (f a)) -> keeps Inv (bind m f).
Proof.
  intros Hm Hf w Hw. unfold bind. specialize (Hm w Hw).
  destruct (out (m w)) as [a|]; cbn [world]; [|exact Hm].
  now apply Hf.
Qed.

Lemma keeps_liftW {A : Type} (Inv : W -> Prop) (f : W -> A * W) :
  (forall w, Inv w -> Inv (snd (f w))) -> keeps Inv (liftW f).
Proof.
  intros Hf w Hw. unfold liftW. specialize (Hf w Hw).
  destruct (f w) as [a w']. exact Hf.
Qed.

Lemma keeps_modW (Inv : W -> Prop) (f : W -> W) :
  (forall w, Inv w -> Inv (f w)) -> keeps Inv (modW f).
Proof. intros Hf w Hw. now apply Hf. Qed.

End Runs_facts.

Ltac keeps_step :=
  lazymatch goal with
  | |- Frames.keeps _ (bind _ _) => apply keeps_bind; [|intros ?]
  | |- Frames.keeps _ (liftW _) => apply keeps_liftW
  | |- Frames.keeps _ (modW _) => apply keeps_modW
  | |- Frames.keeps _ (emit _) => apply keeps_emit
  | |- Frames.keeps _ (ret _) => apply keeps_ret
  | |- Frames.keeps _ panic => apply keeps_panic
  | |- Frames.keeps _ (match ?x with _ => _ end) => destruct x
  end.

Ltac keeps_steps := repeat keeps_step.

(** One step of a computation that returns. *)
Ltac runs_prim :=
  first [ apply runs_liftW | apply runs_modW | apply runs_ret
        | apply runs_emit | apply runs_panic | eassumption ].

Ltac runs_step :=
  first [ eapply runs_bind; [runs_prim | cbn [fst snd] | reflexivity]
        | runs_prim ].

Section Frame_facts.
Import Frames.
Variables W Elem Frame : Type.
Variable lib : GoLib.
Variable env : Env W Elem Frame.
Variable profile : LinkedInProfile.
Variable Inv : W -> Prop.
Hypothesis Hpo : page_only env Inv.

Ltac frame :=
  keeps_steps;
  try solve [ destruct Hpo; auto
            | intros ? ?; cbn [ChooseValue snd]; assumption ].

Lemma isPresent_iframes_keeps (loc : locator) (iframes : list Elem) :
  keeps Inv (isPresent_iframes env loc iframes).
Proof.
  induction iframes as [|iframe rest IH]; cbn [isPresent_iframes]; frame.
Qed.

Lemma isPresent_keeps (loc : locator) : keeps Inv (isPresent env loc).
Proof. unfold isPresent. frame. apply isPresent_iframes_keeps. Qed.

Lemma attr_keeps (el : Elem) (name : string) : keeps Inv (attr lib env el name).
Proof. unfold attr. frame. Qed.

Lemma isEmpty_keeps (el : Elem) : keeps Inv (isEmpty lib env el).
Proof. unfold isEmpty. keeps_step; [apply attr_keeps | frame]. Qed.

Lemma isRequired_keeps (el : Elem) : keeps Inv (isRequired lib env el).
Proof.
  unfold isRequired. keeps_step; [apply attr_keeps|].
  keeps_step; [frame|]. keeps_step; [frame|]. keeps_step; [frame|].
  keeps_step; [apply attr_keeps | frame].
Qed.

Lemma clearAndType_keeps (el : Elem) (text : string) :
  keeps Inv (clearAndType env el text).
Proof. unfold clearAndType. frame. Qed.

Lemma labelledby_parts_keeps (page : Elem) (ids parts : list string) :
  keeps Inv (labelledby_parts lib env page ids parts).
Proof.
  revert parts. induction ids as [|one rest IH]; intros parts;
    cbn [labelledby_parts]; frame; apply IH.
Qed.

Lemma getBestLabelText_keeps (page el : Elem) :
  keeps Inv (getBestLabelText lib env page el).
Proof.
  unfold getBestLabelText.
  repeat first [ apply attr_keeps
               | apply labelledby_parts_keeps
               | keeps_step ];
    destruct Hpo; auto.
Qed.

Lemma ChooseValue_no_fallback_keeps (labelText inputType : string) (w : W) :
  snd (ChooseValue lib labelText inputType profile None w) = w.
Proof.
  unfold ChooseValue.
  repeat match goal with
         | |- context [if ?c then _ else _] => destruct c
         end; reflexivity.
Qed.

Lemma FillInvalids_inputs_keeps (page : Elem) (inputs : list Elem) :
  keeps Inv (FillInvalids_inputs lib env page profile None inputs).
Proof.
  induction inputs as [|inputEl rest IH]; cbn [FillInvalids_inputs].
  - frame.
  - repeat first [ apply isEmpty_keeps
                 | apply isRequired_keeps
                 | apply getBestLabelText_keeps
                 | apply attr_keeps
                 | apply clearAndType_keeps
                 | apply IH
                 | keeps_step ].
    intros w Hw. now rewrite ChooseValue_no_fallback_keeps.
Qed.

Lemma FillInvalids_keeps (page : Elem) :
  keeps Inv (FillInvalids lib env page profile None).
Proof.
  unfold FillInvalids.
  repeat first [ apply FillInvalids_inputs_keeps | keeps_step ].
  destruct Hpo; auto.
Qed.

Lemma handleInlineErrors_iframes_keeps (iframes : list Elem) :
  keeps Inv (handleInlineErrors_iframes lib env profile iframes).
Proof.
  induction iframes as [|iframe rest IH]; cbn [handleInlineErrors_iframes].
  - frame.
  - repeat first [ apply FillInvalids_keeps | apply IH | keeps_step ];
      destruct Hpo; auto.
Qed.

Lemma handleInlineErrors_keeps :
  keeps Inv (handleInlineErrors lib env profile).
Proof.
  unfold handleInlineErrors.
  repeat first [ apply isPresent_keeps
               | apply handleInlineErrors_iframes_keeps
               | keeps_step ];
    destruct Hpo; auto.
Qed.

Lemma clickWhenClickable_iframes_keeps (loc : locator) (iframes : list Elem) :
  keeps Inv (clickWhenClickable_iframes env loc iframes).
Proof.
  induction iframes as [|iframe rest IH]; cbn [clickWhenClickable_iframes];
    frame.
Qed.

Lemma clickWhenClickable_keeps (loc : locator) :
  keeps Inv (clickWhenClickable env loc).
Proof.
  unfold clickWhenClickable.
  repeat first [ apply clickWhenClickable_iframes_keeps | keeps_step ];
    destruct Hpo; auto.
Qed.

Lemma inner_loop_keeps (bs : list locator) (j : Z) (s : bool) :
  keeps Inv (inner_loop lib env profile j bs s).
Proof.
  revert j. induction bs as [|loc rest IH]; intros j; cbn [inner_loop].
  - frame.
  - unfold hasErrors.
    repeat first [ apply isPresent_keeps
                 | apply clickWhenClickable_keeps
                 | apply handleInlineErrors_keeps
                 | apply IH
                 | keeps_step ].
Qed.

Lemma outer_loop_keeps (left : nat) (s : bool) :
  keeps Inv (outer_loop lib env profile left s).
Proof.
  revert s. induction left as [|left' IH]; intros s; cbn [outer_loop].
  - frame.
  - repeat first [ apply handleInlineErrors_keeps
                 | apply inner_loop_keeps
                 | apply IH
                 | keeps_step ].
Qed.

Lemma FillOutEasyApplyForm_keeps :
  keeps Inv (FillOutEasyApplyForm lib env profile).
Proof.
  unfold FillOutEasyApplyForm.
  repeat first [ apply outer_loop_keeps | keeps_step ]; destruct Hpo; auto.
Qed.

Lemma LoadPage_scroll_keeps (n : nat) : keeps Inv (LoadPage_scroll env n).
Proof. induction n as [|n IH]; cbn [LoadPage_scroll]; frame. Qed.

Lemma LoadPage_keeps : keeps Inv (LoadPage env).
Proof.
  unfold LoadPage.
  repeat first [ apply LoadPage_scroll_keeps | keeps_step ]; destruct Hpo; auto.
Qed.

Lemma GetEasyApplyButton_keeps : keeps Inv (GetEasyApplyButton env).
Proof. unfold GetEasyApplyButton. frame. Qed.

Lemma pick_keeps (xs : list string) : keeps Inv (pick env xs).
Proof. unfold pick. frame. Qed.

Lemma collect_children_keeps (children : list Elem) (IDs : list Z) :
  keeps Inv (collect_children lib env children IDs).
Proof.
  revert IDs. induction children as [|child rest IH]; intros IDs;
    cbn [collect_children].
  - frame.
  - keeps_step; [frame|]. keeps_step; [|frame].
    destruct (ExtractJobID lib s) as [[jobID ok]|]; [|frame].
    destruct (negb ok); apply IH.
Qed.

Lemma collect_links_keeps (links : list Elem) (IDs : list Z) :
  keeps Inv (collect_links lib env links IDs).
Proof.
  revert IDs. induction links as [|element rest IH]; intros IDs;
    cbn [collect_links].
  - frame.
  - repeat first [ apply collect_children_keeps | apply IH | keeps_step ].
    destruct Hpo; auto.
Qed.

Lemma apply_to_jobs_keeps (IDs : list Z) :
  keeps Inv (apply_to_jobs lib env profile IDs).
Proof.
  induction IDs as [|jobID rest IH]; cbn [apply_to_jobs].
  - frame.
  - repeat first [ apply GetEasyApplyButton_keeps
                 | apply FillOutEasyApplyForm_keeps
                 | apply IH
                 | keeps_step ];
      destruct Hpo; auto.
Qed.

Lemma campaign_pass_keeps (position location : string) (jobsPerPage : Z)
    (IDs : list Z) :
  keeps Inv (campaign_pass lib env profile position location jobsPerPage IDs).
Proof.
  unfold campaign_pass.
  repeat first [ apply LoadPage_keeps
               | apply collect_links_keeps
               | apply apply_to_jobs_keeps
               | keeps_step ];
    destruct Hpo; auto.
Qed.

Lemma campaign_loop_keeps (passes : nat) (position location : string)
    (jobsPerPage : Z) (IDs : list Z) :
  keeps Inv (campaign_loop lib env passes profile position location jobsPerPage IDs).
Proof.
  revert IDs. induction passes as [|passes' IH]; intros IDs;
    cbn [campaign_loop].
  - frame.
  - repeat first [ apply campaign_pass_keeps | apply IH | keeps_step ].
Qed.

(** Once the flag is set, the campaign keeps whatever the page calls keep. *)
Lemma StartApplying_keeps (passes : nat) (w : W) :
  Inv (set_applying env true w) ->
  Inv (world (StartApplying lib env passes profile w)).
Proof.
  intros Hw. unfold StartApplying.
  change (Inv (world (bind (modW (set_applying env true))
                        (fun _ => bind (pick env (Positions profile))
                           (fun position => bind (pick env (Locations profile))
                              (fun location =>
                                 campaign_loop lib env passes profile position
                                   location 0 []))) w))).
  unfold bind at 1. cbn [modW out world].
  assert (H : keeps Inv
                (bind (pick env (Positions profile))
                   (fun position => bind (pick env (Locations profile))
                      (fun location =>
                         campaign_loop lib env passes profile position
                           location 0 [])))).
  { repeat first [ apply pick_keeps | apply campaign_loop_keeps | keeps_step ]. }
  now apply H.
Qed.

End Frame_facts.

Section Lifecycle_facts.
Import Frames Lifecycle.
Variables P Elem Frame : Type.
Variable machine : Machine P Elem.
Variable env : Env P Elem Frame.
Local Open Scope list_scope.

Ltac life := unfold this, assign, call, call_, read.

Lemma first_existing_spec (paths : list string) (w : World P) :
  exists x,
    runs (first_existing machine paths) w (Ret x) w []
    /\ ((x = EmptyString
         /\ Forall (fun p => os_Stat machine p (snd w) = false) paths)
        \/ exists l1 l2,
             paths = l1 ++ x :: l2
             /\ os_Stat machine x (snd w) = true
             /\ Forall (fun p => os_Stat machine p (snd w) = false) l1).
Proof.
  induction paths as [|p rest IH]; cbn [first_existing].
  - exists EmptyString. split; [apply runs_ret|].
    left. split; [reflexivity | constructor].
  - destruct (os_Stat machine p (snd w)) eqn:E.
    + exists p. split.
      * life. eapply runs_bind; [apply runs_liftW | cbn [fst snd] | reflexivity].
        rewrite E. apply runs_ret.
      * right. exists [], rest. repeat split; [exact E | constructor].
    + destruct IH as (x & Hrun & Hx). exists x. split.
      * life. eapply runs_bind; [apply runs_liftW | cbn [fst snd] | reflexivity].
        rewrite E. exact Hrun.
      * destruct Hx as [[-> Hall]|(l1 & l2 & -> & Hx & Hl1)].
        -- left. split; [reflexivity | now constructor].
        -- right. exists (p :: l1), l2.
           repeat split; [exact Hx | now constructor].
Qed.

Lemma system_paths_named :
  Forall (fun p => p <> EmptyString) (system_paths machine).
Proof.
  unfold system_paths.
  destruct (String.eqb (runtime_GOOS machine) "darwin");
    [repeat constructor; discriminate|].
  destruct (String.eqb (runtime_GOOS machine) "windows");
    [repeat constructor; discriminate|].
  destruct (String.eqb (runtime_GOOS machine) "linux");
    repeat constructor; discriminate.
Qed.

Lemma findBundledBrowser_reads (w : World P) :
  exists x,
    runs (findBundledBrowser machine) w (Ret x) w []
    /\ (x = EmptyString
        \/ exists exe,
             os_Executable machine (snd w) = Some exe
             /\ x = bundled_path machine (filepath_Dir machine exe)).
Proof.
  unfold findBundledBrowser. life.
  destruct (os_Executable machine (snd w)) as [exe|] eqn:E.
  - destruct (os_Stat machine (bundled_path machine (filepath_Dir machine exe))
                (snd w)) eqn:F.
    + eexists. split; [|right; eauto].
      runs_step. rewrite E. runs_step. rewrite F. runs_step.
    + eexists. split; [|now left].
      runs_step. rewrite E. runs_step. rewrite F. runs_step.
  - eexists. split; [|now left]. runs_step. rewrite E. runs_step.
Qed.

(** What [Launch] gives the launcher is read off the machine. *)
Lemma Launch_bin_reads (bundledPath : string) (w : World P) :
  exists bin,
    runs
      (if negb (String.eqb bundledPath EmptyString)
       then ret (Some bundledPath)
       else
         bind (findSystemBrowser machine)
           (fun systemPath =>
              if negb (String.eqb systemPath EmptyString)
              then ret (Some systemPath)
              else ret None))
      w (Ret bin) w []
    /\ (bin = None
        \/ (bin = Some bundledPath /\ bundledPath <> EmptyString)
        \/ exists x, In x (system_paths machine) /\ bin = Some x).
Proof.
  destruct (first_existing_spec (system_paths machine) w) as (y & Hy & Hspec).
  destruct (String.eqb_spec bundledPath EmptyString) as [E|E]; cbn [negb].
  - destruct (String.eqb_spec y EmptyString) as [F|F].
    + exists None. split; [|now left].
      eapply runs_bind; [exact Hy | | reflexivity].
      destruct (String.eqb_spec y EmptyString); [apply runs_ret | contradiction].
    + exists (Some y). split.
      * eapply runs_bind; [exact Hy | | reflexivity].
        destruct (String.eqb_spec y EmptyString); [contradiction | apply runs_ret].
      * right; right. exists y. split; [|reflexivity].
        destruct Hspec as [[-> _]|(l1 & l2 & -> & _ & _)]; [contradiction|].
        apply in_or_app. right. now left.
  - exists (Some bundledPath). split; [apply runs_ret|]. right; left. now split.
Qed.

Lemma Launch_running (w : World P) (b : string) :
  browser (fst w) = Some b ->
  runs (Launch machine) w (Ret (Some "browser already running"%string)) w [].
Proof.
  intros H. unfold Launch. life. runs_step. rewrite H. runs_step.
Qed.

(** [Launch] on a manager that is not running: the launcher is started with
    no binary, the bundled one or a system one, and the browser is held from
    then on, connected or not. *)
Lemma Launch_stopped (w : World P) :
  browser (fst w) = None ->
  exists bin,
    (bin = None
     \/ (exists exe,
           os_Executable machine (snd w) = Some exe
           /\ bin = Some (bundled_path machine (filepath_Dir machine exe)))
     \/ exists x, In x (system_paths machine) /\ bin = Some x)
    /\ let l := launcher_Launch machine bin (snd w) in
       match fst l with
       | inr err =>
           runs (Launch machine) w
             (Ret (Some ("failed to launch browser: " ++ err)%string))
             (fst w, snd l) []
       | inl url =>
           let c := browser_Connect machine url (snd l) in
           let bm := set_browser (Some url) (set_launcher url bin (fst w)) in
           match fst c with
           | Some e =>
               runs (Launch machine) w
                 (Ret (Some ("failed to connect to browser: " ++ e)%string))
                 (bm, snd c) []
           | None =>
               runs (Launch machine) w (Ret None)
                 (bm, browser_MustIgnoreCertErrors machine url (snd c)) []
           end
       end.
Proof.
  intros H. destruct (findBundledBrowser_reads w) as (x & Hx & Hxs).
  destruct (Launch_bin_reads x w) as (bin & Hbin & Hbins).
  exists bin. split.
  { destruct Hbins as [->|[[-> Hne]|Hsys]]; [now left | | now right; right].
    destruct Hxs as [->|(exe & Hexe & ->)]; [contradiction|].
    right; left. eauto. }
  cbv zeta.
  destruct (launcher_Launch machine bin (snd w)) as [[url|err] p1] eqn:L;
    cbn [fst snd].
  - destruct (browser_Connect machine url p1) as [[e|] p2] eqn:C; cbn [fst snd].
    + unfold Launch. life. runs_step. rewrite H.
      eapply runs_bind; [exact Hx | | reflexivity].
      eapply runs_bind; [exact Hbin | | reflexivity].
      runs_step. rewrite L. cbn [fst snd].
      runs_step. runs_step. runs_step. rewrite C. cbn [fst snd]. runs_step.
    + unfold Launch. life. runs_step. rewrite H.
      eapply runs_bind; [exact Hx | | reflexivity].
      eapply runs_bind; [exact Hbin | | reflexivity].
      runs_step. rewrite L. cbn [fst snd].
      runs_step. runs_step. runs_step. rewrite C. cbn [fst snd].
      runs_step. runs_step.
  - unfold Launch. life. runs_step. rewrite H.
    eapply runs_bind; [exact Hx | | reflexivity].
    eapply runs_bind; [exact Hbin | | reflexivity].
    runs_step. rewrite L. cbn [fst snd]. runs_step.
Qed.

Lemma Close_stopped (w : World P) :
  browser (fst w) = None -> runs (Close machine) w (Ret None) w [].
Proof. intros H. unfold Close. life. runs_step. rewrite H. runs_step. Qed.

Lemma must_returns {A : Type} (f : P -> outcome A * P) (w : World P) (a : A) :
  fst (f (snd w)) = Ret a ->
  runs (must f) w (Ret a) (fst w, snd (f (snd w))) [].
Proof.
  intros C. unfold must. life.
  eapply runs_bind; [apply runs_liftW | | reflexivity].
  cbn [fst snd]. rewrite C. apply runs_ret.
Qed.

Lemma must_panics {A : Type} (f : P -> outcome A * P) (w : World P) :
  fst (f (snd w)) = Panic ->
  runs (must f) w Panic (fst w, snd (f (snd w))) [].
Proof.
  intros C. unfold must. life.
  eapply runs_bind; [apply runs_liftW | | reflexivity].
  cbn [fst snd]. rewrite C. apply runs_panic.
Qed.

(** [Close] on a running manager: what closing the browser answers decides
    between dropping the browser and a panic that leaves it. *)
Lemma Close_running (w : World P) (b : string) :
  browser (fst w) = Some b ->
  match fst (browser_Close machine b (snd w)) with
  | Ret err =>
      runs (Close machine) w (Ret err)
        (cancel (SetApplying false (set_browser None (fst w))),
         snd (browser_Close machine b (snd w))) []
  | Panic =>
      runs (Close machine) w Panic
        (fst w, snd (browser_Close machine b (snd w))) []
  end.
Proof.
  intros H.
  destruct (fst (browser_Close machine b (snd w))) as [err|] eqn:C.
  - unfold Close. life. runs_step. rewrite H.
    eapply runs_bind; [apply must_returns; exact C | | reflexivity].
    runs_step. runs_step. runs_step. runs_step.
  - unfold Close. life. runs_step. rewrite H.
    apply runs_bind_panic. apply must_panics. exact C.
Qed.

End Lifecycle_facts.

Section Lifecycle_ends.
Import Frames Lifecycle.
Variables P Elem Frame : Type.
Variable lib : GoLib.
Variable json : Store.JSONLib.
Variable machine : Machine P Elem.
Variable env : Env P Elem Frame.
Local Open Scope list_scope.

Ltac life := unfold this, assign, call, call_, read.

Lemma IsApplying_SetApplying (value : bool) (bm : BrowserManager) :
  IsApplying (SetApplying value bm) = value.
Proof. reflexivity. Qed.

Lemma Launch_ends (w : World P) :
  ends (Launch machine) w
    (fun o w' e =>
       e = []
       /\ match o with
          | Ret None => IsRunning (fst w') = true /\ ctx (fst w') = ctx (fst w)
          | Ret (Some err) => True
          | Panic => False
          end).
Proof.
  destruct (browser (fst w)) as [b|] eqn:H.
  - eapply runs_ends; [apply (Launch_running _ _ machine _ _ H)|]. now split.
  - destruct (Launch_stopped _ _ machine w H) as (bin & _ & Hl). cbv zeta in Hl.
    destruct (fst (launcher_Launch machine bin (snd w))) as [url|err].
    + destruct (fst (browser_Connect machine url
                       (snd (launcher_Launch machine bin (snd w))))) as [e|];
        (eapply runs_ends; [exact Hl|]); now repeat split.
    + eapply runs_ends; [exact Hl|]. now split.
Qed.

Lemma Close_ends (w : World P) :
  ends (Close machine) w
    (fun o w' e =>
       e = []
       /\ match o with
          | Ret err =>
              IsRunning (fst w') = false
              /\ (IsRunning (fst w) = true ->
                  IsApplying (fst w') = false /\ cancelled (fst w') = true)
          | Panic => IsRunning (fst w) = true /\ fst w' = fst w
          end
       /\ (IsRunning (fst w) = false -> o = Ret None /\ w' = w)
       /\ (forall b, browser (fst w) = Some b ->
           (o = Panic <-> fst (browser_Close machine b (snd w)) = Panic))).
Proof.
  unfold IsRunning. destruct (browser (fst w)) as [b|] eqn:H.
  - pose proof (Close_running _ _ machine _ _ H) as Hrun.
    assert (Hiff : forall (o : outcome (option error)) b',
              Some b = Some b' ->
              fst (browser_Close machine b (snd w)) = o ->
              (o = Panic <-> fst (browser_Close machine b' (snd w)) = Panic)).
    { intros o b' Hb' Ho. injection Hb' as <-. rewrite Ho. reflexivity. }
    destruct (fst (browser_Close machine b (snd w))) as [err|] eqn:C;
      (eapply runs_ends; [exact Hrun|]); cbn [fst snd];
      (split; [reflexivity|]); (split; [|split]);
      try (intros Hb; discriminate Hb);
      try (intros b' Hb'; now apply Hiff).
    + now split.
    + now split.
  - eapply runs_ends; [apply (Close_stopped _ _ machine _ H)|].
    rewrite H. split; [reflexivity|]. split; [|split].
    + split; [reflexivity | discriminate].
    + now split.
    + discriminate.
Qed.

Lemma Login_ends (email password : string) (w : World P) :
  ends (Login machine env email password) w
    (fun o w' e =>
       e = []
       /\ match o with
          | Ret (true, None) => IsRunning (fst w) = true /\ fst w' = fst w
          | Ret (false, None) =>
              IsRunning (fst w) = true
              /\ fst w' = cancel (set_browser None (fst w))
          | Ret (_, Some _) => False
          | Panic => fst w' = fst w
          end
       /\ (IsRunning (fst w) = false -> o = Panic)).
Proof.
  unfold Login, MustElement, MustInput, must, IsRunning. life.
  ends_steps; cbn; repeat split; try reflexivity; try discriminate.
Qed.

Lemma manager_env_page_only (bm : BrowserManager) :
  page_only (manager_env env) (fun w => fst w = bm).
Proof. constructor; intros; cbn; assumption. Qed.

Lemma campaign_pass_searched (profile : LinkedInProfile)
    (position location : string) (IDs : list Z) (w : World P) :
  exists rest,
    events (campaign_pass lib (manager_env env) profile position location 0 IDs w)
    = EvSearch position location 0 :: rest.
Proof.
  unfold campaign_pass. unfold bind at 1.
  cbn [emit out world events app]. eauto.
Qed.

Lemma campaign_loop_searched (passes : nat) (profile : LinkedInProfile)
    (position location : string) (IDs : list Z) (w : World P) (err : error) :
  out (campaign_loop lib (manager_env env) passes profile position location 0 IDs w)
  = Ret (Some err) ->
  exists rest,
    events (campaign_loop lib (manager_env env) passes profile position location
              0 IDs w)
    = EvSearch position location 0 :: rest.
Proof.
  destruct passes as [|passes']; cbn [campaign_loop]; [discriminate|].
  intros _.
  destruct (campaign_pass_searched profile position location IDs w) as (rest & E).
  unfold bind. rewrite E.
  destruct (out (campaign_pass lib (manager_env env) profile position location 0
                   IDs w)); cbn [events app]; eauto.
Qed.

Lemma campaign_ends (passes : nat) (profile : LinkedInProfile) (w : World P) :
  ends (StartApplying lib (manager_env env) passes profile) w
    (fun o w' e =>
       fst w' = SetApplying true (fst w)
       /\ match o with
          | Ret (Some _) =>
              exists position location rest,
                e = EvSearch position location 0 :: rest
          | _ => True
          end
       /\ (Positions profile = [] \/ Locations profile = [] ->
           o = Panic /\ e = [])).
Proof.
  unfold ends. split; [|split].
  - apply (StartApplying_keeps _ _ _ lib (manager_env env) profile
             (fun w' => fst w' = SetApplying true (fst w))
             (manager_env_page_only _) passes w).
    reflexivity.
  - destruct (out (StartApplying lib (manager_env env) passes profile w))
      as [[err|]|] eqn:E; [|exact I|exact I].
    revert E. unfold StartApplying.
    set (w1 := set_applying (manager_env env) true w).
    destruct (bind_returns _ (modW (set_applying (manager_env env) true))
                (fun _ =>
                   bind (pick (manager_env env) (Positions profile))
                     (fun position =>
                        bind (pick (manager_env env) (Locations profile))
                          (fun location =>
                             campaign_loop lib (manager_env env) passes profile
                               position location 0 [])))
                w tt eq_refl) as (-> & _ & ->).
    cbn [modW world events app]. fold w1.
    destruct (out (pick (manager_env env) (Positions profile) w1))
      as [position|] eqn:E1.
    + destruct (bind_returns _ (pick (manager_env env) (Positions profile))
                  (fun position =>
                     bind (pick (manager_env env) (Locations profile))
                       (fun location =>
                          campaign_loop lib (manager_env env) passes profile
                            position location 0 []))
                  w1 position E1) as (-> & _ & ->).
      rewrite pick_quiet. cbn [app].
      set (w2 := world (pick (manager_env env) (Positions profile) w1)).
      destruct (out (pick (manager_env env) (Locations profile) w2))
        as [location|] eqn:E2.
      * destruct (bind_returns _ (pick (manager_env env) (Locations profile))
                    (fun location =>
                       campaign_loop lib (manager_env env) passes profile
                         position location 0 [])
                    w2 location E2) as (-> & _ & ->).
        rewrite pick_quiet. cbn [app]. intros E.
        destruct (campaign_loop_searched _ _ _ _ _ _ _ E) as (rest & Hrest).
        eauto.
      * destruct (bind_panics _ (pick (manager_env env) (Locations profile))
                    (fun location =>
                       campaign_loop lib (manager_env env) passes profile
                         position location 0 [])
                    w2 E2) as [-> _].
        discriminate.
    + destruct (bind_panics _ (pick (manager_env env) (Positions profile))
                  (fun position =>
                     bind (pick (manager_env env) (Locations profile))
                       (fun location =>
                          campaign_loop lib (manager_env env) passes profile
                            position location 0 []))
                  w1 E1) as [-> _].
      discriminate.
  - apply StartApplying_no_targets.
Qed.

Lemma StartBrowser_ends (email password : string) (w : World P) :
  ends (App.StartBrowser machine env email password) w
    (fun o w' e =>
       e = []
       /\ match o with
          | Ret (ok, None) => IsRunning (fst w') = false
          | Ret (ok, Some err) => ok = false
          | Panic => IsRunning (fst w') = true
          end).
Proof.
  unfold App.StartBrowser. ends_step.
  eapply ends_conseq; [apply Launch_ends|]. cbv beta.
  intros o w1 e1 [-> Ho]. destruct o as [[err|]|]; [| |contradiction].
  - ends_steps. now split.
  - destruct Ho as [Hrun _]. ends_step.
    eapply ends_conseq; [apply Login_ends|]. cbv beta.
    intros o2 w2 e2 (-> & Ho2 & _).
    destruct o2 as [[ok err]|].
    + ends_step.
      eapply ends_conseq; [apply Close_ends|]. cbv beta.
      intros o3 w3 e3 (-> & Ho3 & _).
      destruct o3 as [err3|].
      * destruct Ho3 as [Hstop _].
        life. ends_steps. destruct ok, err; try contradiction;
          (split; [reflexivity | exact Hstop]).
      * destruct Ho3 as [Hstill ->]. split; [reflexivity | exact Hstill].
    + split; [reflexivity|]. now rewrite Ho2.
Qed.

Lemma StartBrowser_running (email password : string) (w : World P) :
  IsRunning (fst w) = true ->
  runs (App.StartBrowser machine env email password) w
    (Ret (false, Some "browser already running"%string)) w [].
Proof.
  unfold IsRunning. destruct (browser (fst w)) as [b|] eqn:H; [|discriminate].
  intros _. unfold App.StartBrowser.
  eapply runs_bind; [apply (Launch_running _ _ machine _ _ H) | | reflexivity].
  apply runs_ret.
Qed.

Lemma StartApplying_running (passes : nat) (s : Store.Store) (profileId : Z)
    (st : Store.Stored) (w : World P) :
  IsRunning (fst w) = true ->
  Store.GetLinkedInProfile json s profileId = inl st ->
  runs (App.StartApplying lib json machine env passes (Some s) profileId) w
    (Ret (Some (Some "browser already running"%string))) w [].
Proof.
  unfold IsRunning. destruct (browser (fst w)) as [b|] eqn:H; [|discriminate].
  intros _ G. unfold App.StartApplying. rewrite G.
  eapply runs_bind; [apply (Launch_running _ _ machine _ _ H) | | reflexivity].
  apply runs_ret.
Qed.

Lemma StopBrowser_ends (w : World P) :
  ends (App.StopBrowser machine) w
    (fun o w' e =>
       e = []
       /\ match o with
          | Ret err =>
              IsRunning (fst w') = false /\ IsApplying (fst w') = false
          | Panic => IsRunning (fst w) = true /\ fst w' = fst w
          end
       /\ (IsRunning (fst w) = false -> o = Ret None)
       /\ (forall b, browser (fst w) = Some b ->
           (o = Panic <-> fst (browser_Close machine b (snd w)) = Panic))).
Proof.
  unfold App.StopBrowser. ends_step.
  unfold IsRunning. destruct (browser (fst w)) as [b|] eqn:H.
  - pose proof (Close_running _ _ machine _ _ H) as Hrun.
    destruct (fst (browser_Close machine b (snd w))) as [[e|]|] eqn:C;
      (eapply runs_ends; [exact Hrun|]);
      life; ends_steps; cbn;
      (split; [reflexivity|]); (split; [|split]);
      try (intros Hb; discriminate Hb);
      try (now split);
      intros b' Hb'; injection Hb' as <-; rewrite C;
      split; intros Hp; first [discriminate Hp | reflexivity].
  - eapply runs_ends; [apply (Close_stopped _ _ machine _ H)|].
    life. ends_steps. cbn. rewrite H.
    split; [reflexivity|]. split; [|split].
    + now split.
    + reflexivity.
    + discriminate.
Qed.

Lemma StartApplying_ends (passes : nat) (s : Store.Store) (profileId : Z)
    (st : Store.Stored) (w : World P) :
  Store.GetLinkedInProfile json s profileId = inl st ->
  ends (App.StartApplying lib json machine env passes (Some s) profileId) w
    (fun o w' e =>
       match o with
       | Ret (Some None) =>
           (exists position location rest,
              e = EvSearch position location 0 :: rest)
           /\ IsRunning (fst w') = true
           /\ IsApplying (fst w') = true
       | Ret (Some (Some err)) => e = []
       | _ => True
       end
       /\ (Positions (Store.profile st) = []
           \/ Locations (Store.profile st) = [] ->
           e = []
           /\ match o with
              | Ret (Some (Some _)) | Panic => True
              | _ => False
              end)).
Proof.
  intros G. unfold App.StartApplying. rewrite G. ends_step.
  eapply ends_conseq; [apply Launch_ends|]. cbv beta.
  intros o w1 e1 [-> Ho]. destruct o as [[err|]|]; [| |contradiction].
  { ends_steps. now repeat split. }
  destruct Ho as [Hrun _]. ends_step.
  eapply ends_conseq; [apply Login_ends|]. cbv beta.
  intros o2 w2 e2 (-> & Ho2 & _).
  destruct o2 as [[ok err]|]; [|now repeat split].
  destruct ok, err; try contradiction; cbn [fst snd negb app].
  2:{ ends_steps. now repeat split. }
  destruct Ho2 as [_ Hw2]. ends_step.
  eapply ends_conseq; [apply campaign_ends|]. cbv beta.
  intros o3 w3 e3 (Hw3 & Ho3 & Hnone).
  destruct o3 as [[err|]|]; cbn [app].
  - ends_step. rewrite app_nil_r. split.
    + split; [exact Ho3|]. rewrite Hw3, Hw2. split; [exact Hrun | reflexivity].
    + intros Hn. destruct (Hnone Hn) as [Hbad _]. discriminate Hbad.
  - ends_step. split; [exact I|].
    intros Hn. destruct (Hnone Hn) as [Hbad _]. discriminate Hbad.
  - split; [exact I|]. intros Hn. destruct (Hnone Hn) as [_ ->]. now split.
Qed.

End Lifecycle_ends.

(** X17. [Close] stops the manager unless closing the browser panics.
    When it returns, [IsRunning] is false afterwards, also when closing the
    browser gave an error; if the manager was running, [IsApplying] is false
    and the context is cancelled; and a second [Close] returns nil and
    changes nothing.  It panics exactly when [Browser.Close] of the
    library panics, which the machine tells (the library does on a browser
    that was never connected), and the manager is then as it was, with
    [IsRunning] still true.  On a manager that is not running it returns
    nil and changes nothing. *)
Theorem Close_stops_or_panics {P Elem : Type}
    (machine : Lifecycle.Machine P Elem) (w : Lifecycle.World P) :
  let r := Lifecycle.Close machine w in
  match out r with
  | Ret err =>
      Lifecycle.IsRunning (fst (world r)) = false
      /\ (Lifecycle.IsRunning (fst w) = true ->
          Lifecycle.IsApplying (fst (world r)) = false
          /\ Lifecycle.cancelled (fst (world r)) = true)
      /\ Frames.runs (Lifecycle.Close machine) (world r) (Ret None) (world r) []
  | Panic =>
      Lifecycle.IsRunning (fst w) = true /\ fst (world r) = fst w
  end
  /\ (Lifecycle.IsRunning (fst w) = false -> out r = Ret None /\ world r = w)
  /\ (forall b, Lifecycle.browser (fst w) = Some b ->
      (out r = Panic
       <-> fst (Lifecycle.browser_Close machine b (snd w)) = Panic)).
Proof.
  cbv zeta.
  destruct (Close_ends P Elem machine w) as (_ & Ho & Hidle & Hpanic).
  split; [|split; assumption].
  destruct (out (Lifecycle.Close machine w)) as [err|]; [|exact Ho].
  destruct Ho as [Hstop Hrun]. split; [exact Hstop|]. split; [exact Hrun|].
  apply Close_stopped. revert Hstop. unfold Lifecycle.IsRunning.
  destruct (Lifecycle.browser (fst (world (Lifecycle.Close machine w))));
    [discriminate | reflexivity].
Qed.

(** After a connection that failed, the browser that is held cannot be
    closed: [StopBrowser] panics and the manager stays running. *)
Example StopBrowser_after_failed_connect :
  let started :=
    App.StartBrowser (Sample2.sample_machine false)
      (Sample.scripted_env Sample.three_steps Sample.no_inputs [] true)
      "ada@example.org" "secret" (Sample2.new_manager, Sample.start_page) in
  let stopped := App.StopBrowser (Sample2.sample_machine false) (world started) in
  out stopped = Panic
  /\ Lifecycle.IsRunning (fst (world stopped)) = true.
Proof. vm_compute. split; reflexivity. Qed.

(** X18. [findSystemBrowser] only reads the machine and returns the first
    path of its list for the operating system that exists: the empty string
    exactly when none exists, and otherwise a path before which no listed
    path exists. *)
Theorem findSystemBrowser_first_installed {P Elem : Type}
    (machine : Lifecycle.Machine P Elem) (w : Lifecycle.World P) :
  exists x,
    Frames.runs (Lifecycle.findSystemBrowser machine) w (Ret x) w []
    /\ (x = EmptyString
        <-> Forall (fun p => Lifecycle.os_Stat machine p (snd w) = false)
              (Lifecycle.system_paths machine))
    /\ (x <> EmptyString ->
        exists l1 l2,
          Lifecycle.system_paths machine = (l1 ++ x :: l2)%list
          /\ Lifecycle.os_Stat machine x (snd w) = true
          /\ Forall (fun p => Lifecycle.os_Stat machine p (snd w) = false) l1).
Proof.
  destruct (first_existing_spec P Elem machine (Lifecycle.system_paths machine) w)
    as (x & Hrun & Hx).
  exists x. split; [exact Hrun|].
  pose proof (system_paths_named P Elem machine) as Hnamed.
  split; [split|].
  - intros ->. destruct Hx as [[_ Hall]|(l1 & l2 & E & _ & _)]; [exact Hall|].
    exfalso. rewrite E in Hnamed. apply Forall_app in Hnamed.
    destruct Hnamed as [_ Hnamed]. inversion Hnamed as [|? ? Hne _]. now apply Hne.
  - intros Hall. destruct Hx as [[-> _]|(l1 & l2 & E & Hx & _)]; [reflexivity|].
    exfalso. rewrite E in Hall. apply Forall_app in Hall.
    destruct Hall as [_ Hall]. inversion Hall as [|? ? Hno _]. congruence.
  - intros Hne. destruct Hx as [[-> _]|Hx]; [now contradiction Hne | exact Hx].
Qed.

(** X19. [Login] leaves no event and never returns a non-nil error.  When
    it reports a successful login the manager is as it was; when it reports
    a failed one the browser has been dropped and the context cancelled,
    the applying flag being left as it was; when it panics the manager is as
    it was.  On a manager that is not running it panics. *)
Theorem Login_outcomes {P Elem Frame : Type}
    (machine : Lifecycle.Machine P Elem) (env : Env P Elem Frame)
    (email password : string) (w : Lifecycle.World P) :
  let r := Lifecycle.Login machine env email password w in
  events r = []
  /\ match out r with
     | Ret (true, None) =>
         Lifecycle.IsRunning (fst w) = true /\ fst (world r) = fst w
     | Ret (false, None) =>
         Lifecycle.IsRunning (fst w) = true
         /\ fst (world r) = Lifecycle.cancel (Lifecycle.set_browser None (fst w))
     | Ret (_, Some _) => False
     | Panic => fst (world r) = fst w
     end
  /\ (Lifecycle.IsRunning (fst w) = false -> out r = Panic).
Proof. exact (Login_ends P Elem Frame machine env email password w). Qed.

(** X20. The campaign sets the applying flag of the manager and never
    clears it: whether [StartApplying] returns an error, is still running or
    panics, the manager it leaves is the one it found with the flag set, so
    [IsApplying] is true and [IsRunning] is as before. *)
Theorem StartApplying_leaves_the_flag_set {P Elem Frame : Type} (lib : GoLib)
    (env : Env P Elem Frame) (passes : nat) (profile : LinkedInProfile)
    (w : Lifecycle.World P) :
  let r := StartApplying lib (Lifecycle.manager_env env) passes profile w in
  fst (world r) = Lifecycle.SetApplying true (fst w)
  /\ Lifecycle.IsApplying (fst (world r)) = true
  /\ Lifecycle.IsRunning (fst (world r)) = Lifecycle.IsRunning (fst w).
Proof.
  cbv zeta.
  destruct (campaign_ends P Elem Frame lib env passes profile w) as (Hw & _).
  rewrite Hw. repeat split.
Qed.

(** X21. [AppService.StartBrowser] leaves no browser behind when it returns
    without error: [IsRunning] is false afterwards, whether the login
    succeeded or not.  An error comes with a false result.  If it panics,
    the browser is left running. *)
Theorem StartBrowser_leaves_browser_closed {P Elem Frame : Type}
    (machine : Lifecycle.Machine P Elem) (env : Env P Elem Frame)
    (email password : string) (w : Lifecycle.World P) :
  let r := App.StartBrowser machine env email password w in
  events r = []
  /\ match out r with
     | Ret (ok, None) => Lifecycle.IsRunning (fst (world r)) = false
     | Ret (ok, Some err) => ok = false
     | Panic => Lifecycle.IsRunning (fst (world r)) = true
     end.
Proof. exact (StartBrowser_ends P Elem Frame machine env email password w). Qed.

(** X22. A connection that fails leaves the manager running.  When the
    launcher starts and the connection to the browser fails, [StartBrowser]
    returns that error with [IsRunning] true, and from then on every
    [StartBrowser], and every [StartApplying] for a stored profile, returns
    the error browser already running without touching anything. *)
Theorem failed_connect_blocks_the_service {P Elem Frame : Type} (lib : GoLib)
    (json : Store.JSONLib) (machine : Lifecycle.Machine P Elem)
    (env : Env P Elem Frame) (email password : string)
    (bm : Lifecycle.BrowserManager) (p : P) (url : string) (e : error)
    (Hstopped : Lifecycle.browser bm = None)
    (Hlaunch : forall bin, fst (Lifecycle.launcher_Launch machine bin p) = inl url)
    (Hconnect : forall bin,
       fst (Lifecycle.browser_Connect machine url
              (snd (Lifecycle.launcher_Launch machine bin p))) = Some e) :
  let r := App.StartBrowser machine env email password (bm, p) in
  out r = Ret (false, Some ("failed to connect to browser: " ++ e)%string)
  /\ Lifecycle.IsRunning (fst (world r)) = true
  /\ (forall p' email' password',
        Frames.runs (App.StartBrowser machine env email' password')
          (fst (world r), p')
          (Ret (false, Some "browser already running"%string))
          (fst (world r), p') [])
  /\ (forall p' passes s profileId st,
        Store.GetLinkedInProfile json s profileId = inl st ->
        Frames.runs
          (App.StartApplying lib json machine env passes (Some s) profileId)
          (fst (world r), p')
          (Ret (Some (Some "browser already running"%string)))
          (fst (world r), p') []).
Proof.
  cbv zeta.
  destruct (Launch_stopped P Elem machine (bm, p) Hstopped) as (bin & _ & Hl).
  cbv zeta in Hl. cbn [fst snd] in Hl.
  rewrite (Hlaunch bin), (Hconnect bin) in Hl.
  assert (Hrun : Frames.runs (App.StartBrowser machine env email password) (bm, p)
                   (Ret (false, Some ("failed to connect to browser: " ++ e)%string))
                   (Lifecycle.set_browser (Some url)
                      (Lifecycle.set_launcher url bin bm),
                    snd (Lifecycle.browser_Connect machine url
                           (snd (Lifecycle.launcher_Launch machine bin p)))) []).
  { unfold App.StartBrowser.
    eapply runs_bind; [exact Hl | | reflexivity]. apply runs_ret. }
  destruct Hrun as (-> & -> & _). cbn [fst].
  split; [reflexivity|]. split; [reflexivity|]. split.
  - intros p' email' password'. now apply StartBrowser_running.
  - intros p' passes s profileId st G.
    now apply (StartApplying_running P Elem Frame lib json machine env passes s
                 profileId st).
Qed.

Lemma failed_connect_blocks_the_service_witness :
  out (App.StartBrowser (Sample2.sample_machine false)
         (Sample.scripted_env Sample.three_steps Sample.no_inputs [] true)
         "ada@example.org" "secret" (Sample2.new_manager, Sample.start_page))
  = Ret (false, Some "failed to connect to browser: connection refused"%string).
Proof.
  refine (proj1 (failed_connect_blocks_the_service Sample.ascii_lib
                   Sample2.plain_json (Sample2.sample_machine false)
                   (Sample.scripted_env Sample.three_steps Sample.no_inputs [] true)
                   "ada@example.org" "secret" Sample2.new_manager
                   Sample.start_page "ws://127.0.0.1:9222/devtools"
                   "connection refused" _ _ _)).
  - reflexivity.
  - intros bin. reflexivity.
  - intros bin. reflexivity.
Defined.

(** X23. [AppService.StopBrowser] resets the status unless closing the
    browser panics.  When it returns, with or without an error, the status
    read afterwards by [GetBrowserStatus] is neither running nor applying.
    It panics exactly when [Browser.Close] of the library panics, which
    the machine tells (the library does on a browser that was never
    connected), and the manager is then as it was and the status still says
    running.  With no browser running it returns nil. *)
Theorem StopBrowser_resets_status {P Elem : Type}
    (machine : Lifecycle.Machine P Elem)
    (downloader : Download.ChromeDownloader) (w : Lifecycle.World P) :
  let r := App.StopBrowser machine w in
  match out r with
  | Ret err =>
      App.Running (App.GetBrowserStatus machine downloader (world r)) = false
      /\ App.Applying (App.GetBrowserStatus machine downloader (world r)) = false
  | Panic =>
      fst (world r) = fst w
      /\ App.Running (App.GetBrowserStatus machine downloader (world r)) = true
  end
  /\ (Lifecycle.IsRunning (fst w) = false -> out r = Ret None)
  /\ (forall b, Lifecycle.browser (fst w) = Some b ->
      (out r = Panic
       <-> fst (Lifecycle.browser_Close machine b (snd w)) = Panic)).
Proof.
  cbv zeta.
  destruct (StopBrowser_ends P Elem machine w) as (_ & Ho & Hidle & Hpanic).
  split; [|split; assumption].
  destruct (out (App.StopBrowser machine w)) as [err|]; [exact Ho|].
  destruct Ho as [Hrun Hw]. split; [exact Hw|].
  cbn [App.GetBrowserStatus App.Running]. now rewrite Hw.
Qed.

(** X24. [AppService.StartApplying] drops the error of the campaign.  For a
    stored profile, when it returns nil the campaign has run, with at least
    one search, and has stopped with an error; the browser is still running
    and the applying flag still set.  When it returns an error no search was
    made. *)
Theorem StartApplying_returns_nil_after_the_campaign {P Elem Frame : Type}
    (lib : GoLib) (json : Store.JSONLib) (machine : Lifecycle.Machine P Elem)
    (env : Env P Elem Frame) (passes : nat) (s : Store.Store) (profileId : Z)
    (st : Store.Stored) (w : Lifecycle.World P)
    (Hstored : Store.GetLinkedInProfile json s profileId = inl st) :
  let r := App.StartApplying lib json machine env passes (Some s) profileId w in
  match out r with
  | Ret (Some None) =>
      (exists position location rest,
         events r = EvSearch position location 0 :: rest)
      /\ Lifecycle.IsRunning (fst (world r)) = true
      /\ Lifecycle.IsApplying (fst (world r)) = true
  | Ret (Some (Some err)) => events r = []
  | _ => True
  end.
Proof.
  exact (proj1 (StartApplying_ends P Elem Frame lib json machine env passes s
                  profileId st w Hstored)).
Qed.

Lemma StartApplying_returns_nil_after_the_campaign_witness :
  out (App.StartApplying Sample.ascii_lib Sample2.plain_json
         (Sample2.sample_machine true) (Sample2.login_env [] true) 1
         (Some Sample2.store_2) 1 (Sample2.new_manager, Sample.start_page))
  = Ret (Some None)
  /\ Lifecycle.IsRunning
       (fst (world (App.StartApplying Sample.ascii_lib Sample2.plain_json
                      (Sample2.sample_machine true) (Sample2.login_env [] true) 1
                      (Some Sample2.store_2) 1
                      (Sample2.new_manager, Sample.start_page)))) = true
  /\ Lifecycle.IsApplying
       (fst (world (App.StartApplying Sample.ascii_lib Sample2.plain_json
                      (Sample2.sample_machine true) (Sample2.login_env [] true) 1
                      (Some Sample2.store_2) 1
                      (Sample2.new_manager, Sample.start_page)))) = true.
Proof.
  assert (E : out (App.StartApplying Sample.ascii_lib Sample2.plain_json
                     (Sample2.sample_machine true) (Sample2.login_env [] true) 1
                     (Some Sample2.store_2) 1
                     (Sample2.new_manager, Sample.start_page))
              = Ret (Some None)) by (vm_compute; reflexivity).
  split; [exact E|].
  generalize (StartApplying_returns_nil_after_the_campaign Sample.ascii_lib
                Sample2.plain_json (Sample2.sample_machine true)
                (Sample2.login_env [] true) 1 Sample2.store_2 1
                (Store.mkStored
                   (mkProfile 1 "ada@example.org" "secret" "555-0100"
                      ["engineer"%string] ["Austin"%string; "Remote"%string] true
                      "https://www.linkedin.com/in/ada" 4 "Austin" "TX"
                      EmptyString 0)
                   100 200)
                (Sample2.new_manager, Sample.start_page) eq_refl).
  cbv zeta. rewrite E. intros H. exact (proj2 H).
Defined.

(** X25. A profile as [CreateLinkedInProfile] leaves it cannot be applied
    with: it has no position and no location, so [AppService.StartApplying]
    for it returns an error or panics, and makes no search. *)
Theorem StartApplying_on_a_new_profile_never_searches {P Elem Frame : Type}
    (lib : GoLib) (json : Store.JSONLib) (machine : Lifecycle.Machine P Elem)
    (env : Env P Elem Frame) (passes : nat) (s : Store.Store)
    (email password : string) (now : Z) (w : Lifecycle.World P)
    (Hjson : Store.json_Unmarshal json "[]" = Some []) :
  let s' := snd (Store.CreateLinkedInProfile json s email password now) in
  let r := App.StartApplying lib json machine env passes (Some s')
             (Store.next_rowid s) w in
  events r = []
  /\ match out r with
     | Ret (Some (Some _)) | Panic => True
     | _ => False
     end.
Proof.
  cbv zeta.
  pose proof (Create_then_Get json s email password now Hjson) as G.
  apply (proj2 (StartApplying_ends P Elem Frame lib json machine env passes _ _ _
                  w G)).
  now left.
Qed.

Lemma StartApplying_on_a_new_profile_never_searches_witness :
  events (App.StartApplying Sample.ascii_lib Sample2.plain_json
            (Sample2.sample_machine true)
            (Sample.scripted_env Sample.three_steps Sample.no_inputs [] true) 1
            (Some (snd (Store.CreateLinkedInProfile Sample2.plain_json
                          Store.migrated "ada@example.org" "secret" 100)))
            (Store.next_rowid Store.migrated)
            (Sample2.new_manager, Sample.start_page))
  = []
  /\ match out (App.StartApplying Sample.ascii_lib Sample2.plain_json
                  (Sample2.sample_machine true)
                  (Sample.scripted_env Sample.three_steps Sample.no_inputs []
                     true) 1
                  (Some (snd (Store.CreateLinkedInProfile Sample2.plain_json
                                Store.migrated "ada@example.org" "secret" 100)))
                  (Store.next_rowid Store.migrated)
                  (Sample2.new_manager, Sample.start_page)) with
     | Ret (Some (Some _)) | Panic => True
     | _ => False
     end.
Proof.
  apply (StartApplying_on_a_new_profile_never_searches Sample.ascii_lib
           Sample2.plain_json (Sample2.sample_machine true)
           (Sample.scripted_env Sample.three_steps Sample.no_inputs [] true)
           1 Store.migrated "ada@example.org" "secret" 100
           (Sample2.new_manager, Sample.start_page)).
  reflexivity.
Defined.

(** ** The downloader *)

Section Download_facts.
Import Frames Lifecycle Download.
Variables P Elem : Type.
Variable machine : Machine P Elem.
Variable files : Files P.
Local Open Scope list_scope.

Lemma string_app_assoc (a b c : string) :
  ((a ++ b) ++ c)%string = (a ++ (b ++ c))%string.
Proof. induction a as [|x a IH]; cbn; [reflexivity | now rewrite IH]. Qed.

(** The calls of the extraction on paths under the destination keep [Inv],
    and so do the reading of the archive and the creation of the parent
    directories. *)
Lemma extract_entries_keeps (Inv : P -> Prop) (dest : string)
    (entries : list entry) :
  (forall path p, inside files dest path = true -> Inv p ->
     Inv (snd (os_MkdirAll files path p))) ->
  (forall path p, inside files dest path = true -> Inv p ->
     Inv (snd (os_MkdirAll files (filepath_Dir machine path) p))) ->
  (forall path p, inside files dest path = true -> Inv p ->
     Inv (snd (os_OpenFile files path p))) ->
  (forall f p, Inv p -> Inv (snd (zip_Open files f p))) ->
  (forall path f p, inside files dest path = true -> Inv p ->
     Inv (snd (io_Copy files path f p))) ->
  keeps Inv (extract_entries machine files dest entries).
Proof.
  intros Hmk Hparent Hopen Hzip Hcopy.
  induction entries as [|f rest IH]; cbn [extract_entries].
  - apply keeps_ret.
  - destruct (inside files dest (filepath_Join machine [dest; Name f])) eqn:E;
      cbn [negb]; [|apply keeps_ret].
    destruct (IsDir f).
    + keeps_step; [|exact IH]. keeps_step. intros p Hp. now apply Hmk.
    + keeps_step; [keeps_step; intros p Hp; now apply Hparent|].
      keeps_step; [apply keeps_ret|].
      keeps_step; [keeps_step; intros p Hp; now apply Hopen|].
      keeps_step; [apply keeps_ret|].
      keeps_step; [keeps_step; intros p Hp; now apply Hzip|].
      keeps_step; [apply keeps_ret|].
      keeps_step; [keeps_step; intros p Hp; now apply Hcopy|].
      keeps_step; [apply keeps_ret | exact IH].
Qed.

End Download_facts.

(** X26. [Launch] does not use the browser of the downloader.  Unless the
    path [GetBrowserPath] gives is the bundled path or one of the system
    paths, the launcher that a successful [Launch] leaves on the manager was
    given another binary or none, whether the download is in place or
    not. *)
Theorem Launch_ignores_the_downloaded_browser {P Elem : Type}
    (machine : Lifecycle.Machine P Elem) (cd : Download.ChromeDownloader)
    (w : Lifecycle.World P)
    (Hstopped : Lifecycle.browser (fst w) = None)
    (Hbundled : forall exe,
       Lifecycle.os_Executable machine (snd w) = Some exe ->
       Lifecycle.bundled_path machine (Lifecycle.filepath_Dir machine exe)
       <> Download.GetBrowserPath machine cd)
    (Hsystem : ~ In (Download.GetBrowserPath machine cd)
                 (Lifecycle.system_paths machine))
    (Hlaunched : out (Lifecycle.Launch machine w) = Ret None) :
  exists bin,
    Lifecycle.launcher (fst (world (Lifecycle.Launch machine w))) = Some bin
    /\ bin <> Some (Download.GetBrowserPath machine cd).
Proof.
  destruct (Launch_stopped P Elem machine w Hstopped) as (bin & Hbin & Hl).
  cbv zeta in Hl. exists bin. split.
  - destruct (fst (Lifecycle.launcher_Launch machine bin (snd w))) as [url|err].
    + destruct (fst (Lifecycle.browser_Connect machine url
                       (snd (Lifecycle.launcher_Launch machine bin (snd w)))))
        as [e|]; destruct Hl as (Hout & Hworld & _).
      * rewrite Hout in Hlaunched. discriminate Hlaunched.
      * rewrite Hworld. reflexivity.
    + destruct Hl as (Hout & _). rewrite Hout in Hlaunched. discriminate Hlaunched.
  - destruct Hbin as [->|[(exe & Hexe & ->)|(x & Hx & ->)]].
    + discriminate.
    + intros E. injection E as E. now apply (Hbundled exe Hexe).
    + intros E. injection E as ->. now apply Hsystem.
Qed.

Lemma Launch_ignores_the_downloaded_browser_witness :
  Download.IsDownloaded (Sample2.sample_machine true)
    (Download.NewChromeDownloader (Sample2.sample_machine true) Sample.start_page)
    Sample.start_page = true
  /\ exists bin,
       Lifecycle.launcher
         (fst (world (Lifecycle.Launch (Sample2.sample_machine true)
                        (Sample2.new_manager, Sample.start_page)))) = Some bin
       /\ bin <> Some "/home/ada/.applyfox/chrome/131.0.6778.85/chrome-linux64/chrome"%string.
Proof.
  split; [reflexivity|].
  apply (Launch_ignores_the_downloaded_browser (Sample2.sample_machine true)
           (Download.NewChromeDownloader (Sample2.sample_machine true)
              Sample.start_page)
           (Sample2.new_manager, Sample.start_page)).
  - reflexivity.
  - intros exe H. injection H as <-. vm_compute. discriminate.
  - vm_compute. intros [H|[H|[H|[H|[]]]]]; discriminate H.
  - reflexivity.
Defined.

(** X27. Where the archive comes from and where the browser is looked for
    agree: on a platform that has a download URL, the URL ends with the name
    of a folder followed by .zip, and [GetBrowserPath] is a path through
    that folder in the directory of the version. *)
Theorem download_url_and_browser_path_agree {P Elem : Type}
    (machine : Lifecycle.Machine P Elem) (cd : Download.ChromeDownloader)
    (url : string)
    (Hurl : Download.GetDownloadURL machine cd = inl url) :
  exists base folder rest,
    url = (base ++ "/" ++ folder ++ ".zip")%string
    /\ Download.GetBrowserPath machine cd
       = Lifecycle.filepath_Join machine
           (Lifecycle.filepath_Join machine
              [Download.DownloadDir cd; Download.Version cd]
            :: folder :: rest).
Proof.
  revert Hurl. unfold Download.GetDownloadURL, Download.GetBrowserPath.
  set (platform := Download.GetPlatformKey machine).
  unfold Download.ChromeForTestingURLs. cbn [Download.map_lookup].
  destruct (String.eqb_spec "darwin-arm64" platform) as [<-|_].
  { intros H. injection H as <-.
    exists ("https://storage.googleapis.com/chrome-for-testing-public/"
            ++ Download.Version cd ++ "/mac-arm64")%string,
      "chrome-mac-arm64"%string. eexists. split; [|reflexivity].
    cbn. now rewrite !string_app_assoc. }
  destruct (String.eqb_spec "darwin-amd64" platform) as [<-|_].
  { intros H. injection H as <-.
    exists ("https://storage.googleapis.com/chrome-for-testing-public/"
            ++ Download.Version cd ++ "/mac-x64")%string,
      "chrome-mac-x64"%string. eexists. split; [|reflexivity].
    cbn. now rewrite !string_app_assoc. }
  destruct (String.eqb_spec "linux-amd64" platform) as [<-|_].
  { intros H. injection H as <-.
    exists ("https://storage.googleapis.com/chrome-for-testing-public/"
            ++ Download.Version cd ++ "/linux64")%string,
      "chrome-linux64"%string. eexists. split; [|reflexivity].
    cbn. now rewrite !string_app_assoc. }
  destruct (String.eqb_spec "windows-amd64" platform) as [<-|_].
  { intros H. injection H as <-.
    exists ("https://storage.googleapis.com/chrome-for-testing-public/"
            ++ Download.Version cd ++ "/win64")%string,
      "chrome-win64"%string. eexists. split; [|reflexivity].
    cbn. now rewrite !string_app_assoc. }
  discriminate.
Qed.

Lemma download_url_and_browser_path_agree_witness :
  exists base folder rest,
    "https://storage.googleapis.com/chrome-for-testing-public/131.0.6778.85/linux64/chrome-linux64.zip"%string
    = (base ++ "/" ++ folder ++ ".zip")%string
    /\ Download.GetBrowserPath (Sample2.sample_machine true)
         (Download.NewChromeDownloader (Sample2.sample_machine true)
            Sample.start_page)
       = Lifecycle.filepath_Join (Sample2.sample_machine true)
           (Lifecycle.filepath_Join (Sample2.sample_machine true)
              [Download.DownloadDir
                 (Download.NewChromeDownloader (Sample2.sample_machine true)
                    Sample.start_page);
               Download.Version
                 (Download.NewChromeDownloader (Sample2.sample_machine true)
                    Sample.start_page)]
            :: folder :: rest).
Proof.
  apply (download_url_and_browser_path_agree (Sample2.sample_machine true)
           (Download.NewChromeDownloader (Sample2.sample_machine true)
              Sample.start_page)).
  reflexivity.
Defined.

(** X28. [extractZip] leaves the file system outside the destination alone.
    Whatever the archive holds, a property of the file system that is kept
    by creating directories, opening files and copying at paths that pass
    the check of the destination, by creating the parent directory of such a
    path and by reading the archive, still holds when [extractZip] ends,
    with or without error. *)
Theorem extractZip_stays_in_the_destination {P Elem : Type}
    (machine : Lifecycle.Machine P Elem) (files : Download.Files P)
    (Inv : P -> Prop) (src dest : string) (p : P)
    (Hread : forall p0, Inv p0 ->
       Inv (snd (Download.zip_OpenReader files src p0)))
    (Hmkdir : forall path p0, Download.inside files dest path = true ->
       Inv p0 -> Inv (snd (Download.os_MkdirAll files path p0)))
    (Hparent : forall path p0, Download.inside files dest path = true ->
       Inv p0 ->
       Inv (snd (Download.os_MkdirAll files
                   (Lifecycle.filepath_Dir machine path) p0)))
    (Hopen : forall path p0, Download.inside files dest path = true ->
       Inv p0 -> Inv (snd (Download.os_OpenFile files path p0)))
    (Hentry : forall f p0, Inv p0 -> Inv (snd (Download.zip_Open files f p0)))
    (Hcopy : forall path f p0, Download.inside files dest path = true ->
       Inv p0 -> Inv (snd (Download.io_Copy files path f p0)))
    (Hp : Inv p) :
  Inv (world (Download.extractZip machine files src dest p)).
Proof.
  revert p Hp. change (Frames.keeps Inv (Download.extractZip machine files src dest)).
  unfold Download.extractZip.
  keeps_step; [keeps_step; exact Hread|].
  keeps_step; [|apply keeps_ret].
  now apply extract_entries_keeps.
Qed.

Lemma extractZip_stays_in_the_destination_witness :
  Forall (fun path => Download.inside (Sample2.recording_files Sample2.slipping_archive)
                        "/opt/chrome" path = true)
    (world (Download.extractZip Sample2.path_machine
              (Sample2.recording_files Sample2.slipping_archive)
              "/opt/chrome/chrome.zip" "/opt/chrome" [])).
Proof.
  apply (extractZip_stays_in_the_destination Sample2.path_machine
           (Sample2.recording_files Sample2.slipping_archive)
           (Forall (fun path =>
                      Download.inside
                        (Sample2.recording_files Sample2.slipping_archive)
                        "/opt/chrome" path = true))
           "/opt/chrome/chrome.zip" "/opt/chrome" []).
  - intros p0 H. exact H.
  - intros path p0 _ H. exact H.
  - intros path p0 _ H. exact H.
  - intros path p0 Hin H. constructor; assumption.
  - intros f p0 H. exact H.
  - intros path f p0 Hin H. constructor; assumption.
  - constructor.
Defined.

(** The archive that climbs out is refused at its third entry, after the
    file of its second entry has been written. *)
Example extractZip_refuses_slip :
  out (Download.extractZip Sample2.path_machine
         (Sample2.recording_files Sample2.slipping_archive)
         "/opt/chrome/chrome.zip" "/opt/chrome" [])
  = Ret (Some "invalid file path: /.bashrc"%string)
  /\ world (Download.extractZip Sample2.path_machine
              (Sample2.recording_files Sample2.slipping_archive)
              "/opt/chrome/chrome.zip" "/opt/chrome" [])
     = ["/opt/chrome/chrome-linux64/chrome"%string;
        "/opt/chrome/chrome-linux64/chrome"%string].
Proof. vm_compute. split; reflexivity. Qed.

(** X29. [Launch] prefers the bundled browser: when the browser bundled
    with the executable exists, the launcher that a successful [Launch]
    leaves on the manager was given its path, whatever browsers the system
    has. *)
Theorem Launch_prefers_the_bundled_browser {P Elem : Type}
    (machine : Lifecycle.Machine P Elem) (w : Lifecycle.World P) (exe : string)
    (Hstopped : Lifecycle.browser (fst w) = None)
    (Hexe : Lifecycle.os_Executable machine (snd w) = Some exe)
    (Hnamed : Lifecycle.bundled_path machine (Lifecycle.filepath_Dir machine exe)
              <> EmptyString)
    (Hexists : Lifecycle.os_Stat machine
                 (Lifecycle.bundled_path machine
                    (Lifecycle.filepath_Dir machine exe)) (snd w) = true)
    (Hlaunched : out (Lifecycle.Launch machine w) = Ret None) :
  Lifecycle.launcher (fst (world (Lifecycle.Launch machine w)))
  = Some (Some (Lifecycle.bundled_path machine
                  (Lifecycle.filepath_Dir machine exe))).
Proof.
  set (path := Lifecycle.bundled_path machine (Lifecycle.filepath_Dir machine exe))
    in *.
  assert (Hfind : Frames.runs (Lifecycle.findBundledBrowser machine) w
                    (Ret path) w []).
  { unfold Lifecycle.findBundledBrowser, Lifecycle.read.
    runs_step. rewrite Hexe. runs_step. fold path. rewrite Hexists. runs_step. }
  assert (Hchoose : Frames.runs
                      (if negb (String.eqb path EmptyString)
                       then ret (Some path)
                       else
                         bind (Lifecycle.findSystemBrowser machine)
                           (fun systemPath =>
                              if negb (String.eqb systemPath EmptyString)
                              then ret (Some systemPath)
                              else ret None))
                      w (Ret (Some path)) w []).
  { destruct (String.eqb_spec path EmptyString) as [E|_]; [contradiction|].
    cbn [negb]. apply runs_ret. }
  destruct (Lifecycle.launcher_Launch machine (Some path) (snd w))
    as [[url|err] p1] eqn:L.
  - destruct (Lifecycle.browser_Connect machine url p1) as [[e|] p2] eqn:C.
    + assert (R : Frames.runs (Lifecycle.Launch machine) w
                    (Ret (Some ("failed to connect to browser: " ++ e)%string))
                    (Lifecycle.set_browser (Some url)
                       (Lifecycle.set_launcher url (Some path) (fst w)), p2) []).
      { unfold Lifecycle.Launch, Lifecycle.this, Lifecycle.assign,
          Lifecycle.call, Lifecycle.call_.
        runs_step. rewrite Hstopped.
        eapply runs_bind; [exact Hfind | | reflexivity].
        eapply runs_bind; [exact Hchoose | | reflexivity].
        runs_step. rewrite L. cbn [fst snd].
        runs_step. runs_step. runs_step. rewrite C. cbn [fst snd]. runs_step. }
      destruct R as (Ho & _). rewrite Ho in Hlaunched. discriminate Hlaunched.
    + assert (R : Frames.runs (Lifecycle.Launch machine) w (Ret None)
                    (Lifecycle.set_browser (Some url)
                       (Lifecycle.set_launcher url (Some path) (fst w)),
                     Lifecycle.browser_MustIgnoreCertErrors machine url p2) []).
      { unfold Lifecycle.Launch, Lifecycle.this, Lifecycle.assign,
          Lifecycle.call, Lifecycle.call_.
        runs_step. rewrite Hstopped.
        eapply runs_bind; [exact Hfind | | reflexivity].
        eapply runs_bind; [exact Hchoose | | reflexivity].
        runs_step. rewrite L. cbn [fst snd].
        runs_step. runs_step. runs_step. rewrite C. cbn [fst snd].
        runs_step. runs_step. }
      destruct R as (_ & -> & _). reflexivity.
  - assert (R : Frames.runs (Lifecycle.Launch machine) w
                  (Ret (Some ("failed to launch browser: " ++ err)%string))
                  (fst w, p1) []).
    { unfold Lifecycle.Launch, Lifecycle.this, Lifecycle.assign,
        Lifecycle.call, Lifecycle.call_.
      runs_step. rewrite Hstopped.
      eapply runs_bind; [exact Hfind | | reflexivity].
      eapply runs_bind; [exact Hchoose | | reflexivity].
      runs_step. rewrite L. cbn [fst snd]. runs_step. }
    destruct R as (Ho & _). rewrite Ho in Hlaunched. discriminate Hlaunched.
Qed.

Lemma Launch_prefers_the_bundled_browser_witness :
  Lifecycle.launcher
    (fst (world (Lifecycle.Launch Sample2.bundled_machine
                   (Sample2.new_manager, Sample.start_page))))
  = Some (Some "/opt/foxyapply/resources/chrome/chrome"%string).
Proof.
  apply (Launch_prefers_the_bundled_browser Sample2.bundled_machine
           (Sample2.new_manager, Sample.start_page) "/opt/foxyapply/foxyapply").
  - reflexivity.
  - reflexivity.
  - vm_compute. discriminate.
  - reflexivity.
  - reflexivity.
Defined.
